(** * groups.js: the permutation store, permutation sets and their algorithms

    A shallow embedding of [permutation-repository.js], [int-set-utils.js],
    the permutation sets of [group-engine.js] and the number helpers of
    [group-private-utils.js], with properties of the specification and of
    the code.

    Conventions of the embedding.
    - A JavaScript number that the code uses as an index, an ID or a point
      is a [Z]; an [Int32Array] is a [list Z] of fixed length.  Cells hold
      mathematical integers: the 32-bit wrap-around of a typed-array store
      is not modelled, the stores below only ever hold IDs, points and
      arena offsets.
    - [rd a i] is [a[i]].  Where JavaScript yields [undefined] (an index
      outside the array) [rd] yields [0]; under the store invariant [wf]
      and for interned IDs no read is out of range.
    - [wr a i v] is [a[i] = v]; a typed array ignores a store outside its
      bounds, and so does [wr].
    - A [for (let i = lo; i < hi; i++)] loop is [for_range lo hi body].
    - A method of the store takes the store and returns the new store with
      its result: the store is the single mutable object of the program. *)

From Stdlib Require Import ZArith List Lia Bool String Ascii.
From Stdlib Require Import Znumtheory.
From stdpp Require Import base tactics option list numbers sorting.

Local Open Scope Z_scope.

(** ** Typed arrays and loops *)

Definition rd (a : list Z) (i : Z) : Z :=
  if decide (0 ≤ i) then default 0 (a !! Z.to_nat i) else 0.

Definition wr (a : list Z) (i v : Z) : list Z :=
  if decide (0 ≤ i) then <[Z.to_nat i := v]> a else a.

Definition len (a : list Z) : Z := Z.of_nat (length a).

(** [new Int32Array(n)]: [n] zeroes. *)
Definition new_array (n : Z) : list Z := replicate (Z.to_nat n) 0.

(** [a.subarray(lo, hi)], for [0 <= lo <= hi]. *)
Definition subarray (a : list Z) (lo hi : Z) : list Z :=
  take (Z.to_nat (hi - lo)) (drop (Z.to_nat lo) a).

Definition for_range {St : Type} (lo hi : Z) (body : Z → St → St) (st : St) : St :=
  fold_left (fun s i => body i s) (seqZ lo (hi - lo)) st.

(** ** The permutation store ([PermutationRepository]) *)

Definition INITIAL_TRIE_MEMORY_BYTES : Z := 1024 * 1024.
Definition BYTES_PER_INT : Z := 4.
Definition INITIAL_TRIE_SLOTS : Z := INITIAL_TRIE_MEMORY_BYTES / BYTES_PER_INT.

Record PermutationRepository := mkRepo {
  globalDegree : Z;
  count : Z;
  permCapacity : Z;
  permBuffer : list Z;
  trieNodeSize : Z;
  trieBuffer : list Z;
  trieFreePtr : Z;
  identity : Z
}.

Definition set_trieBuffer (s : PermutationRepository) (b : list Z) :=
  mkRepo (globalDegree s) (count s) (permCapacity s) (permBuffer s)
         (trieNodeSize s) b (trieFreePtr s) (identity s).

Definition set_trieFreePtr (s : PermutationRepository) (p : Z) :=
  mkRepo (globalDegree s) (count s) (permCapacity s) (permBuffer s)
         (trieNodeSize s) (trieBuffer s) p (identity s).

Definition set_permBuffer (s : PermutationRepository) (b : list Z) :=
  mkRepo (globalDegree s) (count s) (permCapacity s) b
         (trieNodeSize s) (trieBuffer s) (trieFreePtr s) (identity s).

Definition set_permCapacity (s : PermutationRepository) (c : Z) :=
  mkRepo (globalDegree s) (count s) c (permBuffer s)
         (trieNodeSize s) (trieBuffer s) (trieFreePtr s) (identity s).

Definition set_count (s : PermutationRepository) (c : Z) :=
  mkRepo (globalDegree s) c (permCapacity s) (permBuffer s)
         (trieNodeSize s) (trieBuffer s) (trieFreePtr s) (identity s).

Definition set_degree (s : PermutationRepository) (d : Z) :=
  mkRepo d (count s) (permCapacity s) (permBuffer s)
         (d + 1) (trieBuffer s) (trieFreePtr s) (identity s).

Definition set_identity (s : PermutationRepository) (i : Z) :=
  mkRepo (globalDegree s) (count s) (permCapacity s) (permBuffer s)
         (trieNodeSize s) (trieBuffer s) (trieFreePtr s) i.

(** [_expandTrieBuffer]: a buffer of twice the length, the old contents
    copied to its front. *)
Definition _expandTrieBuffer (s : PermutationRepository) : PermutationRepository :=
  let oldLen := len (trieBuffer s) in
  let newLen := oldLen * 2 in
  set_trieBuffer s (trieBuffer s ++ new_array (newLen - oldLen)).

(** [_allocateNode]: one expansion at most, then the node is filled with
    [-1] and the free pointer advanced. *)
Definition _allocateNode (s : PermutationRepository) : PermutationRepository * Z :=
  let s1 := if decide (trieFreePtr s + trieNodeSize s > len (trieBuffer s))
            then _expandTrieBuffer s else s in
  let ptr := trieFreePtr s1 in
  let size := trieNodeSize s1 in
  let buf := for_range 0 size (fun i b => wr b (ptr + i) (-1)) (trieBuffer s1) in
  (set_trieFreePtr (set_trieBuffer s1 buf) (ptr + size), ptr).

(** The trie walk of [register] (step 3) and of the rebuild loop of
    [_upgradeDegree]: the two loops have the same body and differ in where
    the value of position [i] comes from, here [val i]. *)
Definition trie_step (val : Z → Z) (i : Z) (st : PermutationRepository * Z)
  : PermutationRepository * Z :=
  let '(s, currNodePtr) := st in
  let childSlotIdx := currNodePtr + 1 + val i in
  let nextNodePtr := rd (trieBuffer s) childSlotIdx in
  if decide (nextNodePtr = -1) then
    let '(s1, fresh) := _allocateNode s in
    (set_trieBuffer s1 (wr (trieBuffer s1) childSlotIdx fresh), fresh)
  else (s, nextNodePtr).

Definition trie_walk (val : Z → Z) (n : Z) (s : PermutationRepository)
  : PermutationRepository * Z :=
  for_range 0 n (trie_step val) (s, 0).

(** [_writeToPermBuffer] *)
Definition _writeToPermBuffer (s : PermutationRepository) (id : Z)
    (inputArr : list Z) (validLen : Z) : PermutationRepository :=
  let n := globalDegree s in
  let offset := id * n in
  let b1 := for_range 0 validLen (fun i b => wr b (offset + i) (rd inputArr i)) (permBuffer s) in
  let b2 := for_range validLen n (fun i b => wr b (offset + i) i) b1 in
  set_permBuffer s b2.

(** [_expandPermCapacity] *)
Definition _expandPermCapacity (s : PermutationRepository) : PermutationRepository :=
  let cap := permCapacity s * 2 in
  let newBuf := new_array (cap * globalDegree s) in
  (* newBuf.set(this.permBuffer) *)
  let newBuf := permBuffer s ++ drop (length (permBuffer s)) newBuf in
  set_permBuffer (set_permCapacity s cap) newBuf.

(** [_upgradeDegree] *)
Definition _upgradeDegree (s : PermutationRepository) (newDegree : Z)
  : PermutationRepository :=
  let oldDegree := globalDegree s in
  let oldPermBuffer := permBuffer s in
  let totalPerms := count s in
  let s := set_degree s newDegree in
  let pb :=
    for_range 0 totalPerms (fun i pb =>
      let oldStart := i * oldDegree in
      let newStart := i * newDegree in
      let pb := for_range 0 oldDegree
                  (fun k pb => wr pb (newStart + k) (rd oldPermBuffer (oldStart + k))) pb in
      for_range oldDegree newDegree (fun k pb => wr pb (newStart + k) k) pb)
      (new_array (permCapacity s * newDegree)) in
  let s := set_permBuffer s pb in
  let s := set_trieFreePtr s 0 in
  let s := fst (_allocateNode s) in
  for_range 0 totalPerms (fun id s =>
    let permOffset := id * newDegree in
    let '(s1, currNodePtr) :=
      trie_walk (fun i => rd (permBuffer s) (permOffset + i)) newDegree s in
    set_trieBuffer s1 (wr (trieBuffer s1) currNodePtr id)) s.

(** [register] *)
Definition register (s : PermutationRepository) (rawPerm : list Z)
  : PermutationRepository * Z :=
  let inputLen := len rawPerm in
  let s := if decide (inputLen > globalDegree s) then _upgradeDegree s inputLen else s in
  let s := if decide (count s >= permCapacity s) then _expandPermCapacity s else s in
  let n := globalDegree s in
  let '(s, currNodePtr) :=
    trie_walk (fun i => if decide (i < inputLen) then rd rawPerm i else i) n s in
  let id := rd (trieBuffer s) currNodePtr in
  if decide (id = -1) then
    let id := count s in
    let s := set_count s (id + 1) in
    let s := set_trieBuffer s (wr (trieBuffer s) currNodePtr id) in
    (_writeToPermBuffer s id rawPerm inputLen, id)
  else (s, id).

(** [get] *)
Definition get (s : PermutationRepository) (id : Z) : list Z :=
  let start := id * globalDegree s in
  subarray (permBuffer s) start (start + globalDegree s).

(** The constructor. *)
Definition new_repo (initialDegree initialPermCapacity : Z) : PermutationRepository :=
  let s := mkRepo initialDegree 0 initialPermCapacity
             (new_array (initialPermCapacity * initialDegree))
             (initialDegree + 1) (new_array INITIAL_TRIE_SLOTS) 0 0 in
  let s := fst (_allocateNode s) in
  let '(s, id) := register s [] in
  set_identity s id.

(** [inverse] *)
Definition inverse (s : PermutationRepository) (id : Z) : PermutationRepository * Z :=
  if decide (id = identity s) then (s, identity s) else
  let N := globalDegree s in
  let buf := permBuffer s in
  let off := id * N in
  let res := for_range 0 N (fun k res => wr res (rd buf (off + k)) k) (new_array N) in
  register s res.

(** [multiply] *)
Definition multiply (s : PermutationRepository) (idA idB : Z) : PermutationRepository * Z :=
  if decide (idA = identity s) then (s, idB) else
  if decide (idB = identity s) then (s, idA) else
  let N := globalDegree s in
  let buf := permBuffer s in
  let offA := idA * N in
  let offB := idB * N in
  let res := for_range 0 N (fun k res =>
               let valB := rd buf (offB + k) in
               wr res k (rd buf (offA + valB))) (new_array N) in
  register s res.

(** The default store of the module ([globalRepo]). *)
Definition globalRepo0 : PermutationRepository := new_repo 4 1024.

(** A store with the transpositions [(1 2)] and [(2 3)] under IDs 1 and 2. *)
Definition two_swaps : PermutationRepository :=
  fst (register (fst (register globalRepo0 [1; 0])) [0; 2; 1]).

Definition run_registers (s : PermutationRepository) (ps : list (list Z))
  : PermutationRepository * list Z :=
  fold_left (fun '(s, ids) p => let '(s', id) := register s p in (s', ids ++ [id]))
            ps (s, []).

Example register_s3 :
  snd (run_registers globalRepo0
         [[0;1;2]; [1;2;0]; [2;0;1]; [0;2;1]; [2;1;0]; [1;0;2]; [1;2;0;3]; [1;0]; [0;1;2;3;4]; [4;3;2;1;0]; [1;0]])
  = [0; 1; 2; 3; 4; 5; 1; 5; 0; 6; 5].
Proof. vm_compute. reflexivity. Qed.

(** [conjugate]: [g * h * g^-1]. *)
Definition conjugate (s : PermutationRepository) (g h : Z) : PermutationRepository * Z :=
  let '(s, gInv) := inverse s g in
  let '(s, gh) := multiply s g h in
  multiply s gh gInv.

(** [commutator]: [a^-1 * b^-1 * a * b]. *)
Definition commutator (s : PermutationRepository) (idA idB : Z) : PermutationRepository * Z :=
  let '(s, invA) := inverse s idA in
  let '(s, invB) := inverse s idB in
  let '(s, step1) := multiply s invA invB in
  let '(s, step2) := multiply s step1 idA in
  multiply s step2 idB.

(** ** [while] loops

    [while (cond) body] run for at most [fuel] iterations; [None] when the
    condition still holds after them.  Every use below comes with a lemma
    that the fuel it passes is enough. *)
Fixpoint while_fuel {St : Type} (fuel : nat) (cond : St → bool) (body : St → St) (st : St)
  : option St :=
  if cond st then
    match fuel with
    | O => None
    | S fuel => while_fuel fuel cond body (body st)
    end
  else Some st.

(** ** Sorted integer sets ([IntSetUtils]) *)

Module IntSetUtils.

(** [x >>> 1]: the operand is taken as an unsigned 32-bit integer. *)
Definition ushr1 (x : Z) : Z := Z.shiftr (x mod 2 ^ 32) 1.

(** The loop of [has]: [Some b] when the search returns [b]. *)
Fixpoint has_loop (fuel : nat) (sortedArr : list Z) (value left right : Z) : option bool :=
  if decide (left ≤ right) then
    match fuel with
    | O => None
    | S fuel =>
        let mid := ushr1 (left + right) in
        let v := rd sortedArr mid in
        if decide (v = value) then Some true
        else if decide (v < value) then has_loop fuel sortedArr value (mid + 1) right
        else has_loop fuel sortedArr value left (mid - 1)
    end
  else Some false.

(** [IntSetUtils.has]; the search interval shrinks in every iteration, so
    [length sortedArr] iterations are enough ([has_loop_fuel]). *)
Definition has (sortedArr : list Z) (value : Z) : bool :=
  default false (has_loop (length sortedArr) sortedArr value 0 (len sortedArr - 1)).

(** [while (i < srcLen) res[k++] = src[i++];] *)
Definition copy_rest (src : list Z) (srcLen : Z) (st : Z * Z * list Z)
  : option (Z * Z * list Z) :=
  while_fuel (length src)
    (fun '(i, k, res) => bool_decide (i < srcLen))
    (fun '(i, k, res) => (i + 1, k + 1, wr res k (rd src i))) st.

(** [IntSetUtils.union] *)
Definition union (arrA arrB : list Z) : list Z :=
  let lenA := len arrA in
  let lenB := len arrB in
  if decide (lenA = 0) then arrB else
  if decide (lenB = 0) then arrA else
  let res := new_array (lenA + lenB) in
  match while_fuel (length arrA + length arrB)
          (fun '(i, j, k, res) => bool_decide (i < lenA) && bool_decide (j < lenB))
          (fun '(i, j, k, res) =>
             let va := rd arrA i in
             let vb := rd arrB j in
             if decide (va < vb) then (i + 1, j, k + 1, wr res k va)
             else if decide (va > vb) then (i, j + 1, k + 1, wr res k vb)
             else (i + 1, j + 1, k + 1, wr res k va))
          (0, 0, 0, res) with
  | None => []
  | Some (i, j, k, res) =>
      match copy_rest arrA lenA (i, k, res) with
      | None => []
      | Some (i, k, res) =>
          match copy_rest arrB lenB (j, k, res) with
          | None => []
          | Some (j, k, res) => subarray res 0 k
          end
      end
  end.

(** [IntSetUtils.intersection] *)
Definition intersection (arrA arrB : list Z) : list Z :=
  let lenA := len arrA in
  let lenB := len arrB in
  let res := new_array (if decide (lenA < lenB) then lenA else lenB) in
  match while_fuel (length arrA + length arrB)
          (fun '(i, j, k, res) => bool_decide (i < lenA) && bool_decide (j < lenB))
          (fun '(i, j, k, res) =>
             let va := rd arrA i in
             let vb := rd arrB j in
             if decide (va < vb) then (i + 1, j, k, res)
             else if decide (va > vb) then (i, j + 1, k, res)
             else (i + 1, j + 1, k + 1, wr res k va))
          (0, 0, 0, res) with
  | None => []
  | Some (i, j, k, res) => subarray res 0 k
  end.

(** [IntSetUtils.difference] *)
Definition difference (arrA arrB : list Z) : list Z :=
  let lenA := len arrA in
  let lenB := len arrB in
  let res := new_array lenA in
  match while_fuel (length arrA + length arrB)
          (fun '(i, j, k, res) => bool_decide (i < lenA) && bool_decide (j < lenB))
          (fun '(i, j, k, res) =>
             let va := rd arrA i in
             let vb := rd arrB j in
             if decide (va < vb) then (i + 1, j, k + 1, wr res k va)
             else if decide (va > vb) then (i, j + 1, k, res)
             else (i + 1, j + 1, k, res))
          (0, 0, 0, res) with
  | None => []
  | Some (i, j, k, res) =>
      match copy_rest arrA lenA (i, k, res) with
      | None => []
      | Some (i, k, res) => subarray res 0 k
      end
  end.

(** [rawArr.sort()] of an [Int32Array]: ascending numeric order. *)
Definition array_sort (rawArr : list Z) : list Z := merge_sort Z.le rawArr.

(** The body of [IntSetUtils.sortAndUnique] on the array it is given: the
    array after the call (sorted, then compacted in place) and the length
    [k] of the view it returns. *)
Definition sortAndUnique_inplace (rawArr : list Z) : list Z * Z :=
  if decide (len rawArr ≤ 1) then (rawArr, len rawArr) else
  let rawArr := array_sort rawArr in
  for_range 0 (len rawArr) (fun i '(rawArr, k) =>
    if decide (i = 0 ∨ rd rawArr i ≠ rd rawArr (i - 1))
    then (wr rawArr k (rd rawArr i), k + 1)
    else (rawArr, k)) (rawArr, 0).

(** [IntSetUtils.sortAndUnique]: the view [rawArr.subarray(0, k)]. *)
Definition sortAndUnique (rawArr : list Z) : list Z :=
  let '(rawArr, k) := sortAndUnique_inplace rawArr in subarray rawArr 0 k.

End IntSetUtils.

Example union_tests :
  let union := IntSetUtils.union in
  let intersection := IntSetUtils.intersection in
  let difference := IntSetUtils.difference in
  let sortAndUnique := IntSetUtils.sortAndUnique in
  let has := IntSetUtils.has in
  union [1; 3] [2; 4] = [1; 2; 3; 4] ∧ union [1; 2; 3] [2; 3; 4] = [1; 2; 3; 4] ∧
  union [] [5] = [5] ∧ intersection [1; 2; 3] [2; 3; 4] = [2; 3] ∧
  difference [1; 2; 3] [2; 3; 4] = [1] ∧ difference [1; 2] [] = [1; 2] ∧
  sortAndUnique [3; 1; 2; 1; 3; 5] = [1; 2; 3; 5] ∧ sortAndUnique [2; 2; 2] = [2] ∧
  has [1; 5; 10; 20] 10 = true ∧ has [1; 5; 10] 6 = false ∧ has [] 1 = false.
Proof. vm_compute. repeat split. Qed.

(** ** Permutation sets ([PermutationSet]): construction, set operations
    and comparisons *)

Record PermutationSet := mkPermutationSet {
  _ids : list Z;
  isGroup : bool
}.

(** The constructor: the IDs are kept as given when the caller certifies
    them, and normalised by [sortAndUnique] otherwise. *)
Definition new_PermutationSet (ids : list Z) (isTrustedSortedUnique isGroup : bool)
  : PermutationSet :=
  mkPermutationSet
    (if isTrustedSortedUnique then ids else IntSetUtils.sortAndUnique ids) isGroup.

Module PermSet.

(** [get size] *)
Definition size (this : PermutationSet) : Z := len (_ids this).

(** [get(index)] *)
Definition get (this : PermutationSet) (index : Z) : Z := rd (_ids this) index.

(** [slice(start, end)] *)
Definition slice (this : PermutationSet) (start end_ : Z) : PermutationSet :=
  new_PermutationSet (subarray (_ids this) start end_) true false.

(** [union] *)
Definition union (this other : PermutationSet) : PermutationSet :=
  new_PermutationSet (IntSetUtils.union (_ids this) (_ids other)) true false.

(** [intersection] *)
Definition intersection (this other : PermutationSet) : PermutationSet :=
  let resultIsGroup := isGroup this && isGroup other in
  new_PermutationSet (IntSetUtils.intersection (_ids this) (_ids other)) true resultIsGroup.

(** [difference] *)
Definition difference (this other : PermutationSet) : PermutationSet :=
  new_PermutationSet (IntSetUtils.difference (_ids this) (_ids other)) true false.

(** [isSuperSetOf]: the loop returns [false] at the first ID of [other]
    that [has] does not find. *)
Definition isSuperSetOf (this other : PermutationSet) : bool :=
  if decide (size this < size other) then false else
  let A := _ids this in
  let B := _ids other in
  forallb (fun i => IntSetUtils.has A (rd B i)) (seqZ 0 (len B)).

(** [equals]: [this === other] is an identity test on objects; two
    references to one object hold the same IDs, for which the code after
    it answers [true] as well. *)
Definition equals (this other : PermutationSet) : bool :=
  if decide (size this ≠ size other) then false else
  let A := _ids this in
  let B := _ids other in
  forallb (fun i => bool_decide (rd A i = rd B i)) (seqZ 0 (len A)).

(** [static identity()] *)
Definition identity (globalRepo : PermutationRepository) : PermutationSet :=
  new_PermutationSet [identity globalRepo] true true.

(** [_ensureTempBuffer], on the module-level scratch array
    [_tempCompositionBuffer]. *)
Definition _ensureTempBuffer (tempBuf : list Z) (requiredSize : Z) : list Z :=
  if decide (len tempBuf < requiredSize)
  then new_array (Z.max requiredSize (len tempBuf * 2))
  else tempBuf.

(** The state of the loops of [multiply] and [inverse].  [permBuffer] is
    the local of that name: the array object that was [repo.permBuffer]
    when the method started.  As long as [register] has not replaced the
    buffer of the store the two are one object ([shared]) and the local sees
    every image [register] writes; afterwards the local keeps the contents
    it had. *)
Record loop_state := mkLoopState {
  ls_repo : PermutationRepository;
  ls_permBuffer : list Z;
  ls_shared : bool;
  ls_tempBuf : list Z;
  ls_resultIds : list Z;
  ls_ptr : Z
}.

(** [resultIds[index] = repo.register(tempBuf.subarray(0, N))]; [register]
    replaces the buffer of the store exactly when it grows the capacity or
    the degree. *)
Definition register_result (N : Z) (st : loop_state) (tempBuf : list Z) (index ptr' : Z)
  : loop_state :=
  let s := ls_repo st in
  let '(s', id) := register s (subarray tempBuf 0 N) in
  let shared' := ls_shared st && (permCapacity s' =? permCapacity s)
                   && (globalDegree s' =? globalDegree s) in
  mkLoopState s' (if shared' then permBuffer s' else ls_permBuffer st) shared'
    tempBuf (wr (ls_resultIds st) index id) ptr'.

(** The innermost block of [multiply], which the source writes out in both
    of its branches: compose [idA] after [idB] into [tempBuf], intern the
    result and store its ID at [ptr++]. *)
Definition multiply_pair (N idA idB : Z) (st : loop_state) : loop_state :=
  let permBuffer := ls_permBuffer st in
  let offsetA := idA * N in
  let offsetB := idB * N in
  let tempBuf := for_range 0 N (fun k tempBuf =>
                   let valB := rd permBuffer (offsetB + k) in
                   wr tempBuf k (rd permBuffer (offsetA + valB))) (ls_tempBuf st) in
  register_result N st tempBuf (ls_ptr st) (ls_ptr st + 1).

(** [multiply(other)]: the set of all products, from the store and the
    scratch array to the new store, the scratch array and the result. *)
Definition multiply (globalRepo : PermutationRepository) (_tempCompositionBuffer : list Z)
    (this other : PermutationSet)
  : PermutationRepository * list Z * PermutationSet :=
  let sizeA := len (_ids this) in
  let sizeB := len (_ids other) in
  if decide (sizeA = 0 ∨ sizeB = 0)
  then (globalRepo, _tempCompositionBuffer, new_PermutationSet (new_array 0) true false)
  else
    let N := globalDegree globalRepo in
    let tempBuf := _ensureTempBuffer _tempCompositionBuffer N in
    let idsA := _ids this in
    let idsB := _ids other in
    let st := mkLoopState globalRepo (permBuffer globalRepo) true tempBuf
                (new_array (sizeA * sizeB)) 0 in
    let st :=
      if decide (sizeA ≤ sizeB) then
        for_range 0 sizeA (fun i st =>
          let idA := rd idsA i in
          for_range 0 sizeB (fun j st =>
            let idB := rd idsB j in
            multiply_pair N idA idB st) st) st
      else
        for_range 0 sizeB (fun j st =>
          let idB := rd idsB j in
          for_range 0 sizeA (fun i st =>
            let idA := rd idsA i in
            multiply_pair N idA idB st) st) st in
    (ls_repo st, ls_tempBuf st, new_PermutationSet (ls_resultIds st) false false).

(** [inverse()]: the scratch array is not cleared between the elements,
    [tempBuf[val] = k] overwrites what the previous inversion left. *)
Definition inverse (globalRepo : PermutationRepository) (_tempCompositionBuffer : list Z)
    (this : PermutationSet)
  : PermutationRepository * list Z * PermutationSet :=
  let size := len (_ids this) in
  if decide (size = 0)
  then (globalRepo, _tempCompositionBuffer,
        new_PermutationSet (new_array 0) true (isGroup this))
  else
    let N := globalDegree globalRepo in
    let tempBuf := _ensureTempBuffer _tempCompositionBuffer N in
    let ids := _ids this in
    let st := mkLoopState globalRepo (permBuffer globalRepo) true tempBuf
                (new_array size) 0 in
    let st :=
      for_range 0 size (fun i st =>
        let permBuffer := ls_permBuffer st in
        let offset := rd ids i * N in
        let tempBuf := for_range 0 N (fun k tempBuf =>
                         let val := rd permBuffer (offset + k) in
                         wr tempBuf val k) (ls_tempBuf st) in
        register_result N st tempBuf i (ls_ptr st)) st in
    (ls_repo st, ls_tempBuf st, new_PermutationSet (ls_resultIds st) false (isGroup this)).

(** [isAbelian]: every [return false] of the three nested loops is a
    failed test of the corresponding [forallb]. *)
Definition isAbelian (globalRepo : PermutationRepository) (this : PermutationSet) : bool :=
  if decide (size this ≤ 1) then true else
  let N := globalDegree globalRepo in
  let permBuffer := permBuffer globalRepo in
  let ids := _ids this in
  let count := len ids in
  forallb (fun i =>
    let idA := rd ids i in
    let offsetA := idA * N in
    forallb (fun j =>
      let idB := rd ids j in
      let offsetB := idB * N in
      forallb (fun k =>
        let b_val := rd permBuffer (offsetB + k) in
        let ab_val := rd permBuffer (offsetA + b_val) in
        let a_val := rd permBuffer (offsetA + k) in
        let ba_val := rd permBuffer (offsetB + a_val) in
        bool_decide (ab_val = ba_val)) (seqZ 0 N))
      (seqZ (i + 1) (count - (i + 1))))
    (seqZ 0 count).

End PermSet.

Example set_product_tests :
  let s := fst (register (fst (register globalRepo0 [1; 0])) [0; 2; 1]) in
  let S := new_PermutationSet [1; 2] true false in
  let '(s', scratch, SS) := PermSet.multiply s (new_array 8) S S in
  let '(s'', scratch', inv) := PermSet.inverse s' [5; 5; 5; 5; 5] SS in
  _ids SS = [0; 3; 4] ∧ get s' 3 = [1; 2; 0; 3] ∧ get s' 4 = [2; 0; 1; 3] ∧
  _ids inv = [0; 3; 4] ∧ count s'' = 5 ∧ scratch' = [1; 2; 0; 3; 5] ∧
  _ids (snd (PermSet.multiply s [] S (new_PermutationSet [] true false))) = [].
Proof. vm_compute. repeat split. Qed.

(** ** Number helpers ([group-private-utils.js])

    The arguments are JavaScript numbers holding integers; [%] on them is
    the remainder with the sign of the dividend, [Z.rem].  Below 2^53 the
    arithmetic of the code is exact, which is what [Z] gives. *)

(** How a call ends: with a value, with an exception, or not within the
    fuel. *)
Inductive outcome (A : Type) : Type :=
  | Returns (a : A)
  | Throws (msg : string)
  | OutOfFuel.
Arguments Returns {A} a.
Arguments Throws {A} msg.
Arguments OutOfFuel {A}.

(** The loop of [_isSmallPrime]: [for (let i = 5; i * i <= n; i += 6)]. *)
Fixpoint _isSmallPrime_loop (fuel : nat) (n i : Z) : option bool :=
  if decide (i * i ≤ n) then
    match fuel with
    | O => None
    | S fuel =>
        if decide (Z.rem n i = 0 ∨ Z.rem n (i + 2) = 0) then Some false
        else _isSmallPrime_loop fuel n (i + 6)
    end
  else Some true.

(** [_isSmallPrime]; [i] grows in every iteration and [i * i <= n], so [n]
    iterations are enough. *)
Definition _isSmallPrime (n : Z) : bool :=
  if decide (n ≤ 1) then false else
  if decide (n ≤ 3) then true else
  if decide (Z.rem n 2 = 0 ∨ Z.rem n 3 = 0) then false else
  default false (_isSmallPrime_loop (Z.to_nat n) n 5).

(** [_gcd]: [|b|] shrinks in every iteration. *)
Definition _gcd (a b : Z) : Z :=
  match while_fuel (Z.abs_nat b)
          (fun '(a, b) => negb (b =? 0))
          (fun '(a, b) => let t := b in (t, Z.rem a b)) (a, b) with
  | Some (a, _) => a
  | None => 0
  end.

(** [_lcm]; the quotient is exact, [_gcd a b] divides [a * b]. *)
Definition _lcm (a b : Z) : Z :=
  if decide (a = 0 ∨ b = 0) then 0 else Z.abs (Z.quot (a * b) (_gcd a b)).

(** [_isPowerOfP], on BigInts: [%] is [Z.rem], [/] is [Z.quot], and either
    throws a [RangeError] for a zero divisor. *)
Fixpoint _isPowerOfP (fuel : nat) (val pBig : Z) : outcome bool :=
  if decide (val > 1) then
    match fuel with
    | O => OutOfFuel
    | S fuel =>
        if decide (pBig = 0) then Throws "RangeError: Division by zero"
        else if decide (Z.rem val pBig ≠ 0) then Returns false
        else _isPowerOfP fuel (Z.quot val pBig) pBig
    end
  else Returns true.

Example number_helper_tests :
  _gcd 12 18 = 6 ∧ _gcd 0 5 = 5 ∧ _gcd 5 0 = 5 ∧ _lcm 4 6 = 12 ∧ _lcm 0 3 = 0 ∧
  _isSmallPrime 97 = true ∧ _isSmallPrime 91 = false ∧ _isSmallPrime 25 = false ∧
  _isSmallPrime 2 = true ∧ _isSmallPrime 1 = false ∧
  _isPowerOfP 10 8 2 = Returns true ∧ _isPowerOfP 10 12 2 = Returns false ∧
  _isPowerOfP 10 1 2 = Returns true ∧ _isPowerOfP 10 4 1 = OutOfFuel.
Proof. vm_compute. repeat split. Qed.

(** [_pow] (group-private-utils.js), on the state [s] of [globalRepo]: binary
    exponentiation.  [e] at least halves in every iteration, so [exp]
    iterations are enough; [Math.floor(e / 2)] is [e / 2]. *)
Definition _pow (s : PermutationRepository) (gId exp : Z) : PermutationRepository * Z :=
  if decide (exp = 0) then (s, identity s)
  else if decide (exp = 1) then (s, gId)
  else
    match while_fuel (Z.to_nat exp)
            (fun '(s, base, result, e) => 0 <? e)
            (fun '(s, base, result, e) =>
               let '(s, result) :=
                 if decide (Z.rem e 2 = 1) then multiply s result base else (s, result) in
               let '(s, base) := multiply s base base in
               (s, base, result, e / 2))
            (s, gId, identity s, exp) with
    | Some (s, _, result, _) => (s, result)
    | None => (s, identity s)
    end.

Example _pow_tests :
  let s := fst (register globalRepo0 [1; 2; 3; 0]) in
  (let '(s', c) := _pow s 1 3 in get s' c) = [3; 0; 1; 2] ∧
  snd (_pow s 1 4) = 0 ∧ snd (_pow s 1 1) = 1 ∧ snd (_pow s 1 (-2)) = 0.
Proof. vm_compute. done. Qed.

(** The inner loop of [calcApproxOrder]: follow the cycle of [i], marking
    its points in the [Uint8Array] [visited].  Every
    iteration marks a point that was not marked, so [perm.length]
    iterations are enough on an image. *)
Definition walk_cycle (perm visited : list Z) (i : Z) : option (list Z * Z * Z) :=
  while_fuel (length perm)
    (fun '(visited, curr, len) => rd visited curr =? 0)
    (fun '(visited, curr, len) => (wr visited curr 1, rd perm curr, len + 1))
    (visited, i, 0).

(** [calcApproxOrder]; the state of the [for] loop carries the [return]
    taken inside it, if any. *)
Definition calcApproxOrder (perm : list Z) (limit : Z) : outcome Z :=
  let n := len perm in
  let visited := new_array n in
  let '(_, lcm, result) :=
    for_range 0 n (fun i '(visited, lcm, result) =>
      match result with
      | Some _ => (visited, lcm, result)
      | None =>
          if negb (rd visited i =? 0) then (visited, lcm, None)
          else
            match walk_cycle perm visited i with
            | None => (visited, lcm, Some OutOfFuel)
            | Some (visited, _, len) =>
                if 0 <? len then
                  let lcm := _lcm lcm len in
                  if limit <? lcm then (visited, lcm, Some (Returns limit))
                  else (visited, lcm, None)
                else (visited, lcm, None)
            end
      end) (visited, 1, None) in
  match result with
  | Some r => r
  | None => Returns lcm
  end.

Example calcApproxOrder_tests :
  calcApproxOrder [1; 2; 0; 4; 3] 60 = Returns 6 ∧
  calcApproxOrder [1; 2; 0; 4; 3] 5 = Returns 5 ∧
  calcApproxOrder [0; 1; 2] 60 = Returns 1 ∧ calcApproxOrder [] 60 = Returns 1.
Proof. vm_compute. repeat split. Qed.

(** ** Typed arrays: reads after writes *)

Lemma len_nonneg a : 0 ≤ len a.
Proof. unfold len. lia. Qed.

Lemma len_wr a i v : len (wr a i v) = len a.
Proof. unfold len, wr. case_decide; [rewrite length_insert|]; done. Qed.

Lemma length_wr a i v : length (wr a i v) = length a.
Proof. unfold wr. case_decide; [rewrite length_insert|]; done. Qed.

Lemma rd_wr_eq a i v : 0 ≤ i < len a → rd (wr a i v) i = v.
Proof.
  unfold rd, wr, len. intros H. rewrite !decide_True by lia.
  rewrite list_lookup_insert_eq by lia. done.
Qed.

Lemma rd_wr_ne a i j v : i ≠ j → rd (wr a i v) j = rd a j.
Proof.
  unfold rd, wr. intros H. repeat case_decide; try done.
  rewrite list_lookup_insert_ne by lia. done.
Qed.

Lemma rd_wr a i j v :
  rd (wr a i v) j = if decide (i = j ∧ 0 ≤ i < len a) then v else rd a j.
Proof.
  case_decide as H.
  - destruct H as [-> H]. by apply rd_wr_eq.
  - destruct (decide (i = j)) as [->|]; [|by apply rd_wr_ne].
    unfold rd, wr, len in *. case_decide; [|done].
    rewrite list_insert_ge by lia. done.
Qed.

Lemma rd_app_l a b i : i < len a → rd (a ++ b) i = rd a i.
Proof.
  unfold rd, len. intros H. case_decide; [|done].
  rewrite lookup_app_l by lia. done.
Qed.

Lemma len_app a b : len (a ++ b) = len a + len b.
Proof. unfold len. rewrite length_app. lia. Qed.

Lemma len_new_array n : 0 ≤ n → len (new_array n) = n.
Proof. unfold len, new_array. rewrite length_replicate. lia. Qed.

Lemma rd_new_array n i : rd (new_array n) i = 0.
Proof.
  unfold rd, new_array. case_decide; [|done].
  destruct (replicate _ _ !! _) eqn:E; [|done].
  apply lookup_replicate in E as [-> _]. done.
Qed.

Lemma rd_lookup a i x : a !! i = Some x → rd a (Z.of_nat i) = x.
Proof. unfold rd. intros H. rewrite decide_True by lia. rewrite Nat2Z.id, H. done. Qed.

Lemma lookup_rd a i : (i < length a)%nat → a !! i = Some (rd a (Z.of_nat i)).
Proof.
  intros H. destruct (lookup_lt_is_Some_2 a i H) as [x Hx].
  rewrite Hx. f_equal. symmetry. by apply rd_lookup.
Qed.

(** Two arrays of one length with the same reads are equal. *)
Lemma array_ext a b :
  length a = length b → (∀ i, 0 ≤ i < len a → rd a i = rd b i) → a = b.
Proof.
  intros Hl H. apply list_eq. intros i.
  destruct (decide (i < length a)%nat) as [Hi|Hi].
  - rewrite !lookup_rd by lia. f_equal. apply H. unfold len. lia.
  - rewrite !(proj2 (lookup_ge_None _ _)) by lia. done.
Qed.

Lemma length_subarray a lo hi :
  0 ≤ lo → lo ≤ hi → hi ≤ len a → length (subarray a lo hi) = Z.to_nat (hi - lo).
Proof.
  unfold subarray, len. intros. rewrite length_take, length_drop. lia.
Qed.

Lemma rd_subarray a lo hi i :
  0 ≤ lo → 0 ≤ i < hi - lo → rd (subarray a lo hi) i = rd a (lo + i).
Proof.
  unfold subarray, rd. intros. rewrite !decide_True by lia.
  rewrite lookup_take_lt by lia. rewrite lookup_drop.
  replace (Z.to_nat (lo + i)) with (Z.to_nat lo + Z.to_nat i)%nat by lia. done.
Qed.

(** ** Loops *)

Lemma for_range_nil {St} lo hi (body : Z → St → St) st :
  hi ≤ lo → for_range lo hi body st = st.
Proof. intros. unfold for_range. rewrite seqZ_nil by lia. done. Qed.

Lemma for_range_first {St} lo hi (body : Z → St → St) st :
  lo < hi → for_range lo hi body st = for_range (lo + 1) hi body (body lo st).
Proof.
  intros. unfold for_range. rewrite seqZ_cons by lia. simpl.
  do 2 f_equal; lia.
Qed.

Lemma for_range_last {St} lo hi (body : Z → St → St) st :
  lo ≤ hi → for_range lo (hi + 1) body st = body hi (for_range lo hi body st).
Proof.
  intros. unfold for_range.
  replace (hi + 1 - lo) with ((hi - lo) + 1) by lia.
  rewrite seqZ_app by lia. rewrite fold_left_app.
  rewrite seqZ_cons, seqZ_nil by lia. simpl. f_equal. lia.
Qed.

(** Loop invariants: [P i st] holds before iteration [i]. *)
Lemma for_range_ind {St} (P : Z → St → Prop) lo hi (body : Z → St → St) st :
  lo ≤ hi →
  P lo st →
  (∀ i s, lo ≤ i < hi → P i s → P (i + 1) (body i s)) →
  P hi (for_range lo hi body st).
Proof.
  intros Hle H0 Hstep.
  assert (∀ n : nat, lo + Z.of_nat n ≤ hi →
            P (lo + Z.of_nat n) (for_range lo (lo + Z.of_nat n) body st)) as H.
  { induction n as [|n IH]; intros Hn.
    - rewrite for_range_nil by lia. by replace (lo + Z.of_nat 0) with lo by lia.
    - replace (lo + Z.of_nat (S n)) with (lo + Z.of_nat n + 1) by lia.
      rewrite for_range_last by lia. apply Hstep; [lia|]. apply IH. lia. }
  specialize (H (Z.to_nat (hi - lo))).
  replace (lo + Z.of_nat (Z.to_nat (hi - lo))) with hi in H by lia. apply H. lia.
Qed.


(** A loop that stores [f i] at [off + i]. *)
Lemma length_write_loop lo hi off (f : Z → Z) a :
  length (for_range lo hi (fun i b => wr b (off + i) (f i)) a) = length a.
Proof.
  destruct (decide (lo ≤ hi)).
  - apply (for_range_ind (fun _ b => length b = length a)); [done..|].
    intros i s _ Hs. by rewrite length_wr.
  - by rewrite for_range_nil by lia.
Qed.

Lemma len_write_loop lo hi off (f : Z → Z) a :
  len (for_range lo hi (fun i b => wr b (off + i) (f i)) a) = len a.
Proof. unfold len. by rewrite length_write_loop. Qed.

Lemma rd_write_loop lo hi off (f : Z → Z) a j :
  rd (for_range lo hi (fun i b => wr b (off + i) (f i)) a) j =
  if decide (off + lo ≤ j < off + hi ∧ 0 ≤ j < len a) then f (j - off) else rd a j.
Proof.
  destruct (decide (lo ≤ hi)) as [Hle|Hle].
  2:{ rewrite for_range_nil by lia. rewrite decide_False by lia. done. }
  refine (proj2 (for_range_ind (fun i b =>
    len b = len a ∧
    rd b j = if decide (off + lo ≤ j < off + i ∧ 0 ≤ j < len a) then f (j - off) else rd a j)
    lo hi _ a Hle _ _)).
  - split; [done|]. rewrite decide_False by lia. done.
  - intros i s Hi [Hl Hs]. split; [by rewrite len_wr|].
    rewrite rd_wr, Hl, Hs. repeat case_decide; try done; try lia.
    f_equal. lia.
Qed.

(** ** The trie arena

    The walk of [register] only reads and writes [trieBuffer] and
    [trieFreePtr]; [t_alloc], [t_step] and [t_walk] are the same code on
    that pair, for a node size [N + 1]. *)

Section trie.
Variable N : Z.

Definition t_alloc (buf : list Z) (F : Z) : list Z * Z :=
  let buf1 := if decide (F + (N + 1) > len buf)
              then buf ++ new_array (len buf * 2 - len buf) else buf in
  (for_range 0 (N + 1) (fun i b => wr b (F + i) (-1)) buf1, F + (N + 1)).

Definition t_step (v : Z) (st : list Z * Z * Z) : list Z * Z * Z :=
  let '(buf, F, p) := st in
  let c := rd buf (p + 1 + v) in
  if decide (c = -1) then
    let '(buf1, F1) := t_alloc buf F in (wr buf1 (p + 1 + v) F, F1, F)
  else (buf, F, c).

Fixpoint t_walk (vs : list Z) (st : list Z * Z * Z) : list Z * Z * Z :=
  match vs with
  | [] => st
  | v :: vs => t_walk vs (t_step v st)
  end.

(** Following existing edges only. *)
Fixpoint lookup_path (buf : list Z) (p : Z) (vs : list Z) : option Z :=
  match vs with
  | [] => Some p
  | v :: vs =>
      let c := rd buf (p + 1 + v) in
      if decide (c = -1) then None else lookup_path buf c vs
  end.

Definition is_node (F p : Z) : Prop := 0 ≤ p < F ∧ (N + 1 | p).

Definition points (vs : list Z) : Prop := Forall (fun v => 0 ≤ v < N) vs.

(** The arena holds whole nodes below the free pointer; an edge is [-1]
    or leads to a later node; no two edges lead to one node. *)
Record trie_ok (buf : list Z) (F : Z) : Prop := {
  tk_deg : 0 ≤ N;
  tk_root : N + 1 ≤ F;
  tk_div : (N + 1 | F);
  tk_len : F ≤ len buf;
  tk_child : ∀ p v, is_node F p → 0 ≤ v < N →
    rd buf (p + 1 + v) = -1 ∨ (is_node F (rd buf (p + 1 + v)) ∧ p < rd buf (p + 1 + v));
  tk_inj : ∀ p v p' v', is_node F p → is_node F p' → 0 ≤ v < N → 0 ≤ v' < N →
    rd buf (p + 1 + v) = rd buf (p' + 1 + v') → rd buf (p + 1 + v) ≠ -1 →
    p = p' ∧ v = v'
}.

(** What a walk may change: edges that were [-1] now lead to nodes
    allocated since; the new nodes carry no ID. *)
Record ext (buf : list Z) (F : Z) (buf' : list Z) (F' : Z) : Prop := {
  ex_F : F ≤ F';
  ex_slot : ∀ j, 0 ≤ j < F →
    rd buf' j = rd buf j ∨ (rd buf j = -1 ∧ F ≤ rd buf' j ∧ ¬ (N + 1 | j));
  ex_new : ∀ p, F ≤ p < F' → (N + 1 | p) → rd buf' p = -1
}.

Lemma node_slot F p v : 0 ≤ N → (N + 1 | F) → is_node F p → 0 ≤ v < N →
  0 ≤ p + 1 + v < F ∧ ¬ (N + 1 | p + 1 + v).
Proof.
  intros HN [kF HF] [Hp [k Hk]] Hv. subst p F.
  assert (0 ≤ k) by nia. assert (k + 1 ≤ kF) by nia. split.
  - nia.
  - intros [k' Hk'].
    assert (k' = k ∨ k' ≤ k - 1 ∨ k + 1 ≤ k') as [->|[?|?]] by lia; nia.
Qed.

Lemma node_next F p : 0 ≤ N → (N + 1 | F) → is_node F p → p + (N + 1) ≤ F.
Proof.
  intros HN [kF HF] [Hp [k Hk]]. subst p F.
  assert (k + 1 ≤ kF) by nia. nia.
Qed.

Lemma slot_inj F p v p' v' :
  0 ≤ N → is_node F p → is_node F p' → 0 ≤ v < N → 0 ≤ v' < N →
  p + 1 + v = p' + 1 + v' → p = p' ∧ v = v'.
Proof.
  intros HN [Hp [k Hk]] [Hp' [k' Hk']] Hv Hv' E. subst p p'.
  assert (k = k' ∨ k ≤ k' - 1 ∨ k' + 1 ≤ k) as [->|[?|?]] by lia; [lia|nia|nia].
Qed.

Lemma is_node_mono F F' p : F ≤ F' → is_node F p → is_node F' p.
Proof. unfold is_node. intros ? [? ?]. split; [lia|done]. Qed.

Lemma root_node buf F : trie_ok buf F → is_node F 0.
Proof.
  intros H. split; [|apply Z.divide_0_r].
  pose proof (tk_deg _ _ H). pose proof (tk_root _ _ H). lia.
Qed.

Lemma ext_refl buf F : ext buf F buf F.
Proof. split; [lia|auto|lia]. Qed.

Lemma ext_trans b1 F1 b2 F2 b3 F3 :
  0 ≤ F1 → ext b1 F1 b2 F2 → ext b2 F2 b3 F3 → ext b1 F1 b3 F3.
Proof.
  intros H0 [HF Hs Hn] [HF' Hs' Hn']. split; [lia| |].
  - intros j Hj.
    destruct (Hs j Hj) as [E|(E1 & E2 & E3)];
      (destruct (Hs' j) as [E'|(E1' & E2' & E3')]; [lia| |]).
    + left. congruence.
    + right. rewrite <- E. split_and!; [done|lia|done].
    + right. rewrite E'. done.
    + lia.
  - intros p Hp Hd. destruct (decide (p < F2)) as [Hlt|Hge].
    + destruct (Hs' p) as [E'|(_ & _ & E3')]; [lia| |done].
      rewrite E'. apply Hn; [lia|done].
    + apply Hn'; [lia|done].
Qed.

Lemma t_alloc_spec buf F :
  0 ≤ N → 0 ≤ F ≤ len buf → F + (N + 1) ≤ 2 * len buf →
  ∃ buf', t_alloc buf F = (buf', F + (N + 1)) ∧
    F + (N + 1) ≤ len buf' ∧
    (∀ j, 0 ≤ j < F → rd buf' j = rd buf j) ∧
    (∀ j, F ≤ j < F + (N + 1) → rd buf' j = -1).
Proof.
  intros HN HF Hlen2. unfold t_alloc. eexists. split; [reflexivity|].
  set (buf1 := if decide (F + (N + 1) > len buf) then _ else _).
  assert (F + (N + 1) ≤ len buf1 ∧ ∀ j, 0 ≤ j < F → rd buf1 j = rd buf j) as [Hl1 Hr1].
  { unfold buf1. case_decide.
    - rewrite len_app, len_new_array by lia. split; [lia|].
      intros j Hj. apply rd_app_l. lia.
    - split; [lia|done]. }
  split_and!.
  - unfold len in *. rewrite length_write_loop. done.
  - intros j Hj. rewrite rd_write_loop. rewrite decide_False by lia. auto.
  - intros j Hj. rewrite rd_write_loop. rewrite decide_True by lia. done.
Qed.

Lemma lookup_path_snoc buf p vs v :
  lookup_path buf p (vs ++ [v]) =
  match lookup_path buf p vs with
  | Some r => let c := rd buf (r + 1 + v) in if decide (c = -1) then None else Some c
  | None => None
  end.
Proof.
  revert p. induction vs as [|u vs IH]; intros p; simpl.
  - by case_decide.
  - case_decide; [done|]. apply IH.
Qed.

Lemma lookup_path_node buf F p vs q :
  trie_ok buf F → is_node F p → points vs →
  lookup_path buf p vs = Some q → is_node F q ∧ p ≤ q.
Proof.
  intros Hok. revert p. induction vs as [|v vs IH]; intros p Hp Hvs; simpl.
  - intros [= <-]. split; [done|lia].
  - apply Forall_cons in Hvs as [Hv Hvs]. case_decide as Hc; [done|].
    intros Hq. destruct (tk_child _ _ Hok p v Hp Hv) as [?|[Hn Hlt]]; [done|].
    destruct (IH _ Hn Hvs Hq). split; [done|lia].
Qed.

(** Two walks of one length that end in one node took the same edges. *)
Lemma lookup_path_inj buf F us vs q :
  trie_ok buf F → points us → points vs → length us = length vs →
  lookup_path buf 0 us = Some q → lookup_path buf 0 vs = Some q → us = vs.
Proof.
  intros Hok. revert vs q.
  induction us as [|u us IH] using rev_ind; intros vs q Hus Hvs Hlen.
  - destruct vs; [done|]. simpl in Hlen. lia.
  - destruct vs as [|v vs _] using rev_ind.
    { rewrite length_app in Hlen. simpl in Hlen. lia. }
    rewrite !length_app in Hlen. simpl in Hlen.
    apply Forall_app in Hus as [Hus Hu]. apply Forall_app in Hvs as [Hvs Hv].
    apply Forall_inv in Hu. apply Forall_inv in Hv.
    rewrite !lookup_path_snoc.
    destruct (lookup_path buf 0 us) as [r|] eqn:Er; [|done].
    destruct (lookup_path buf 0 vs) as [r'|] eqn:Er'; [|done].
    simpl. repeat case_decide; try done. intros [= E1] [= E2].
    destruct (lookup_path_node _ _ _ _ _ Hok (root_node _ _ Hok) Hus Er) as [Hr _].
    destruct (lookup_path_node _ _ _ _ _ Hok (root_node _ _ Hok) Hvs Er') as [Hr' _].
    assert (r = r' ∧ u = v) as [-> ->].
    { apply (tk_inj _ _ Hok); [done..|congruence|congruence]. }
    f_equal. apply (IH vs r'); [done|done|lia|done|done].
Qed.

Lemma ext_lookup buf F buf' F' p vs q :
  trie_ok buf F → ext buf F buf' F' → is_node F p → points vs →
  lookup_path buf p vs = Some q → lookup_path buf' p vs = Some q.
Proof.
  intros Hok Hext. revert p. induction vs as [|v vs IH]; intros p Hp Hvs; simpl; [done|].
  apply Forall_cons in Hvs as [Hv Hvs]. case_decide as Hc; [done|]. intros Hq.
  destruct (node_slot F p v (tk_deg _ _ Hok) (tk_div _ _ Hok) Hp Hv) as [Hj _].
  destruct (ex_slot _ _ _ _ Hext _ Hj) as [E|[E _]]; [|done].
  rewrite E. rewrite decide_False by done.
  destruct (tk_child _ _ Hok p v Hp Hv) as [?|[Hn _]]; [done|]. by apply IH.
Qed.

Lemma ext_lookup_inv buf F buf' F' p vs q :
  trie_ok buf F → trie_ok buf' F' → ext buf F buf' F' → is_node F p → points vs →
  lookup_path buf' p vs = Some q → q < F → lookup_path buf p vs = Some q.
Proof.
  intros Hok Hok' Hext. revert p. induction vs as [|v vs IH]; intros p Hp Hvs; simpl; [done|].
  apply Forall_cons in Hvs as [Hv Hvs]. case_decide as Hc; [done|]. intros Hq HqF.
  destruct (node_slot F p v (tk_deg _ _ Hok) (tk_div _ _ Hok) Hp Hv) as [Hj _].
  pose proof (is_node_mono F F' p (ex_F _ _ _ _ Hext) Hp) as Hp'.
  destruct (tk_child _ _ Hok' p v Hp' Hv) as [?|[Hn' _]]; [done|].
  destruct (lookup_path_node _ _ _ _ _ Hok' Hn' Hvs Hq) as [_ Hle].
  destruct (ex_slot _ _ _ _ Hext _ Hj) as [E|(_ & E & _)]; [|lia].
  rewrite <- E. rewrite decide_False by done.
  destruct (tk_child _ _ Hok p v Hp Hv) as [?|[Hn _]]; [congruence|].
  apply IH; [by rewrite E|done..].
Qed.

Lemma node_split F p : 0 ≤ N → 0 ≤ F → (N + 1 | F) →
  is_node (F + (N + 1)) p → is_node F p ∨ p = F.
Proof.
  intros HN HF [kF ->] [Hp [k ->]].
  destruct (decide (k * (N + 1) < kF * (N + 1))); [left; split; [lia|by exists k]|right].
  assert (k = kF ∨ k ≤ kF - 1 ∨ kF + 1 ≤ k) as [->|[?|?]] by lia; [done|nia|nia].
Qed.

Lemma t_step_spec buf F p v :
  trie_ok buf F → is_node F p → 0 ≤ v < N →
  ∃ buf' F' c, t_step v (buf, F, p) = (buf', F', c) ∧
    trie_ok buf' F' ∧ ext buf F buf' F' ∧ is_node F' c ∧ p < c ∧
    rd buf' (p + 1 + v) = c ∧
    (rd buf (p + 1 + v) ≠ -1 → buf' = buf ∧ F' = F) ∧
    (rd buf (p + 1 + v) = -1 → c = F).
Proof.
  intros Hok Hp Hv.
  pose proof (tk_deg _ _ Hok) as HN. pose proof (tk_root _ _ Hok) as Hroot.
  pose proof (tk_div _ _ Hok) as Hdiv. pose proof (tk_len _ _ Hok) as Hlen.
  destruct (node_slot F p v HN Hdiv Hp Hv) as [Hj0 Hj0d].
  unfold t_step. case_decide as Hc.
  2:{ destruct (tk_child _ _ Hok p v Hp Hv) as [?|[Hn Hlt]]; [done|].
      eexists _, _, _. split; [reflexivity|].
      split_and!; try done. apply ext_refl. }
  destruct (t_alloc_spec buf F) as (buf1 & -> & Hl1 & Hold & Hnew); [lia..|].
  set (j0 := p + 1 + v) in *.
  assert (Hrd : ∀ j, 0 ≤ j < F + (N + 1) →
            rd (wr buf1 j0 F) j =
            if decide (j = j0) then F else if decide (j < F) then rd buf j else -1).
  { intros j Hj. rewrite rd_wr.
    destruct (decide (j = j0)) as [->|Hne].
    - rewrite decide_True by lia. done.
    - rewrite decide_False by (intros [? _]; done).
      case_decide; [apply Hold|apply Hnew]; lia. }
  assert (HFn : is_node (F + (N + 1)) F).
  { split; [lia|done]. }
  assert (Hnode_slot : ∀ q u, is_node (F + (N + 1)) q → 0 ≤ u < N →
            0 ≤ q + 1 + u < F + (N + 1) ∧
            (q + 1 + u < F → is_node F q) ∧ (F ≤ q + 1 + u → q = F)).
  { intros q u Hq Hu. assert (is_node F q ∨ q = F) as [Hq' | ->].
    { apply node_split; [lia|lia|done|done]. }
    - destruct (node_slot F q u HN Hdiv Hq' Hu). split_and!; [lia|lia|done|lia].
    - split_and!; [lia|lia|lia|done]. }
  eexists _, _, _. split; [reflexivity|]. split_and!.
  - split.
    + done.
    + lia.
    + by apply Z.divide_add_r, Z.divide_refl.
    + by rewrite len_wr.
    + intros q u Hq Hu. destruct (Hnode_slot q u Hq Hu) as (Hr & Hlo & Hhi).
      rewrite Hrd by done. case_decide as E.
      * right. split; [done|]. destruct Hp. lia.
      * case_decide as E'; [|by left].
        destruct (tk_child _ _ Hok q u (Hlo E') Hu) as [?|[Hn Hlt]]; [by left|right].
        split; [|done]. eapply is_node_mono; [|done]. lia.
    + intros q u q' u' Hq Hq' Hu Hu'.
      destruct (Hnode_slot q u Hq Hu) as (Hr & Hlo & Hhi).
      destruct (Hnode_slot q' u' Hq' Hu') as (Hr' & Hlo' & Hhi').
      rewrite !Hrd by done.
      assert (Hval : ∀ q u, is_node F q → 0 ≤ u < N → rd buf (q + 1 + u) ≠ F).
      { intros q1 u1 Hq1 Hu1. destruct (tk_child _ _ Hok q1 u1 Hq1 Hu1) as [->|[[? _] _]]; lia. }
      repeat case_decide; intros E1 E2; try done.
      * apply (slot_inj (F + (N + 1))); [done..|]. fold j0. congruence.
      * exfalso. eapply (Hval q' u'); [auto|done|done].
      * exfalso. eapply (Hval q u); [auto|done|done].
      * apply (tk_inj _ _ Hok); auto.
  - split.
    + lia.
    + intros j Hj. rewrite Hrd by lia. case_decide as E.
      * subst j. right. split_and!; [done|lia|done].
      * case_decide; [by left|lia].
    + intros q Hq Hd. rewrite Hrd by lia.
      rewrite decide_False by lia. rewrite decide_False by lia. done.
  - done.
  - destruct Hp. lia.
  - rewrite Hrd by lia. by rewrite decide_True.
  - done.
  - done.
Qed.

Lemma t_walk_spec vs : ∀ buf F p,
  trie_ok buf F → is_node F p → points vs →
  ∃ buf' F' q, t_walk vs (buf, F, p) = (buf', F', q) ∧
    trie_ok buf' F' ∧ ext buf F buf' F' ∧ is_node F' q ∧ p ≤ q ∧
    lookup_path buf' p vs = Some q ∧
    (∀ q0, lookup_path buf p vs = Some q0 → buf' = buf ∧ F' = F ∧ q = q0) ∧
    (lookup_path buf p vs = None → F ≤ q).
Proof.
  induction vs as [|v vs IH]; intros buf F p Hok Hp Hvs.
  - eexists _, _, _. split; [reflexivity|].
    split; [done|]. split; [apply ext_refl|]. split; [done|]. split; [lia|].
    split; [done|]. split; [by intros q0 [= <-]|done].
  - apply Forall_cons in Hvs as [Hv Hvs].
    destruct (t_step_spec buf F p v Hok Hp Hv)
      as (buf1 & F1 & c & Hstep & Hok1 & Hext1 & Hc & Hpc & Hrdc & Hsame & Hfresh).
    destruct (IH buf1 F1 c Hok1 Hc Hvs)
      as (buf2 & F2 & q & Hwalk & Hok2 & Hext2 & Hq & Hcq & Hlk & Hsame2 & Hfresh2).
    exists buf2, F2, q.
    split; [change (t_walk (v :: vs) (buf, F, p)) with (t_walk vs (t_step v (buf, F, p)));
            by rewrite Hstep|].
    simpl.
    assert (0 ≤ F) as HF0 by (destruct Hp; lia).
    pose proof (tk_deg _ _ Hok) as HN.
    destruct (node_slot F1 p v HN (tk_div _ _ Hok1)
                (is_node_mono F F1 p (ex_F _ _ _ _ Hext1) Hp) Hv) as [Hj1 _].
    assert (Hc1 : c ≠ -1) by (destruct Hc; lia).
    assert (Hrd2 : rd buf2 (p + 1 + v) = c).
    { destruct (ex_slot _ _ _ _ Hext2 _ Hj1) as [E|[E _]]; congruence. }
    split_and!; try done.
    + eapply ext_trans; [done|done|done].
    + lia.
    + rewrite Hrd2. by rewrite decide_False.
    + case_decide as E; [done|]. intros q0 Hq0.
      destruct (Hsame E) as [-> ->]. rewrite Hrdc in Hq0.
      destruct (Hsame2 q0 Hq0) as (-> & -> & ->). done.
    + case_decide as E.
      * intros _. rewrite (Hfresh E) in Hcq. done.
      * intros Hnone. destruct (Hsame E) as [-> ->]. rewrite Hrdc in Hnone. auto.
Qed.

(** The IDs in the trie: the leaf of every image holds its ID, and a
    node that holds an ID is the leaf of that ID's image. *)
Record ids_ok (buf : list Z) (F : Z) (img : Z → list Z) (c : Z) : Prop := {
  io_fwd : ∀ id, 0 ≤ id < c →
    ∃ q, lookup_path buf 0 (img id) = Some q ∧ rd buf q = id;
  io_bwd : ∀ q, is_node F q → rd buf q ≠ -1 →
    0 ≤ rd buf q < c ∧ lookup_path buf 0 (img (rd buf q)) = Some q;
  io_img : ∀ id, 0 ≤ id < c → length (img id) = Z.to_nat N ∧ points (img id)
}.

Lemma ids_img_inj buf F img c i j :
  ids_ok buf F img c → 0 ≤ i < c → 0 ≤ j < c → img i = img j → i = j.
Proof.
  intros H Hi Hj E.
  destruct (io_fwd _ _ _ _ H i Hi) as (q & Hq & Hid).
  destruct (io_fwd _ _ _ _ H j Hj) as (q' & Hq' & Hid').
  rewrite E in Hq. congruence.
Qed.

(** An image already interned: the walk changes nothing and ends at its
    leaf. *)
Lemma walk_old buf F img c id :
  trie_ok buf F → ids_ok buf F img c → 0 ≤ id < c →
  ∃ q, t_walk (img id) (buf, F, 0) = (buf, F, q) ∧ rd buf q = id.
Proof.
  intros Hok Hids Hid.
  destruct (io_fwd _ _ _ _ Hids id Hid) as (q & Hq & Hrd).
  destruct (io_img _ _ _ _ Hids id Hid) as [_ Hpts].
  destruct (t_walk_spec (img id) buf F 0 Hok (root_node _ _ Hok) Hpts)
    as (buf' & F' & q' & Hw & _ & _ & _ & _ & _ & Hsame & _).
  destruct (Hsame q Hq) as (-> & -> & ->). eauto.
Qed.

(** A new image: the walk ends at a leaf without ID; storing the next ID
    there keeps the invariants. *)
Lemma walk_new buf F img c vs buf' F' q img' :
  trie_ok buf F → ids_ok buf F img c → 0 ≤ c →
  length vs = Z.to_nat N → points vs →
  (∀ id, 0 ≤ id < c → img id ≠ vs) →
  t_walk vs (buf, F, 0) = (buf', F', q) →
  img' c = vs → (∀ id, 0 ≤ id < c → img' id = img id) →
  rd buf' q = -1 ∧ trie_ok (wr buf' q c) F' ∧ ids_ok (wr buf' q c) F' img' (c + 1)
  ∧ ext buf F buf' F'.
Proof.
  intros Hok Hids Hc Hlen Hpts Hnew Hwalk Himg'c Himg'.
  destruct (t_walk_spec vs buf F 0 Hok (root_node _ _ Hok) Hpts)
    as (buf2 & F2 & q2 & Hw & Hok2 & Hext & Hq & _ & Hlk & Hsame & Hfresh).
  rewrite Hwalk in Hw. injection Hw as <- <- <-.
  pose proof (tk_deg _ _ Hok) as HN.
  assert (HF0 : 0 ≤ F) by (pose proof (tk_root _ _ Hok); lia).
  assert (Hroot : is_node F 0) by (by eapply root_node).
  (* the leaf carries no ID *)
  assert (Hq1 : rd buf' q = -1).
  { destruct (decide (q < F)) as [Hlt|Hge].
    - assert (Hqold : lookup_path buf 0 vs = Some q).
      { eapply ext_lookup_inv; [exact Hok|exact Hok2|done..]. }
      destruct (Hsame q Hqold) as (-> & -> & _).
      destruct (decide (rd buf q = -1)) as [|Hne]; [done|exfalso].
      destruct (io_bwd _ _ _ _ Hids q Hq Hne) as [Hr Hl].
      destruct (io_img _ _ _ _ Hids _ Hr) as [Hl1 Hp1].
      apply (Hnew _ Hr).
      eapply lookup_path_inj; [exact Hok|done|done|lia|done|done].
    - apply (ex_new _ _ _ _ Hext); [destruct Hq; lia|by destruct Hq]. }
  assert (Hqr : 0 ≤ q < len buf').
  { destruct Hq. pose proof (tk_len _ _ Hok2). lia. }
  (* edges are untouched by the store into an ID slot *)
  assert (Hedge : ∀ p v, is_node F' p → 0 ≤ v < N →
            rd (wr buf' q c) (p + 1 + v) = rd buf' (p + 1 + v)).
  { intros p v Hp Hv. apply rd_wr_ne. intros ->.
    destruct (node_slot F' p v HN (tk_div _ _ Hok2) Hp Hv) as [_ Hnd].
    by destruct Hq. }
  assert (Hlook : ∀ us p, is_node F' p → points us →
            lookup_path (wr buf' q c) p us = lookup_path buf' p us).
  { induction us as [|u us IH]; intros p Hp Hus; simpl; [done|].
    apply Forall_cons in Hus as [Hu Hus]. rewrite Hedge by done.
    case_decide; [done|].
    destruct (tk_child _ _ Hok2 p u Hp Hu) as [?|[Hn _]]; [done|]. by apply IH. }
  assert (Hok3 : trie_ok (wr buf' q c) F').
  { split; try (by destruct Hok2).
    - rewrite len_wr. by destruct Hok2.
    - intros p v Hp Hv. rewrite Hedge by done. by apply (tk_child _ _ Hok2).
    - intros p v p' v' Hp Hp' Hv Hv'. rewrite !Hedge by done.
      by apply (tk_inj _ _ Hok2). }
  split_and!; [done|done| |done].
  assert (Hroot' : is_node F' 0) by (by eapply root_node).
  split.
  - intros id Hid. destruct (decide (id = c)) as [->|Hne].
    + exists q. rewrite Himg'c, Hlook by done. split; [done|by apply rd_wr_eq].
    + assert (Hid' : 0 ≤ id < c) by lia.
      destruct (io_fwd _ _ _ _ Hids id Hid') as (r & Hr & Hrid).
      destruct (io_img _ _ _ _ Hids id Hid') as [_ Hp1].
      destruct (lookup_path_node _ _ _ _ _ Hok Hroot Hp1 Hr) as [[Hr0 Hrd] _].
      exists r. rewrite Himg', Hlook by (done || by rewrite <- ?Himg').
      split; [exact (ext_lookup buf F buf' F' 0 _ r Hok Hext Hroot Hp1 Hr)|].
      assert (Hr' : rd buf' r = id).
      { destruct (ex_slot _ _ _ _ Hext r Hr0) as [E|(_ & _ & E)]; [congruence|done]. }
      rewrite rd_wr_ne; [done|]. intros ->. lia.
  - intros r Hr. rewrite rd_wr. case_decide as E.
    + destruct E as [<- _]. intros _. split; [lia|].
      rewrite Himg'c, Hlook by done. done.
    + assert (r ≠ q) by (intros ->; apply E; split; [done|lia]).
      intros Hne. destruct (decide (r < F)) as [Hlt|Hge].
      * assert (Hro : is_node F r) by (destruct Hr; split; [lia|done]).
        destruct (ex_slot _ _ _ _ Hext r (proj1 Hro)) as [E'|(_ & _ & E')];
          [|by destruct Hr].
        rewrite E' in Hne |- *.
        destruct (io_bwd _ _ _ _ Hids r Hro Hne) as [Hrange Hl].
        destruct (io_img _ _ _ _ Hids _ Hrange) as [_ Hp1].
        split; [lia|]. rewrite Himg' by done. rewrite Hlook by done.
        exact (ext_lookup buf F buf' F' 0 _ r Hok Hext Hroot Hp1 Hl).
      * exfalso. apply Hne. apply (ex_new _ _ _ _ Hext); [destruct Hr; lia|by destruct Hr].
  - intros id Hid. destruct (decide (id = c)) as [->|Hne].
    + rewrite Himg'c. done.
    + rewrite Himg' by lia. apply (io_img _ _ _ _ Hids). lia.
Qed.
End trie.

(** ** The store invariant *)

Definition set_trie (s : PermutationRepository) (buf : list Z) (F : Z) :=
  set_trieFreePtr (set_trieBuffer s buf) F.

Ltac repo_simpl :=
  cbv [set_trie set_trieBuffer set_trieFreePtr set_permBuffer set_permCapacity
       set_count set_degree set_identity
       globalDegree count permCapacity permBuffer trieNodeSize trieBuffer
       trieFreePtr identity fst snd] in *.

Lemma set_trie_id s : set_trie s (trieBuffer s) (trieFreePtr s) = s.
Proof. by destruct s. Qed.

Lemma _allocateNode_eq s :
  trieNodeSize s = globalDegree s + 1 →
  _allocateNode s =
    (set_trie s (fst (t_alloc (globalDegree s) (trieBuffer s) (trieFreePtr s)))
                (snd (t_alloc (globalDegree s) (trieBuffer s) (trieFreePtr s))),
     trieFreePtr s).
Proof.
  intros Hsz. destruct s; simpl in Hsz. subst.
  unfold _allocateNode, t_alloc, _expandTrieBuffer, set_trie.
  cbv [set_trieBuffer set_trieFreePtr globalDegree count permCapacity permBuffer
       trieNodeSize trieBuffer trieFreePtr identity fst snd].
  by case_decide.
Qed.

Lemma trie_step_eq val i s buf F p :
  trieNodeSize s = globalDegree s + 1 →
  trie_step val i (set_trie s buf F, p) =
    let '(buf', F', q) := t_step (globalDegree s) (val i) (buf, F, p) in
    (set_trie s buf' F', q).
Proof.
  intros Hsz. unfold trie_step, t_step.
  change (trieBuffer (set_trie s buf F)) with buf.
  case_decide; [|done].
  rewrite _allocateNode_eq by (by destruct s).
  change (trieBuffer (set_trie s buf F)) with buf.
  change (trieFreePtr (set_trie s buf F)) with F.
  change (globalDegree (set_trie s buf F)) with (globalDegree s).
  destruct (t_alloc (globalDegree s) buf F) as [buf1 F1]. by destruct s.
Qed.

Lemma trie_fold_eq val s l : ∀ buf F p,
  trieNodeSize s = globalDegree s + 1 →
  fold_left (fun st i => trie_step val i st) l (set_trie s buf F, p) =
    let '(buf', F', q) := t_walk (globalDegree s) (val <$> l) (buf, F, p) in
    (set_trie s buf' F', q).
Proof.
  induction l as [|i l IH]; intros buf F p Hsz; [done|].
  cbn [fold_left fmap list_fmap t_walk]. rewrite trie_step_eq by done.
  destruct (t_step (globalDegree s) (val i) (buf, F, p)) as [[buf1 F1] c].
  by apply IH.
Qed.

Lemma trie_walk_eq val n s :
  trieNodeSize s = globalDegree s + 1 →
  trie_walk val n s =
    let '(buf', F', q) :=
      t_walk (globalDegree s) (val <$> seqZ 0 n) (trieBuffer s, trieFreePtr s, 0) in
    (set_trie s buf' F', q).
Proof.
  intros Hsz. unfold trie_walk, for_range.
  rewrite <- (set_trie_id s) at 1. rewrite Z.sub_0_r. by apply trie_fold_eq.
Qed.

(** The image of [a] at degree [N]: [a] followed by fixed points. *)
Definition pad (N : Z) (a : list Z) : list Z := a ++ seqZ (len a) (N - len a).

Record store_ok (s : PermutationRepository) : Prop := {
  so_size : trieNodeSize s = globalDegree s + 1;
  so_trie : trie_ok (globalDegree s) (trieBuffer s) (trieFreePtr s);
  so_ids : ids_ok (globalDegree s) (trieBuffer s) (trieFreePtr s) (get s) (count s);
  so_count : 0 ≤ count s ≤ permCapacity s;
  so_cap : 1 ≤ permCapacity s;
  so_pb : len (permBuffer s) = permCapacity s * globalDegree s
}.

(** The invariant of a constructed store: [store_ok], and ID 0 is the
    identity. *)
Record wf (s : PermutationRepository) : Prop := {
  wf_ok : store_ok s;
  wf_identity : identity s = 0;
  wf_count : 1 ≤ count s;
  wf_id_image : get s 0 = seqZ 0 (globalDegree s)
}.

Lemma rd_seqZ m n i : 0 ≤ i < n → rd (seqZ m n) i = m + i.
Proof.
  intros H. unfold rd. rewrite decide_True by lia.
  rewrite lookup_seqZ_lt by lia. simpl. lia.
Qed.

Lemma length_pad N a : len a ≤ N → length (pad N a) = Z.to_nat N.
Proof. unfold pad, len. intros. rewrite length_app, length_seqZ. lia. Qed.

Lemma rd_pad N a i : 0 ≤ i < N → len a ≤ N →
  rd (pad N a) i = if decide (i < len a) then rd a i else i.
Proof.
  intros Hi Hl. unfold pad. case_decide.
  - by apply rd_app_l.
  - unfold rd at 1. rewrite decide_True by lia.
    rewrite lookup_app_r by (unfold len in *; lia).
    replace (Z.to_nat i - length a)%nat with (Z.to_nat (i - len a)) by (unfold len; lia).
    rewrite lookup_seqZ_lt by lia. simpl. lia.
Qed.

Lemma pad_full N a : len a = N → pad N a = a.
Proof. intros H. unfold pad. rewrite seqZ_nil by lia. apply app_nil_r. Qed.

Lemma pad_vals N a :
  len a ≤ N →
  (fun i => if decide (i < len a) then rd a i else i) <$> seqZ 0 N = pad N a.
Proof.
  intros Hl. destruct (decide (0 ≤ N)) as [HN|HN].
  2:{ pose proof (len_nonneg a). lia. }
  apply array_ext.
  - rewrite length_fmap, length_seqZ, length_pad by done. done.
  - intros i Hi. unfold len in Hi. rewrite length_fmap, length_seqZ in Hi.
    rewrite rd_pad by lia.
    unfold rd at 1. rewrite decide_True by lia.
    rewrite list_lookup_fmap, lookup_seqZ_lt by lia. simpl.
    replace (0 + Z.of_nat (Z.to_nat i)) with i by lia. done.
Qed.

Lemma points_pad N a : len a ≤ N → points N a → points N (pad N a).
Proof.
  intros Hl Ha. unfold pad. apply Forall_app. split; [done|].
  apply Forall_seqZ. pose proof (len_nonneg a). lia.
Qed.

Lemma length_get s id :
  store_ok s → 0 ≤ id < count s → length (get s id) = Z.to_nat (globalDegree s).
Proof.
  intros Hok Hid. unfold get.
  pose proof (tk_deg _ _ _ (so_trie _ Hok)). pose proof (so_count _ Hok).
  pose proof (so_pb _ Hok).
  rewrite length_subarray by nia. f_equal. lia.
Qed.

Lemma rd_get s id k :
  0 ≤ id → 0 ≤ k < globalDegree s →
  rd (get s id) k = rd (permBuffer s) (id * globalDegree s + k).
Proof. intros Hid Hk. unfold get. rewrite rd_subarray by nia. done. Qed.

(** [get] only depends on the degree and on the cells of the ID. *)
Lemma get_ext s s' id :
  globalDegree s' = globalDegree s → 0 ≤ id →
  length (get s' id) = length (get s id) →
  (∀ k, 0 ≤ k < globalDegree s →
     rd (permBuffer s') (id * globalDegree s + k) = rd (permBuffer s) (id * globalDegree s + k)) →
  get s' id = get s id.
Proof.
  intros Hd Hid Hl H. apply array_ext; [done|].
  intros k Hk.
  destruct (decide (k < globalDegree s)) as [Hlt|Hge].
  - rewrite !rd_get by lia. rewrite Hd. apply H. lia.
  - exfalso. unfold len in Hk.
    assert (length (get s' id) ≤ Z.to_nat (globalDegree s'))%nat.
    { unfold get, subarray. rewrite length_take. lia. }
    lia.
Qed.

Lemma ids_ok_ext N buf F img img' c :
  (∀ id, 0 ≤ id < c → img' id = img id) →
  ids_ok N buf F img c → ids_ok N buf F img' c.
Proof.
  intros E [Hf Hb Hi]. split.
  - intros id Hid. rewrite E by done. auto.
  - intros q Hq Hne. destruct (Hb q Hq Hne) as [Hr Hl]. split; [done|]. by rewrite E.
  - intros id Hid. rewrite E by done. auto.
Qed.

Lemma length_get_eq s s' id :
  globalDegree s' = globalDegree s → length (permBuffer s') = length (permBuffer s) →
  length (get s' id) = length (get s id).
Proof.
  intros Hd Hl. unfold get, subarray. rewrite !length_take, !length_drop, Hd, Hl. done.
Qed.

(** [_expandPermCapacity] keeps every image. *)
Lemma _expandPermCapacity_spec s :
  store_ok s →
  let s' := _expandPermCapacity s in
  store_ok s' ∧ globalDegree s' = globalDegree s ∧ count s' = count s ∧
  identity s' = identity s ∧ trieBuffer s' = trieBuffer s ∧
  trieFreePtr s' = trieFreePtr s ∧ count s' < permCapacity s' ∧
  (∀ i, 0 ≤ i < count s → get s' i = get s i).
Proof.
  intros Hok. pose proof (tk_deg _ _ _ (so_trie _ Hok)) as HN.
  pose proof (so_count _ Hok) as Hc. pose proof (so_cap _ Hok) as Hcap.
  pose proof (so_pb _ Hok) as Hpb.
  set (s' := _expandPermCapacity s). cbv zeta.
  assert (Hlen : len (permBuffer s') = permCapacity s * 2 * globalDegree s).
  { unfold s', _expandPermCapacity. destruct s; simpl in *.
    rewrite len_app. unfold len in *.
    rewrite length_drop. unfold new_array. rewrite length_replicate. nia. }
  assert (Hget : ∀ i, 0 ≤ i < count s → get s' i = get s i).
  { intros i Hi. apply get_ext; [by destruct s|lia| |].
    - unfold get, subarray. rewrite !length_take, !length_drop.
      replace (globalDegree s') with (globalDegree s) by (by destruct s).
      assert (0 ≤ i * globalDegree s) by nia.
      assert (i * globalDegree s + globalDegree s ≤ len (permBuffer s)) by nia.
      assert (len (permBuffer s) ≤ len (permBuffer s')) by nia.
      unfold len in *. lia.
    - intros k Hk. unfold s', _expandPermCapacity. destruct s; simpl in *.
      apply rd_app_l. nia. }
  split_and!; try (by destruct s); [|destruct s; simpl in *; lia].
  split; try (by destruct Hok; destruct s).
  - eapply ids_ok_ext; [|exact (so_ids _ Hok)]. done.
  - destruct s; simpl in *. lia.
  - destruct s; simpl in *. lia.
Qed.

Lemma length_get_raw s id :
  0 ≤ id → 0 ≤ globalDegree s → (id + 1) * globalDegree s ≤ len (permBuffer s) →
  length (get s id) = Z.to_nat (globalDegree s).
Proof.
  intros. unfold get. rewrite length_subarray by nia. f_equal. lia.
Qed.

(** [_writeToPermBuffer] stores the padded image of [a] under [id]. *)
Lemma _writeToPermBuffer_spec s id a :
  0 ≤ id → 0 ≤ globalDegree s → len a ≤ globalDegree s →
  (id + 1) * globalDegree s ≤ len (permBuffer s) →
  let s' := _writeToPermBuffer s id a (len a) in
  get s' id = pad (globalDegree s) a ∧
  (∀ j, 0 ≤ j → j ≠ id → get s' j = get s j) ∧
  length (permBuffer s') = length (permBuffer s).
Proof.
  intros Hid HN Hl Hpb. set (s' := _writeToPermBuffer s id a (len a)). cbv zeta.
  assert (Hd : globalDegree s' = globalDegree s) by done.
  assert (Hlen : length (permBuffer s') = length (permBuffer s)).
  { unfold s', _writeToPermBuffer. destruct s; simpl. by rewrite !length_write_loop. }
  assert (Hlen' : len (permBuffer s') = len (permBuffer s)) by (unfold len; by rewrite Hlen).
  assert (Hrd : ∀ j, rd (permBuffer s') j =
    if decide (id * globalDegree s ≤ j < id * globalDegree s + globalDegree s ∧
               0 ≤ j < len (permBuffer s))
    then (if decide (j - id * globalDegree s < len a)
          then rd a (j - id * globalDegree s) else j - id * globalDegree s)
    else rd (permBuffer s) j).
  { intros j. unfold s', _writeToPermBuffer. destruct s; simpl in *.
    rewrite !rd_write_loop. rewrite len_write_loop.
    pose proof (len_nonneg a).
    repeat case_decide; try done; try lia. }
  assert (Hlg : length (get s' id) = Z.to_nat (globalDegree s)).
  { rewrite length_get_raw; rewrite ?Hd, ?Hlen'; done. }
  split_and!; [| |done].
  - apply array_ext.
    + rewrite Hlg, length_pad; done.
    + intros k Hk. unfold len in Hk. rewrite Hlg in Hk.
      rewrite rd_get by (rewrite ?Hd; lia).
      rewrite Hd, Hrd, rd_pad by lia. rewrite decide_True by nia.
      replace (id * globalDegree s + k - id * globalDegree s) with k by lia. done.
  - intros j Hj Hne. apply get_ext; [done|done|by apply length_get_eq|].
    intros k Hk. rewrite Hrd. rewrite decide_False; [done|]. nia.
Qed.

Lemma store_img_inj s i j :
  store_ok s → 0 ≤ i < count s → 0 ≤ j < count s → get s i = get s j → i = j.
Proof. intros Hok. apply (ids_img_inj _ _ _ _ _ i j (so_ids _ Hok)). Qed.

(** [register] without a degree upgrade: the ID of the padded image is
    returned, a fresh one exactly when the image was not interned. *)
Lemma register_noup s a :
  store_ok s → len a ≤ globalDegree s → points (globalDegree s) a →
  ∃ s' id, register s a = (s', id) ∧ store_ok s' ∧
    globalDegree s' = globalDegree s ∧ identity s' = identity s ∧
    0 ≤ id < count s' ∧ get s' id = pad (globalDegree s) a ∧
    count s ≤ count s' ∧
    (∀ i, 0 ≤ i < count s → get s' i = get s i) ∧
    (id < count s → count s' = count s) ∧
    (count s ≤ id → id = count s ∧ count s' = count s + 1).
Proof.
  intros Hok Hl Hpts. unfold register.
  rewrite (decide_False (P := len a > globalDegree s)) by lia.
  set (s1 := if decide (count s >= permCapacity s) then _expandPermCapacity s else s).
  assert (H1 : store_ok s1 ∧ globalDegree s1 = globalDegree s ∧ count s1 = count s ∧
               identity s1 = identity s ∧ count s1 < permCapacity s1 ∧
               (∀ i, 0 ≤ i < count s → get s1 i = get s i)).
  { unfold s1. case_decide.
    - destruct (_expandPermCapacity_spec s Hok) as (? & ? & ? & ? & ? & ? & ? & ?). done.
    - split_and!; try done. lia. }
  destruct H1 as (Hok1 & Hd1 & Hc1 & Hi1 & Hcap1 & Hg1). clearbody s1.
  pose proof (tk_deg _ _ _ (so_trie _ Hok1)) as HN.
  pose proof (so_count _ Hok1) as Hcnt. pose proof (so_pb _ Hok1) as Hpb.
  rewrite trie_walk_eq by apply (so_size _ Hok1).
  rewrite <- Hd1 in *. rewrite pad_vals by done.
  set (vs := pad (globalDegree s1) a).
  assert (Hvl : length vs = Z.to_nat (globalDegree s1)) by (by apply length_pad).
  assert (Hvp : points (globalDegree s1) vs) by (by apply points_pad).
  destruct (t_walk (globalDegree s1) vs (trieBuffer s1, trieFreePtr s1, 0))
    as [[buf' F'] q] eqn:Hw.
  destruct (t_walk_spec _ vs _ _ 0 (so_trie _ Hok1) (root_node _ _ _ (so_trie _ Hok1)) Hvp)
    as (buf2 & F2 & q2 & Hw2 & Hok2 & Hext & Hq & _ & Hlk & Hsame & Hfresh).
  rewrite Hw in Hw2. injection Hw2 as <- <- <-.
  cbv beta iota zeta.
  change (trieBuffer (set_trie s1 buf' F')) with buf'.
  case_decide as Hid.
  - (* a new image *)
    assert (Hnew : ∀ id, 0 ≤ id < count s1 → get s1 id ≠ vs).
    { intros id Hr E.
      destruct (walk_old _ _ _ _ _ id (so_trie _ Hok1) (so_ids _ Hok1) Hr) as (q' & Hw' & Hq').
      rewrite E, Hw in Hw'. injection Hw' as -> -> ->. lia. }
    set (s2 := set_trieBuffer (set_count (set_trie s1 buf' F') (count s1 + 1))
                 (wr buf' q (count s1))).
    change (count (set_trie s1 buf' F')) with (count s1). fold s2.
    assert (Hpb2 : (count s1 + 1) * globalDegree s2 ≤ len (permBuffer s2)).
    { change (globalDegree s2) with (globalDegree s1).
      change (permBuffer s2) with (permBuffer s1). nia. }
    destruct (_writeToPermBuffer_spec s2 (count s1) a) as (Hg & Hgo & Hlen);
      [lia|done|change (globalDegree s2) with (globalDegree s1); lia|done|].
    set (s3 := _writeToPermBuffer s2 (count s1) a (len a)) in *.
    change (globalDegree s2) with (globalDegree s1) in Hg.
    assert (Hgo' : ∀ i, 0 ≤ i < count s1 → get s3 i = get s1 i).
    { intros i Hi. rewrite Hgo by lia. by destruct s1. }
    destruct (walk_new _ _ _ (get s1) (count s1) vs buf' F' q (get s3)
                (so_trie _ Hok1) (so_ids _ Hok1)) as (_ & Hok3 & Hids3 & _);
      [lia|done|done|done|done|done|done|].
    exists s3, (count s1). split; [done|].
    split_and!; try done; try lia.
    + split; try done.
      * apply (so_size _ Hok1).
      * change (count s3) with (count s1 + 1). change (permCapacity s3) with (permCapacity s1). lia.
      * apply (so_cap _ Hok1).
      * unfold len. rewrite Hlen. apply Hpb.
    + change (count s3) with (count s1 + 1). lia.
    + change (count s3) with (count s1 + 1). lia.
    + intros i Hi. rewrite Hgo' by lia. apply Hg1. lia.
    + change (count s3) with (count s1 + 1). lia.
  - (* an image interned before *)
    assert (Hold : lookup_path (trieBuffer s1) 0 vs = Some q).
    { destruct (lookup_path (trieBuffer s1) 0 vs) as [q0|] eqn:E.
      - destruct (Hsame q0 eq_refl) as (_ & _ & ->). done.
      - exfalso. apply Hid. apply (ex_new _ _ _ _ _ Hext); [|by destruct Hq].
        destruct Hq. specialize (Hfresh eq_refl). lia. }
    destruct (Hsame q Hold) as (-> & -> & _).
    destruct (io_bwd _ _ _ _ _ (so_ids _ Hok1) q Hq Hid) as [Hr Hl'].
    destruct (io_img _ _ _ _ _ (so_ids _ Hok1) _ Hr) as [Hl1 Hp1].
    assert (Hgq : get s1 (rd (trieBuffer s1) q) = vs).
    { eapply lookup_path_inj; [exact (so_trie _ Hok1)|done|done|lia|done|done]. }
    rewrite set_trie_id.
    exists s1, (rd (trieBuffer s1) q). split_and!; try done; try lia.
Qed.

(** ** Degree upgrade *)

(** The data migration of [_upgradeDegree]: old values copied, fixed
    points appended. *)
Definition migrate (old : list Z) (oldDegree newDegree totalPerms cap : Z) : list Z :=
  for_range 0 totalPerms (fun i pb =>
    let oldStart := i * oldDegree in
    let newStart := i * newDegree in
    let pb := for_range 0 oldDegree
                (fun k pb => wr pb (newStart + k) (rd old (oldStart + k))) pb in
    for_range oldDegree newDegree (fun k pb => wr pb (newStart + k) k) pb)
    (new_array (cap * newDegree)).

Lemma migrate_spec old N N' c cap :
  0 ≤ N → N ≤ N' → 0 ≤ c ≤ cap →
  len (migrate old N N' c cap) = cap * N' ∧
  ∀ i k, 0 ≤ i < c → 0 ≤ k < N' →
    rd (migrate old N N' c cap) (i * N' + k) = if decide (k < N) then rd old (i * N + k) else k.
Proof.
  intros HN HN' Hc. unfold migrate.
  apply (for_range_ind (fun n pb =>
    len pb = cap * N' ∧
    ∀ i k, 0 ≤ i < n → 0 ≤ k < N' →
      rd pb (i * N' + k) = if decide (k < N) then rd old (i * N + k) else k)); [lia| |].
  - split; [apply len_new_array; nia|]. intros; lia.
  - intros n pb Hn [Hlen IH]. cbv zeta. split.
    + by rewrite !len_write_loop.
    + intros i k Hi Hk. rewrite rd_write_loop, len_write_loop, rd_write_loop, Hlen.
      destruct (decide (i = n)) as [->|Hne].
      * destruct (decide (k < N)).
        -- rewrite decide_False by lia. rewrite decide_True by nia.
           f_equal. lia.
        -- rewrite decide_True by nia. lia.
      * rewrite decide_False by nia. rewrite decide_False by nia.
        apply IH; lia.
Qed.

Lemma trie_ok_root N buf :
  0 ≤ N → N + 1 ≤ len buf → (∀ j, 0 ≤ j < N + 1 → rd buf j = -1) →
  trie_ok N buf (N + 1) ∧ ∀ img, ids_ok N buf (N + 1) img 0.
Proof.
  intros HN Hlen Hrd.
  assert (Hnode : ∀ p, is_node N (N + 1) p → p = 0).
  { intros p [Hp [k ->]]. assert (k = 0 ∨ k ≤ -1 ∨ 1 ≤ k) as [->|[?|?]] by lia; [done|nia|nia]. }
  split; [split|].
  - done.
  - lia.
  - apply Z.divide_refl.
  - done.
  - intros p v Hp Hv. rewrite (Hnode p Hp). left. apply Hrd. lia.
  - intros p v p' v' Hp Hp' Hv Hv' _ Hne. exfalso. apply Hne.
    rewrite (Hnode p Hp). apply Hrd. lia.
  - intros img. split.
    + intros; lia.
    + intros q Hq Hne. exfalso. apply Hne. rewrite (Hnode q Hq). apply Hrd. lia.
    + intros; lia.
Qed.

Lemma set_trie_set_trie s b F b' F' : set_trie (set_trie s b F) b' F' = set_trie s b' F'.
Proof. done. Qed.

Lemma _upgradeDegree_spec s N' :
  store_ok s → globalDegree s < N' → N' + 1 ≤ 2 * len (trieBuffer s) →
  let s' := _upgradeDegree s N' in
  store_ok s' ∧ globalDegree s' = N' ∧ count s' = count s ∧ identity s' = identity s ∧
  (∀ i, 0 ≤ i < count s → get s' i = pad N' (get s i)).
Proof.
  intros Hok HN' Hfit.
  pose proof (tk_deg _ _ _ (so_trie _ Hok)) as HN.
  pose proof (so_count _ Hok) as Hcnt. pose proof (so_cap _ Hok) as Hcap.
  pose proof (so_pb _ Hok) as Hpb.
  destruct (migrate_spec (permBuffer s) (globalDegree s) N' (count s) (permCapacity s))
    as [Hmlen Hmrd]; [lia..|].
  set (pb := migrate (permBuffer s) (globalDegree s) N' (count s) (permCapacity s)) in *.
  destruct (t_alloc_spec N' (trieBuffer s) 0) as (buf1 & Ha & Hl1 & _ & Hnew1);
    [lia|pose proof (len_nonneg (trieBuffer s)); lia|lia|].
  set (s2 := mkRepo N' (count s) (permCapacity s) pb (N' + 1) buf1 (N' + 1) (identity s)).
  assert (Hs2 : fst (_allocateNode (set_trieFreePtr
                  (set_permBuffer (set_degree s N') pb) 0)) = s2).
  { rewrite _allocateNode_eq by (by destruct s).
    unfold s2. destruct s. repeat (repo_simpl; rewrite ?Ha). done. }
  unfold _upgradeDegree. cbv zeta.
  change (migrate (permBuffer s) (globalDegree s) N' (count s) (permCapacity s)) with pb.
  change (for_range 0 (count s) _ (new_array (permCapacity (set_degree s N') * N'))) with pb.
  rewrite Hs2.
  (* the images at the new degree *)
  assert (Hget : ∀ i, 0 ≤ i < count s → get s2 i = pad N' (get s i)).
  { intros i Hi.
    assert (Hlg : length (get s i) = Z.to_nat (globalDegree s)) by (by apply length_get).
    assert (Hlg' : len (get s i) = globalDegree s) by (unfold len; lia).
    apply array_ext.
    - rewrite length_get_raw, length_pad by (simpl; nia). done.
    - intros k Hk. unfold len in Hk. rewrite length_get_raw in Hk by (simpl; nia).
      change (globalDegree s2) with N' in Hk.
      rewrite rd_get by (simpl; lia). change (globalDegree s2) with N'.
      change (permBuffer s2) with pb. rewrite Hmrd by lia.
      rewrite rd_pad by lia. rewrite Hlg'.
      case_decide; [|done]. rewrite rd_get by lia. done. }
  assert (Hpts : ∀ i, 0 ≤ i < count s → points N' (get s2 i)).
  { intros i Hi. rewrite Hget by done.
    destruct (io_img _ _ _ _ _ (so_ids _ Hok) i Hi) as [Hl Hp].
    unfold pad. apply Forall_app. split.
    - eapply Forall_impl; [exact Hp|]. simpl. intros; lia.
    - apply Forall_seqZ. pose proof (len_nonneg (get s i)). lia. }
  assert (Hlens : ∀ i, 0 ≤ i < count s → length (get s2 i) = Z.to_nat N').
  { intros i Hi. apply length_get_raw; simpl; nia. }
  assert (Hdist : ∀ i j, 0 ≤ i < count s → 0 ≤ j < count s → get s2 i = get s2 j → i = j).
  { intros i j Hi Hj E. rewrite !Hget in E by done. unfold pad in E.
    assert (length (get s i) = length (get s j)) as Hll by (by rewrite !length_get).
    unfold len in E. rewrite Hll in E. apply app_inv_tail in E.
    by apply (store_img_inj s). }
  destruct (trie_ok_root N' buf1) as [Htk0 Hio0]; [lia|lia|intros; apply Hnew1; lia|].
  (* the rebuild loop *)
  assert (Hloop : ∃ buf F,
    for_range 0 (count s) (fun id s0 =>
      let '(s1, currNodePtr) :=
        trie_walk (fun i => rd (permBuffer s0) (id * N' + i)) N' s0 in
      set_trieBuffer s1 (wr (trieBuffer s1) currNodePtr id)) s2 = set_trie s2 buf F
    ∧ trie_ok N' buf F ∧ ids_ok N' buf F (get s2) (count s)).
  { apply (for_range_ind (fun n st => ∃ buf F,
      st = set_trie s2 buf F ∧ trie_ok N' buf F ∧ ids_ok N' buf F (get s2) n)); [lia| |].
    - exists buf1, (N' + 1). split_and!; done.
    - intros n st Hn (buf & F & -> & Htk & Hio). cbv zeta.
      rewrite trie_walk_eq by done.
      change (globalDegree (set_trie s2 buf F)) with N'.
      change (trieBuffer (set_trie s2 buf F)) with buf.
      change (trieFreePtr (set_trie s2 buf F)) with F.
      change (permBuffer (set_trie s2 buf F)) with pb.
      assert (Hvals : (fun i => rd pb (n * N' + i)) <$> seqZ 0 N' = get s2 n).
      { apply array_ext.
        - rewrite length_fmap, length_seqZ, Hlens by lia. done.
        - intros k Hk. unfold len in Hk. rewrite length_fmap, length_seqZ in Hk.
          rewrite rd_get by (simpl; lia).
          unfold rd at 1. rewrite decide_True by lia.
          rewrite list_lookup_fmap, lookup_seqZ_lt by lia. simpl.
          replace (0 + Z.of_nat (Z.to_nat k)) with k by lia. done. }
      rewrite Hvals.
      destruct (t_walk N' (get s2 n) (buf, F, 0)) as [[buf' F'] q] eqn:Hw.
      destruct (walk_new N' buf F (get s2) n (get s2 n) buf' F' q (get s2) Htk Hio)
        as (_ & Htk' & Hio' & _); [lia|by apply Hlens|by apply Hpts| |done|done|done|].
      { intros id Hid E. assert (id = n) by (apply Hdist; [lia|lia|done]). lia. }
      exists (wr buf' q n), F'. split_and!; done. }
  destruct Hloop as (buf & F & -> & Htk & Hio).
  split_and!; done.
Qed.

(** ** [register] *)

(** The input fits the arena: one doubling of the trie buffer makes room
    for a root node of the new degree.  For a store built by the
    constructor this holds for every input shorter than
    [2 * INITIAL_TRIE_SLOTS - 1]. *)
Definition fits (s : PermutationRepository) (a : list Z) : Prop :=
  len a + 1 ≤ 2 * len (trieBuffer s).

(** The degree of the store after [register s a]. *)
Definition degree_after (s : PermutationRepository) (a : list Z) : Z :=
  Z.max (globalDegree s) (len a).

(** An image array for [register]: every entry is a point of the degree
    the store has after the call, and the array fits the arena. *)
Definition valid_image (s : PermutationRepository) (a : list Z) : bool :=
  forallb (fun v => (0 <=? v) && (v <? degree_after s a)) a
  && (len a + 1 <=? 2 * len (trieBuffer s)).

Lemma valid_image_spec s a :
  valid_image s a = true ↔ points (degree_after s a) a ∧ fits s a.
Proof.
  unfold valid_image, points, fits. rewrite andb_true_iff, forallb_forall, Forall_forall.
  rewrite Z.leb_le. split; intros [H1 H2]; (split; [|done]); intros x Hx.
  - apply list_elem_of_In in Hx. specialize (H1 x Hx).
    apply andb_true_iff in H1 as [?%Z.leb_le ?%Z.ltb_lt]. done.
  - apply list_elem_of_In in Hx. specialize (H1 x Hx).
    apply andb_true_iff. rewrite Z.leb_le, Z.ltb_lt. done.
Qed.

Lemma register_up s a :
  store_ok s → len a > globalDegree s → fits s a →
  register s a = register (_upgradeDegree s (len a)) a.
Proof.
  intros Hok Hgt Hfit.
  destruct (_upgradeDegree_spec s (len a) Hok) as (_ & Hd & _); [lia|done|].
  unfold register at 2. rewrite (decide_False (P := len a > _)) by lia.
  unfold register. rewrite (decide_True (P := len a > _)) by lia. done.
Qed.

Lemma register_spec s a :
  store_ok s → points (degree_after s a) a → fits s a →
  ∃ s' id, register s a = (s', id) ∧ store_ok s' ∧
    globalDegree s' = degree_after s a ∧ identity s' = identity s ∧
    0 ≤ id < count s' ∧ get s' id = pad (degree_after s a) a ∧
    count s ≤ count s' ∧
    (∀ i, 0 ≤ i < count s → get s' i = pad (degree_after s a) (get s i)) ∧
    (id < count s → count s' = count s) ∧
    (count s ≤ id → id = count s ∧ count s' = count s + 1).
Proof.
  intros Hok Hpts Hfit. unfold degree_after in *.
  destruct (decide (len a ≤ globalDegree s)) as [Hle|Hgt].
  - rewrite Z.max_l in * by lia.
    destruct (register_noup s a Hok Hle Hpts)
      as (s' & id & Hr & Hok' & Hd & Hi & Hid & Hg & Hc & Hgo & Hold & Hnew).
    exists s', id. split_and!; try done; try lia.
    intros i Hi'. rewrite Hgo by done. rewrite pad_full; [done|].
    unfold len. rewrite length_get by done.
    pose proof (tk_deg _ _ _ (so_trie _ Hok)). lia.
  - rewrite Z.max_r in * by lia. rewrite register_up by (done || lia).
    destruct (_upgradeDegree_spec s (len a) Hok) as (Hok1 & Hd1 & Hc1 & Hi1 & Hg1);
      [lia|done|].
    set (s1 := _upgradeDegree s (len a)) in *.
    destruct (register_noup s1 a Hok1)
      as (s' & id & Hr & Hok' & Hd & Hi & Hid & Hg & Hc & Hgo & Hold & Hnew);
      [lia|by rewrite Hd1|].
    rewrite Hd1 in *. rewrite Hc1 in *.
    exists s', id. split_and!; try done; try congruence; try lia.
    intros i Hi'. rewrite Hgo by done. by apply Hg1.
Qed.

Lemma pad_seqZ N N' : 0 ≤ N ≤ N' → pad N' (seqZ 0 N) = seqZ 0 N'.
Proof.
  intros H. unfold pad, len. rewrite length_seqZ.
  replace N' with (N + (N' - N)) at 2 by lia.
  rewrite seqZ_app by lia. do 2 f_equal; lia.
Qed.

Lemma register_wf s a :
  wf s → valid_image s a = true →
  ∃ s' id, register s a = (s', id) ∧ wf s' ∧
    globalDegree s' = degree_after s a ∧
    0 ≤ id < count s' ∧ get s' id = pad (degree_after s a) a ∧
    count s ≤ count s' ∧
    (∀ i, 0 ≤ i < count s → get s' i = pad (degree_after s a) (get s i)) ∧
    (id < count s → count s' = count s) ∧
    (count s ≤ id → id = count s ∧ count s' = count s + 1).
Proof.
  intros [Hok Hi Hc H0] [Hpts Hfit]%valid_image_spec.
  destruct (register_spec s a Hok Hpts Hfit)
    as (s' & id & Hr & Hok' & Hd & Hi' & Hid & Hg & Hc' & Hgo & Hold & Hnew).
  exists s', id. split_and!; try done; try lia.
  split; [done|congruence|lia|].
  rewrite Hgo by lia. rewrite H0, Hd. apply pad_seqZ.
  pose proof (tk_deg _ _ _ (so_trie _ Hok)). unfold degree_after. lia.
Qed.

Lemma store_ok_set_identity s i : store_ok s → store_ok (set_identity s i).
Proof. intros [H1 H2 H3 H4 H5 H6]. destruct s. split; assumption. Qed.

(** The constructor establishes the invariant. *)
Lemma wf_new_repo d cap :
  0 ≤ d → d + 1 ≤ 2 * INITIAL_TRIE_SLOTS → 1 ≤ cap → wf (new_repo d cap).
Proof.
  intros Hd Hfit Hcap. unfold new_repo.
  assert (Hslots : 0 ≤ INITIAL_TRIE_SLOTS) by (vm_compute; discriminate).
  generalize dependent INITIAL_TRIE_SLOTS. intros slots Hfit Hslots.
  set (s0 := mkRepo d 0 cap (new_array (cap * d)) (d + 1) (new_array slots) 0 0).
  assert (Hlen0 : len (new_array slots) = slots) by (by apply len_new_array).
  destruct (t_alloc_spec d (new_array slots) 0) as (buf1 & Ha & Hl1 & _ & Hnew1).
  { lia. }
  { rewrite Hlen0. lia. }
  { rewrite Hlen0. lia. }
  rewrite _allocateNode_eq by reflexivity.
  change (t_alloc (globalDegree s0) (trieBuffer s0) (trieFreePtr s0))
    with (t_alloc d (new_array slots) 0).
  rewrite Ha. cbn [fst snd].
  destruct (trie_ok_root d buf1) as [Htk Hio]; [lia|lia|intros; apply Hnew1; lia|].
  set (s1 := set_trie s0 buf1 (0 + (d + 1))).
  assert (Hok1 : store_ok s1).
  { split.
    - reflexivity.
    - exact Htk.
    - apply Hio.
    - change (0 ≤ 0 ≤ cap). lia.
    - exact Hcap.
    - change (len (new_array (cap * d)) = cap * d). apply len_new_array. nia. }
  destruct (register_noup s1 []) as
    (s' & id & Hr & Hok' & Hd' & Hi & Hid & Hg & Hc & Hgo & Hold & Hnew).
  { exact Hok1. }
  { change (0 ≤ d). lia. }
  { apply Forall_nil. exact I. }
  rewrite Hr. change (count s1) with 0 in *.
  destruct Hnew as [-> Hc']; [lia|].
  split.
  - by apply store_ok_set_identity.
  - reflexivity.
  - change (1 ≤ count s'). lia.
  - replace (get (set_identity s' 0) 0) with (get s' 0) by (by destruct s').
    rewrite Hg. replace (globalDegree (set_identity s' 0)) with (globalDegree s')
      by (by destruct s').
    rewrite Hd'. change (globalDegree s1) with d.
    unfold pad. change (len []) with 0. simpl. f_equal. lia.
Qed.





Lemma wf_register s a : wf s → valid_image s a = true → wf (fst (register s a)).
Proof.
  intros Hwf Hv. destruct (register_wf s a Hwf Hv) as (s' & id & -> & Hwf' & _). done.
Qed.

Lemma wf_two_swaps : wf two_swaps.
Proof.
  apply wf_register; [apply wf_register|]; [|vm_compute; reflexivity..].
  apply wf_new_repo; [lia|vm_compute; discriminate|lia].
Qed.

(** ** Claims on [register] *)




(** C3.  A [register] call that raises the degree from [N] to [N' > N]
    keeps every ID: each stored image is the old image followed by the
    fixed points [N .. N'-1], registering that image (padded or not)
    afterwards returns the old ID, and the ID handed out by the call is an
    old one or exactly the old count. *)
Theorem upgrade_preserves_ids (s : PermutationRepository) (a : list Z) :
  wf s → valid_image s a = true → globalDegree s < len a →
  ∃ s' id, register s a = (s', id) ∧ wf s' ∧ globalDegree s' = len a ∧
    (∀ i, 0 ≤ i < count s →
       get s' i = get s i ++ seqZ (globalDegree s) (len a - globalDegree s) ∧
       (∀ k, 0 ≤ k < globalDegree s → rd (get s' i) k = rd (get s i) k) ∧
       (∀ k, globalDegree s ≤ k < len a → rd (get s' i) k = k) ∧
       snd (register s' (get s' i)) = i ∧
       snd (register s' (get s i)) = i ∧
       count (fst (register s' (get s' i))) = count s') ∧
    ((id < count s ∧ count s' = count s) ∨ (id = count s ∧ count s' = count s + 1)).
Proof.
  intros Hwf Hv Hup.
  destruct (register_wf s a Hwf Hv)
    as (s' & id & Hr & Hwf' & Hd & Hid & Hg & Hc & Hgo & Hold & Hnew).
  pose proof (tk_deg _ _ _ (so_trie _ (wf_ok _ Hwf))) as HN.
  assert (Hda : degree_after s a = len a) by (unfold degree_after; lia).
  rewrite Hda in *.
  exists s', id. split; [done|]. split; [done|]. split; [done|]. split.
  2:{ destruct (decide (id < count s)); [left|right]; split; try lia; try apply Hnew; auto; lia. }
  intros i Hi.
  assert (Hlg : length (get s i) = Z.to_nat (globalDegree s)) by (apply length_get; [apply Hwf|done]).
  assert (Hlen : len (get s i) = globalDegree s) by (unfold len; lia).
  assert (Himg : get s' i = get s i ++ seqZ (globalDegree s) (len a - globalDegree s)).
  { rewrite Hgo by done. unfold pad. by rewrite Hlen. }
  assert (Hpts' : points (globalDegree s') (get s' i)).
  { apply (io_img _ _ _ _ _ (so_ids _ (wf_ok _ Hwf'))). lia. }
  assert (Hreg : ∀ b, pad (globalDegree s') b = get s' i → len b ≤ globalDegree s' →
            points (globalDegree s') b →
            snd (register s' b) = i ∧ count (fst (register s' b)) = count s').
  { intros b Hb Hlb Hpb.
    destruct (register_noup s' b (wf_ok _ Hwf') Hlb Hpb)
      as (s2 & id2 & Hr2 & Hok2 & Hd2 & _ & Hid2 & Hg2 & Hc2 & Hgo2 & Hold2 & Hnew2).
    rewrite Hr2. simpl.
    assert (id2 = i) as ->.
    { apply (store_img_inj s2); [done|lia|lia|].
      rewrite Hg2, Hgo2 by lia. done. }
    split; [done|]. apply Hold2. lia. }
  split; [done|]. split; [|split].
  - intros k Hk. rewrite Himg. apply rd_app_l. lia.
  - intros k Hk. rewrite Hgo by done. rewrite rd_pad by lia.
    rewrite decide_False by lia. done.
  - destruct (Hreg (get s' i)) as [H1 H2].
    + apply pad_full. unfold len. rewrite length_get by (apply Hwf' || lia). lia.
    + unfold len. rewrite length_get by (apply Hwf' || lia). lia.
    + done.
    + destruct (Hreg (get s i)) as [H3 _].
      * rewrite Hd. by rewrite Hgo.
      * lia.
      * rewrite Himg in Hpts'. by apply Forall_app in Hpts' as [? _].
      * done.
Qed.

Lemma upgrade_preserves_ids_witness :
  wf two_swaps ∧ valid_image two_swaps [1; 2; 3; 4; 0] = true ∧
  globalDegree two_swaps < len [1; 2; 3; 4; 0] ∧ count two_swaps = 3 ∧
  ∃ s' id, register two_swaps [1; 2; 3; 4; 0] = (s', id) ∧ globalDegree s' = 5 ∧
    id = 3 ∧ count s' = 4 ∧
    get s' 1 = get two_swaps 1 ++ seqZ 4 1 ∧ get s' 2 = get two_swaps 2 ++ seqZ 4 1 ∧
    snd (register s' (get two_swaps 1)) = 1 ∧ snd (register s' (get two_swaps 2)) = 2 ∧
    snd (register s' (get s' 1)) = 1 ∧ snd (register s' (get s' 2)) = 2.
Proof.
  assert (Hv : valid_image two_swaps [1; 2; 3; 4; 0] = true) by (vm_compute; reflexivity).
  assert (Hup : globalDegree two_swaps < len [1; 2; 3; 4; 0]) by (vm_compute; reflexivity).
  assert (Hc : count two_swaps = 3) by (vm_compute; reflexivity).
  split; [exact wf_two_swaps|]. split; [exact Hv|]. split; [exact Hup|]. split; [exact Hc|].
  destruct (upgrade_preserves_ids two_swaps [1; 2; 3; 4; 0] wf_two_swaps Hv Hup)
    as (s' & id & Hr & _ & Hd & Hall & Hid).
  exists s', id. split; [exact Hr|]. split; [exact Hd|].
  assert (Hfresh : id = 3 ∧ count s' = 4).
  { assert (E : snd (register two_swaps [1; 2; 3; 4; 0]) = 3) by (vm_compute; reflexivity).
    rewrite Hr in E. cbn [snd] in E. rewrite Hc in Hid. lia. }
  destruct Hfresh as [-> ->]. split; [reflexivity|]. split; [reflexivity|].
  destruct (Hall 1) as (Himg1 & _ & _ & Hnew1 & Hold1 & _); [rewrite Hc; lia|].
  destruct (Hall 2) as (Himg2 & _ & _ & Hnew2 & Hold2 & _); [rewrite Hc; lia|].
  change (len [1; 2; 3; 4; 0] - globalDegree two_swaps) with 1 in Himg1, Himg2.
  change (globalDegree two_swaps) with 4 in Himg1, Himg2.
  split_and!; assumption.
Defined.

(** ** [while] loops: invariants *)

Lemma while_fuel_inv {St : Type} (Inv : St → Prop) (m : St → nat)
    (cond : St → bool) (body : St → St) :
  (∀ st, Inv st → cond st = true → Inv (body st) ∧ (m (body st) < m st)%nat) →
  ∀ fuel st, Inv st → (m st ≤ fuel)%nat →
  ∃ st', while_fuel fuel cond body st = Some st' ∧ Inv st' ∧ cond st' = false.
Proof.
  intros Hstep. induction fuel as [|fuel IH]; intros st HI Hm.
  - destruct (cond st) eqn:Hc.
    + destruct (Hstep st HI Hc) as [_ Hlt]. lia.
    + exists st. simpl. rewrite Hc. done.
  - destruct (cond st) eqn:Hc.
    + destruct (Hstep st HI Hc) as [HI' Hlt].
      destruct (IH (body st) HI') as (st' & Hw & H1 & H2); [lia|].
      exists st'. simpl. rewrite Hc. done.
    + exists st. simpl. rewrite Hc. done.
Qed.

Lemma drop_rd (a : list Z) i :
  0 ≤ i < len a → drop (Z.to_nat i) a = rd a i :: drop (Z.to_nat (i + 1)) a.
Proof.
  intros Hi. unfold len in Hi.
  replace (Z.to_nat (i + 1)) with (S (Z.to_nat i)) by lia.
  destruct (lookup_lt_is_Some_2 a (Z.to_nat i)) as [x Hx]; [lia|].
  rewrite (drop_S _ _ _ Hx). f_equal.
  unfold rd. rewrite decide_True by lia. by rewrite Hx.
Qed.

Lemma drop_len (a : list Z) i : len a ≤ i → drop (Z.to_nat i) a = [].
Proof. intros H. apply drop_ge. unfold len in H. lia. Qed.

Lemma subarray_snoc res k v :
  0 ≤ k < len res → subarray (wr res k v) 0 (k + 1) = subarray res 0 k ++ [v].
Proof.
  intros Hk. unfold subarray, wr, len in *. rewrite decide_True by lia.
  rewrite !drop_0, !Z.sub_0_r.
  replace (Z.to_nat (k + 1)) with (S (Z.to_nat k)) by lia.
  destruct (lookup_lt_is_Some_2 (<[Z.to_nat k:=v]> res) (Z.to_nat k)) as [x Hx].
  { rewrite length_insert. lia. }
  rewrite (take_S_r _ _ _ Hx).
  rewrite list_lookup_insert_eq in Hx by lia. injection Hx as <-.
  rewrite take_insert_ge by lia. done.
Qed.

Lemma subarray_0_0 res : subarray res 0 0 = [].
Proof. done. Qed.

(** [copy_rest] appends the rest of [src]. *)
Lemma copy_rest_spec src i k res :
  0 ≤ i ≤ len src → 0 ≤ k → k + (len src - i) ≤ len res →
  ∃ res', IntSetUtils.copy_rest src (len src) (i, k, res)
          = Some (len src, k + (len src - i), res') ∧
    len res' = len res ∧
    subarray res' 0 (k + (len src - i)) = subarray res 0 k ++ drop (Z.to_nat i) src.
Proof.
  intros Hi Hk Hfit. unfold IntSetUtils.copy_rest.
  destruct (while_fuel_inv
    (fun '(i', k', res') =>
       i ≤ i' ≤ len src ∧ k' = k + (i' - i) ∧ len res' = len res ∧
       subarray res' 0 k' ++ drop (Z.to_nat i') src
       = subarray res 0 k ++ drop (Z.to_nat i) src)
    (fun '(i', _, _) => Z.to_nat (len src - i'))
    (fun '(i, k, res) => bool_decide (i < len src))
    (fun '(i, k, res) => (i + 1, k + 1, wr res k (rd src i)))) with
    (length src) (i, k, res) as ([[i' k'] res'] & Hw & (Hi' & Hk' & Hl' & Happ) & Hc).
  - intros [[i' k'] res'] (Hi' & Hk' & Hl' & Happ) Hc.
    apply bool_decide_eq_true in Hc. split; [|lia].
    split_and!; try lia.
    + by rewrite len_wr.
    + rewrite subarray_snoc by lia. rewrite <- Happ.
      rewrite (drop_rd src i') by lia. by rewrite <- app_assoc.
  - split_and!; try lia. replace (k + (i - i)) with k by lia. done.
  - unfold len. lia.
  - apply bool_decide_eq_false in Hc. assert (i' = len src) as -> by lia.
    subst k'. exists res'. split_and!; try done.
    rewrite drop_len in Happ by lia. by rewrite app_nil_r in Happ.
Qed.

(** ** [IntSetUtils]: the two-pointer merges as list functions *)

Fixpoint merge_union (a : list Z) : list Z → list Z :=
  fix go (b : list Z) : list Z :=
    match a, b with
    | [], _ => b
    | _, [] => a
    | x :: a', y :: b' =>
        if decide (x < y) then x :: merge_union a' b
        else if decide (x > y) then y :: go b'
        else x :: merge_union a' b'
    end.

Fixpoint merge_inter (a : list Z) : list Z → list Z :=
  fix go (b : list Z) : list Z :=
    match a, b with
    | [], _ => []
    | _, [] => []
    | x :: a', y :: b' =>
        if decide (x < y) then merge_inter a' b
        else if decide (x > y) then go b'
        else x :: merge_inter a' b'
    end.

Fixpoint merge_diff (a : list Z) : list Z → list Z :=
  fix go (b : list Z) : list Z :=
    match a, b with
    | [], _ => []
    | _, [] => a
    | x :: a', y :: b' =>
        if decide (x < y) then x :: merge_diff a' b
        else if decide (x > y) then go b'
        else merge_diff a' b'
    end.

Lemma merge_union_nil_l b : merge_union [] b = b.
Proof. by destruct b. Qed.

Lemma merge_inter_nil_l b : merge_inter [] b = [].
Proof. by destruct b. Qed.

Lemma merge_diff_nil_l b : merge_diff [] b = [].
Proof. by destruct b. Qed.

Lemma merge_union_nil_r a : merge_union a [] = a.
Proof. by destruct a. Qed.

Lemma merge_inter_nil_r a : merge_inter a [] = [].
Proof. by destruct a. Qed.

Lemma merge_diff_nil_r a : merge_diff a [] = a.
Proof. by destruct a. Qed.

(** The loop state of a merge: both read positions are inside the arrays,
    and what is left to do is the merge of the two suffixes. *)
Definition merge_inv (spec : list Z → list Z → list Z) (arrA arrB : list Z)
    (bound : Z → Z → Z) (n : Z) (st : Z * Z * Z * list Z) : Prop :=
  let '(i, j, k, res) := st in
  0 ≤ i ≤ len arrA ∧ 0 ≤ j ≤ len arrB ∧ 0 ≤ k ≤ bound i j ∧ len res = n ∧
  subarray res 0 k ++ spec (drop (Z.to_nat i) arrA) (drop (Z.to_nat j) arrB)
  = spec arrA arrB.

Definition merge_measure (arrA arrB : list Z) (st : Z * Z * Z * list Z) : nat :=
  let '(i, j, k, res) := st in Z.to_nat (len arrA - i + (len arrB - j)).

Lemma union_loop_spec arrA arrB :
  ∃ i j k res,
    while_fuel (length arrA + length arrB)
      (fun '(i, j, k, res) => bool_decide (i < len arrA) && bool_decide (j < len arrB))
      (fun '(i, j, k, res) =>
         let va := rd arrA i in
         let vb := rd arrB j in
         if decide (va < vb) then (i + 1, j, k + 1, wr res k va)
         else if decide (va > vb) then (i, j + 1, k + 1, wr res k vb)
         else (i + 1, j + 1, k + 1, wr res k va))
      (0, 0, 0, new_array (len arrA + len arrB)) = Some (i, j, k, res) ∧
    merge_inv merge_union arrA arrB (fun i j => i + j) (len arrA + len arrB) (i, j, k, res) ∧
    (i = len arrA ∨ j = len arrB).
Proof.
  pose proof (len_nonneg arrA) as HA. pose proof (len_nonneg arrB) as HB.
  destruct (while_fuel_inv
    (merge_inv merge_union arrA arrB (fun i j => i + j) (len arrA + len arrB))
    (merge_measure arrA arrB)
    (fun '(i, j, k, res) => bool_decide (i < len arrA) && bool_decide (j < len arrB))
    (fun '(i, j, k, res) =>
         let va := rd arrA i in
         let vb := rd arrB j in
         if decide (va < vb) then (i + 1, j, k + 1, wr res k va)
         else if decide (va > vb) then (i, j + 1, k + 1, wr res k vb)
         else (i + 1, j + 1, k + 1, wr res k va))) with
    (length arrA + length arrB)%nat (0, 0, 0, new_array (len arrA + len arrB))
    as ([[[i j] k] res] & Hw & HI & Hc).
  - intros [[[i j] k] res] (Hi & Hj & Hk & Hl & Happ) Hc.
    apply andb_true_iff in Hc as [Hc1%bool_decide_eq_true Hc2%bool_decide_eq_true].
    rewrite (drop_rd arrA i), (drop_rd arrB j) in Happ by lia.
    cbn [merge_union] in Happ. cbv zeta.
    repeat case_decide; (split; [|simpl; lia]); split_and!; try lia;
      rewrite ?len_wr; try done;
      rewrite subarray_snoc by lia; rewrite <- app_assoc; simpl;
      rewrite ?(drop_rd arrA i), ?(drop_rd arrB j) by lia; done.
  - split_and!; try lia; [apply len_new_array; lia|done].
  - simpl. unfold len. lia.
  - exists i, j, k, res. split; [done|]. split; [done|].
    destruct HI as (Hi & Hj & _).
    apply andb_false_iff in Hc as [Hc%bool_decide_eq_false|Hc%bool_decide_eq_false]; lia.
Qed.

Lemma union_eq arrA arrB : IntSetUtils.union arrA arrB = merge_union arrA arrB.
Proof.
  unfold IntSetUtils.union. cbv zeta.
  destruct (decide (len arrA = 0)) as [HA|HA].
  { destruct arrA; [by destruct arrB|]. unfold len in HA. simpl in HA. lia. }
  destruct (decide (len arrB = 0)) as [HB|HB].
  { destruct arrB; [by rewrite merge_union_nil_r|]. unfold len in HB. simpl in HB. lia. }
  destruct (union_loop_spec arrA arrB)
    as (i & j & k & res & Hw & (Hi & Hj & Hk & Hl & Happ) & Hend).
  cbv zeta in Hw. rewrite Hw.
  destruct (copy_rest_spec arrA i k res) as (res1 & -> & Hl1 & Hs1); [lia..|].
  destruct (copy_rest_spec arrB j (k + (len arrA - i)) res1) as (res2 & -> & Hl2 & Hs2); [lia..|].
  rewrite Hs2, Hs1, <- Happ, <- app_assoc. f_equal.
  destruct Hend as [-> | ->].
  - rewrite drop_len by lia. by rewrite merge_union_nil_l.
  - rewrite (drop_len arrB) by lia. by rewrite merge_union_nil_r, app_nil_r.
Qed.

Lemma intersection_eq arrA arrB : IntSetUtils.intersection arrA arrB = merge_inter arrA arrB.
Proof.
  unfold IntSetUtils.intersection. cbv zeta.
  pose proof (len_nonneg arrA) as HA. pose proof (len_nonneg arrB) as HB.
  set (n := if decide (len arrA < len arrB) then len arrA else len arrB).
  assert (Hn : n = Z.min (len arrA) (len arrB)) by (unfold n; case_decide; lia).
  destruct (while_fuel_inv
    (merge_inv merge_inter arrA arrB Z.min n)
    (merge_measure arrA arrB)
    (fun '(i, j, k, res) => bool_decide (i < len arrA) && bool_decide (j < len arrB))
    (fun '(i, j, k, res) =>
         let va := rd arrA i in
         let vb := rd arrB j in
         if decide (va < vb) then (i + 1, j, k, res)
         else if decide (va > vb) then (i, j + 1, k, res)
         else (i + 1, j + 1, k + 1, wr res k va))) with
    (length arrA + length arrB)%nat (0, 0, 0, new_array n)
    as ([[[i j] k] res] & Hw & HI & Hc).
  - intros [[[i j] k] res] (Hi & Hj & Hk & Hl & Happ) Hc.
    apply andb_true_iff in Hc as [Hc1%bool_decide_eq_true Hc2%bool_decide_eq_true].
    rewrite (drop_rd arrA i), (drop_rd arrB j) in Happ by lia.
    cbn [merge_inter] in Happ. cbv zeta.
    repeat case_decide; (split; [|simpl; lia]); split_and!; try lia;
      rewrite ?len_wr; try done;
      rewrite ?subarray_snoc by lia; rewrite <- ?app_assoc; simpl;
      rewrite ?(drop_rd arrA i), ?(drop_rd arrB j) by lia; done.
  - split_and!; try lia; [apply len_new_array; lia|done].
  - simpl. unfold len. lia.
  - cbv zeta in Hw. rewrite Hw. destruct HI as (Hi & Hj & Hk & Hl & Happ). rewrite <- Happ.
    apply andb_false_iff in Hc as [Hc%bool_decide_eq_false|Hc%bool_decide_eq_false].
    + rewrite drop_len by lia. by rewrite merge_inter_nil_l, app_nil_r.
    + rewrite (drop_len arrB) by lia. by rewrite merge_inter_nil_r, app_nil_r.
Qed.

Lemma difference_eq arrA arrB : IntSetUtils.difference arrA arrB = merge_diff arrA arrB.
Proof.
  unfold IntSetUtils.difference. cbv zeta.
  pose proof (len_nonneg arrA) as HA. pose proof (len_nonneg arrB) as HB.
  destruct (while_fuel_inv
    (merge_inv merge_diff arrA arrB (fun i _ => i) (len arrA))
    (merge_measure arrA arrB)
    (fun '(i, j, k, res) => bool_decide (i < len arrA) && bool_decide (j < len arrB))
    (fun '(i, j, k, res) =>
         let va := rd arrA i in
         let vb := rd arrB j in
         if decide (va < vb) then (i + 1, j, k + 1, wr res k va)
         else if decide (va > vb) then (i, j + 1, k, res)
         else (i + 1, j + 1, k, res))) with
    (length arrA + length arrB)%nat (0, 0, 0, new_array (len arrA))
    as ([[[i j] k] res] & Hw & HI & Hc).
  - intros [[[i j] k] res] (Hi & Hj & Hk & Hl & Happ) Hc.
    apply andb_true_iff in Hc as [Hc1%bool_decide_eq_true Hc2%bool_decide_eq_true].
    rewrite (drop_rd arrA i), (drop_rd arrB j) in Happ by lia.
    cbn [merge_diff] in Happ. cbv zeta.
    repeat case_decide; (split; [|simpl; lia]); split_and!; try lia;
      rewrite ?len_wr; try done;
      rewrite ?subarray_snoc by lia; rewrite <- ?app_assoc; simpl;
      rewrite ?(drop_rd arrA i), ?(drop_rd arrB j) by lia; done.
  - split_and!; try lia; [apply len_new_array; lia|done].
  - simpl. unfold len. lia.
  - cbv zeta in Hw. rewrite Hw. destruct HI as (Hi & Hj & Hk & Hl & Happ).
    destruct (copy_rest_spec arrA i k res) as (res1 & -> & Hl1 & Hs1); [lia..|].
    rewrite Hs1, <- Happ. f_equal.
    apply andb_false_iff in Hc as [Hc%bool_decide_eq_false|Hc%bool_decide_eq_false].
    + rewrite drop_len by lia. by rewrite merge_diff_nil_l.
    + rewrite (drop_len arrB) by lia. by rewrite merge_diff_nil_r.
Qed.

(** ** Ascending arrays *)

(** Strictly ascending: the input convention of [IntSetUtils]. *)
Fixpoint ascending (l : list Z) : bool :=
  match l with
  | x :: (y :: _) as t => (x <? y) && ascending t
  | _ => true
  end.

Lemma ascending_sorted l : ascending l = true ↔ StronglySorted Z.lt l.
Proof.
  induction l as [|x [|y l] IH].
  - split; [constructor|done].
  - split; [repeat constructor|done].
  - change (ascending (x :: y :: l)) with ((x <? y) && ascending (y :: l)).
    rewrite andb_true_iff, Z.ltb_lt, IH. split.
    + intros [Hxy Hs]. constructor; [done|].
      apply StronglySorted_inv in Hs as [_ Hf]. constructor; [done|].
      eapply Forall_impl; [exact Hf|]. simpl. intros; lia.
    + intros Hs. apply StronglySorted_inv in Hs as [Hs Hf].
      split; [|done]. by apply Forall_inv in Hf.
Qed.

Lemma sorted_rd l i j :
  StronglySorted Z.lt l → 0 ≤ i → i < j → j < len l → rd l i < rd l j.
Proof.
  intros Hs. revert i j. induction Hs as [|x l Hs IH Hf]; intros i j Hi Hij Hj.
  - unfold len in Hj. simpl in Hj. lia.
  - unfold len in Hj. simpl in Hj.
    assert (Hrj : rd (x :: l) j = rd l (j - 1)).
    { unfold rd. rewrite !decide_True by lia.
      replace (Z.to_nat j) with (S (Z.to_nat (j - 1))) by lia. done. }
    rewrite Hrj. destruct (decide (i = 0)) as [->|Hne].
    + change (rd (x :: l) 0) with x.
      rewrite Forall_forall in Hf. apply Hf.
      unfold rd. rewrite decide_True by lia.
      destruct (lookup_lt_is_Some_2 l (Z.to_nat (j - 1))) as [y Hy]; [lia|].
      rewrite Hy. simpl. by eapply list_elem_of_lookup_2.
    + assert (Hri : rd (x :: l) i = rd l (i - 1)).
      { unfold rd. rewrite !decide_True by lia.
        replace (Z.to_nat i) with (S (Z.to_nat (i - 1))) by lia. done. }
      rewrite Hri. apply IH; unfold len; lia.
Qed.

(** Two ascending arrays with the same elements are the same array. *)
Lemma sorted_ext (a b : list Z) :
  StronglySorted Z.lt a → StronglySorted Z.lt b → (∀ x, x ∈ a ↔ x ∈ b) → a = b.
Proof.
  intros Ha. revert b. induction Ha as [|x a Ha IH Hfa]; intros b Hb E.
  - destruct b as [|y b]; [done|]. exfalso.
    assert (y ∈ []) as H%elem_of_nil by (apply E; left). done.
  - destruct Hb as [|y b Hb Hfb].
    { exfalso. assert (x ∈ []) as H%elem_of_nil by (apply E; left). done. }
    rewrite Forall_forall in Hfa, Hfb.
    assert (x = y) as <-.
    { assert (x ∈ y :: b) as H1 by (apply E; left).
      assert (y ∈ x :: a) as H2 by (apply E; left).
      apply elem_of_cons in H1 as [?|H1]; [done|].
      apply elem_of_cons in H2 as [?|H2]; [done|].
      specialize (Hfa _ H2). specialize (Hfb _ H1). lia. }
    f_equal. apply IH; [done|]. intros z. split; intros Hz.
    + assert (z ∈ x :: b) as H1 by (apply E; by right).
      apply elem_of_cons in H1 as [->|H1]; [|done]. specialize (Hfa _ Hz). lia.
    + assert (z ∈ x :: a) as H1 by (apply E; by right).
      apply elem_of_cons in H1 as [->|H1]; [|done]. specialize (Hfb _ Hz). lia.
Qed.

Lemma merge_union_cons x a y b :
  merge_union (x :: a) (y :: b) =
  if decide (x < y) then x :: merge_union a (y :: b)
  else if decide (x > y) then y :: merge_union (x :: a) b
  else x :: merge_union a b.
Proof. reflexivity. Qed.

Lemma merge_inter_cons x a y b :
  merge_inter (x :: a) (y :: b) =
  if decide (x < y) then merge_inter a (y :: b)
  else if decide (x > y) then merge_inter (x :: a) b
  else x :: merge_inter a b.
Proof. reflexivity. Qed.

Lemma merge_diff_cons x a y b :
  merge_diff (x :: a) (y :: b) =
  if decide (x < y) then x :: merge_diff a (y :: b)
  else if decide (x > y) then merge_diff (x :: a) b
  else merge_diff a b.
Proof. reflexivity. Qed.

Ltac list_elem :=
  rewrite ?elem_of_nil, ?not_elem_of_cons, ?elem_of_cons; tauto.

Lemma elem_of_merge_union a b x : x ∈ merge_union a b ↔ x ∈ a ∨ x ∈ b.
Proof.
  revert b. induction a as [|x0 a IH]; intros b.
  { rewrite merge_union_nil_l. list_elem. }
  induction b as [|y b IHb].
  { rewrite merge_union_nil_r. list_elem. }
  rewrite merge_union_cons. repeat case_decide.
  - rewrite elem_of_cons, IH. list_elem.
  - rewrite elem_of_cons, IHb. list_elem.
  - assert (x0 = y) as -> by lia. rewrite elem_of_cons, IH. list_elem.
Qed.

Lemma sorted_merge_union a b :
  StronglySorted Z.lt a → StronglySorted Z.lt b → StronglySorted Z.lt (merge_union a b).
Proof.
  intros Ha. revert b. induction Ha as [|x a Ha IH Hfa]; intros b Hb.
  { by rewrite merge_union_nil_l. }
  induction Hb as [|y b Hb IHb Hfb].
  { rewrite merge_union_nil_r. by constructor. }
  rewrite Forall_forall in Hfa, Hfb.
  rewrite merge_union_cons. repeat case_decide.
  - constructor; [apply IH; by constructor; [|apply Forall_forall]|].
    apply Forall_forall. intros z [Hz|Hz]%elem_of_merge_union; [by apply Hfa|].
    apply elem_of_cons in Hz as [->|Hz]; [done|]. specialize (Hfb _ Hz). lia.
  - constructor; [done|].
    apply Forall_forall. intros z [Hz|Hz]%elem_of_merge_union; [|by apply Hfb].
    apply elem_of_cons in Hz as [->|Hz]; [lia|]. specialize (Hfa _ Hz). lia.
  - assert (x = y) as <- by lia. constructor; [by apply IH|].
    apply Forall_forall. intros z [Hz|Hz]%elem_of_merge_union; [by apply Hfa|by apply Hfb].
Qed.

Lemma sorted_head_le (y : Z) b x :
  StronglySorted Z.lt (y :: b) → x ∈ y :: b → y ≤ x.
Proof.
  intros [_ Hf]%StronglySorted_inv [->|Hx]%elem_of_cons; [lia|].
  rewrite Forall_forall in Hf. specialize (Hf _ Hx). lia.
Qed.

Lemma elem_of_merge_inter a b x :
  StronglySorted Z.lt a → StronglySorted Z.lt b →
  x ∈ merge_inter a b ↔ x ∈ a ∧ x ∈ b.
Proof.
  intros Ha. revert b. induction Ha as [|x0 a Ha IH Hfa]; intros b Hb.
  { rewrite merge_inter_nil_l, !elem_of_nil. tauto. }
  induction Hb as [|y b Hb IHb Hfb].
  { rewrite merge_inter_nil_r, !elem_of_nil. tauto. }
  assert (Hyb : StronglySorted Z.lt (y :: b)) by (by constructor).
  assert (Hxa : StronglySorted Z.lt (x0 :: a)) by (by constructor).
  pose proof (sorted_head_le y b x Hyb) as Hgb.
  pose proof (sorted_head_le x0 a x Hxa) as Hga.
  clear Hfa Hfb.
  rewrite merge_inter_cons. repeat case_decide.
  - rewrite IH by done. split.
    + intros [H1 H2]. split; [by right|done].
    + intros [H1 H2]. split; [|done].
      apply elem_of_cons in H1 as [->|H1]; [|done]. specialize (Hgb H2). lia.
  - rewrite IHb. split.
    + intros [H1 H2]. split; [done|by right].
    + intros [H1 H2]. split; [done|].
      apply elem_of_cons in H2 as [->|H2]; [|done]. specialize (Hga H1). lia.
  - assert (x0 = y) as <- by lia. rewrite elem_of_cons, IH by done. split.
    + intros [->|[H1 H2]]; [split; by left|split; by right].
    + intros [H1 H2]. apply elem_of_cons in H1 as [->|H1]; [by left|].
      apply elem_of_cons in H2 as [->|H2]; [by left|]. right. done.
Qed.

Lemma elem_of_merge_diff a b x :
  StronglySorted Z.lt a → StronglySorted Z.lt b →
  x ∈ merge_diff a b ↔ x ∈ a ∧ x ∉ b.
Proof.
  intros Ha. revert b. induction Ha as [|x0 a Ha IH Hfa]; intros b Hb.
  { rewrite merge_diff_nil_l, !elem_of_nil. tauto. }
  induction Hb as [|y b Hb IHb Hfb].
  { rewrite merge_diff_nil_r, !elem_of_nil. tauto. }
  assert (Hyb : StronglySorted Z.lt (y :: b)) by (by constructor).
  assert (Hxa : StronglySorted Z.lt (x0 :: a)) by (by constructor).
  pose proof (sorted_head_le y b x Hyb) as Hgb.
  pose proof (sorted_head_le x0 a x Hxa) as Hga.
  assert (Hx0a : x0 ∉ a).
  { intros Hin. rewrite Forall_forall in Hfa. specialize (Hfa _ Hin). lia. }
  clear Hfa Hfb.
  rewrite merge_diff_cons. repeat case_decide.
  - rewrite elem_of_cons, IH by done. split.
    + intros [->|[H1 H2]]; [|split; [by right|done]].
      split; [by left|]. intros Hin. specialize (Hgb Hin). lia.
    + intros [H1 H2]. apply elem_of_cons in H1 as [->|H1]; [by left|]. right. done.
  - rewrite IHb. split.
    + intros [H1 H2]. split; [done|]. intros Hin.
      apply elem_of_cons in Hin as [->|Hin]; [|done]. specialize (Hga H1). lia.
    + intros [H1 H2]. split; [done|]. intros Hin. apply H2. by right.
  - assert (x0 = y) as <- by lia. rewrite IH by done. split.
    + intros [H1 H2]. split; [by right|]. intros Hin.
      apply elem_of_cons in Hin as [->|Hin]; [done|done].
    + intros [H1 H2]. apply elem_of_cons in H1 as [->|H1].
      * exfalso. apply H2. by left.
      * split; [done|]. intros Hin. apply H2. by right.
Qed.

Lemma merge_inter_subset a b x : x ∈ merge_inter a b → x ∈ a.
Proof.
  revert b. induction a as [|x0 a IH]; intros b.
  { by rewrite merge_inter_nil_l. }
  induction b as [|y b IHb].
  { rewrite merge_inter_nil_r. by intros ?%elem_of_nil. }
  rewrite merge_inter_cons. repeat case_decide.
  - intros Hin. right. by eapply IH.
  - intros Hin. by apply IHb.
  - intros [->|Hin]%elem_of_cons; [by left|right; by eapply IH].
Qed.

Lemma merge_diff_subset a b x : x ∈ merge_diff a b → x ∈ a.
Proof.
  revert b. induction a as [|x0 a IH]; intros b.
  { by rewrite merge_diff_nil_l. }
  induction b as [|y b IHb].
  { by rewrite merge_diff_nil_r. }
  rewrite merge_diff_cons. repeat case_decide.
  - intros [->|Hin]%elem_of_cons; [by left|right; by eapply IH].
  - intros Hin. by apply IHb.
  - intros Hin. right. by eapply IH.
Qed.

Lemma sorted_merge_inter a b :
  StronglySorted Z.lt a → StronglySorted Z.lt (merge_inter a b).
Proof.
  intros Ha. revert b. induction Ha as [|x a Ha IH Hfa]; intros b.
  { rewrite merge_inter_nil_l. constructor. }
  induction b as [|y b IHb].
  { rewrite merge_inter_nil_r. constructor. }
  rewrite Forall_forall in Hfa.
  rewrite merge_inter_cons. repeat case_decide; [apply IH|done|].
  constructor; [apply IH|]. apply Forall_forall. intros z Hz%merge_inter_subset. auto.
Qed.

Lemma sorted_merge_diff a b :
  StronglySorted Z.lt a → StronglySorted Z.lt (merge_diff a b).
Proof.
  intros Ha. revert b. induction Ha as [|x a Ha IH Hfa]; intros b.
  { rewrite merge_diff_nil_l. constructor. }
  induction b as [|y b IHb].
  { rewrite merge_diff_nil_r. by constructor. }
  rewrite Forall_forall in Hfa.
  rewrite merge_diff_cons. repeat case_decide; [|done|apply IH].
  constructor; [apply IH|]. apply Forall_forall. intros z Hz%merge_diff_subset. auto.
Qed.

(** ** Properties of [IntSetUtils] *)

(** X1.  [IntSetUtils.union] of two strictly ascending arrays is strictly
    ascending and holds exactly the elements of either array. *)
Theorem union_ascending_elements (arrA arrB : list Z) :
  ascending arrA = true → ascending arrB = true →
  ascending (IntSetUtils.union arrA arrB) = true ∧
  ∀ x, x ∈ IntSetUtils.union arrA arrB ↔ x ∈ arrA ∨ x ∈ arrB.
Proof.
  intros HA%ascending_sorted HB%ascending_sorted. rewrite union_eq. split.
  - apply ascending_sorted. by apply sorted_merge_union.
  - intros x. apply elem_of_merge_union.
Qed.

Lemma union_ascending_elements_witness :
  ascending (IntSetUtils.union [1; 3; 7] [2; 3; 9]) = true ∧
  ∀ x, x ∈ IntSetUtils.union [1; 3; 7] [2; 3; 9] ↔ x ∈ [1; 3; 7] ∨ x ∈ [2; 3; 9].
Proof. apply union_ascending_elements; reflexivity. Defined.

(** X2.  [IntSetUtils.intersection] of two strictly ascending arrays is
    strictly ascending and holds exactly the common elements. *)
Theorem intersection_ascending_elements (arrA arrB : list Z) :
  ascending arrA = true → ascending arrB = true →
  ascending (IntSetUtils.intersection arrA arrB) = true ∧
  ∀ x, x ∈ IntSetUtils.intersection arrA arrB ↔ x ∈ arrA ∧ x ∈ arrB.
Proof.
  intros HA%ascending_sorted HB%ascending_sorted. rewrite intersection_eq. split.
  - apply ascending_sorted. by apply sorted_merge_inter.
  - intros x. by apply elem_of_merge_inter.
Qed.

Lemma intersection_ascending_elements_witness :
  ascending (IntSetUtils.intersection [1; 3; 7] [2; 3; 9]) = true ∧
  ∀ x, x ∈ IntSetUtils.intersection [1; 3; 7] [2; 3; 9] ↔ x ∈ [1; 3; 7] ∧ x ∈ [2; 3; 9].
Proof. apply intersection_ascending_elements; reflexivity. Defined.

(** X3.  [IntSetUtils.difference] of two strictly ascending arrays is
    strictly ascending and holds exactly the elements of the first array
    that are not in the second. *)
Theorem difference_ascending_elements (arrA arrB : list Z) :
  ascending arrA = true → ascending arrB = true →
  ascending (IntSetUtils.difference arrA arrB) = true ∧
  ∀ x, x ∈ IntSetUtils.difference arrA arrB ↔ x ∈ arrA ∧ x ∉ arrB.
Proof.
  intros HA%ascending_sorted HB%ascending_sorted. rewrite difference_eq. split.
  - apply ascending_sorted. by apply sorted_merge_diff.
  - intros x. by apply elem_of_merge_diff.
Qed.

Lemma difference_ascending_elements_witness :
  ascending (IntSetUtils.difference [1; 3; 7] [2; 3; 9]) = true ∧
  ∀ x, x ∈ IntSetUtils.difference [1; 3; 7] [2; 3; 9] ↔ x ∈ [1; 3; 7] ∧ x ∉ [2; 3; 9].
Proof. apply difference_ascending_elements; reflexivity. Defined.

Lemma merge_lengths a b :
  (length (merge_union a b) + length (merge_inter a b) = length a + length b)%nat ∧
  (length (merge_diff a b) + length (merge_inter a b) = length a)%nat.
Proof.
  revert b. induction a as [|x a IH]; intros b.
  { rewrite merge_union_nil_l, merge_inter_nil_l, merge_diff_nil_l. simpl. lia. }
  induction b as [|y b IHb].
  { rewrite merge_union_nil_r, merge_inter_nil_r, merge_diff_nil_r. simpl. lia. }
  rewrite merge_union_cons, merge_inter_cons, merge_diff_cons.
  destruct (IH (y :: b)) as [H1 H2]. destruct (IH b) as [H3 H4]. destruct IHb as [H5 H6].
  repeat case_decide; simpl in *; lia.
Qed.

(** X4.  The result sizes of the three merges are tied together, whatever
    the inputs: [|A ∪ B| + |A ∩ B| = |A| + |B|] and [|A − B| + |A ∩ B| = |A|]. *)
Theorem merge_sizes (arrA arrB : list Z) :
  len (IntSetUtils.union arrA arrB) + len (IntSetUtils.intersection arrA arrB)
    = len arrA + len arrB ∧
  len (IntSetUtils.difference arrA arrB) + len (IntSetUtils.intersection arrA arrB)
    = len arrA.
Proof.
  rewrite union_eq, intersection_eq, difference_eq. unfold len.
  destruct (merge_lengths arrA arrB). lia.
Qed.

(** X5.  On strictly ascending arrays union and intersection commute and
    are idempotent, and an array minus itself is empty. *)
Theorem merge_algebra (arrA arrB : list Z) :
  ascending arrA = true → ascending arrB = true →
  IntSetUtils.union arrA arrB = IntSetUtils.union arrB arrA ∧
  IntSetUtils.intersection arrA arrB = IntSetUtils.intersection arrB arrA ∧
  IntSetUtils.union arrA arrA = arrA ∧
  IntSetUtils.intersection arrA arrA = arrA ∧
  IntSetUtils.difference arrA arrA = [].
Proof.
  intros HA%ascending_sorted HB%ascending_sorted.
  rewrite !union_eq, !intersection_eq, !difference_eq. split_and!.
  - apply sorted_ext; [by apply sorted_merge_union..|].
    intros x. rewrite !elem_of_merge_union. tauto.
  - apply sorted_ext; [by apply sorted_merge_inter..|].
    intros x. rewrite !elem_of_merge_inter by done. tauto.
  - apply sorted_ext; [by apply sorted_merge_union|done|].
    intros x. rewrite !elem_of_merge_union. tauto.
  - apply sorted_ext; [by apply sorted_merge_inter|done|].
    intros x. rewrite !elem_of_merge_inter by done. tauto.
  - apply sorted_ext; [by apply sorted_merge_diff|constructor|].
    intros x. rewrite !elem_of_merge_diff by done. rewrite elem_of_nil. tauto.
Qed.

Lemma merge_algebra_witness :
  IntSetUtils.union [1; 3; 7] [2; 3; 9] = IntSetUtils.union [2; 3; 9] [1; 3; 7] ∧
  IntSetUtils.intersection [1; 3; 7] [2; 3; 9] = IntSetUtils.intersection [2; 3; 9] [1; 3; 7] ∧
  IntSetUtils.union [1; 3; 7] [1; 3; 7] = [1; 3; 7] ∧
  IntSetUtils.intersection [1; 3; 7] [1; 3; 7] = [1; 3; 7] ∧
  IntSetUtils.difference [1; 3; 7] [1; 3; 7] = [].
Proof. apply merge_algebra; reflexivity. Defined.

(** X6.  An empty operand: the union is the other array, the intersection
    is empty, and subtracting nothing leaves the array as it is. *)
Theorem merge_empty_operand (arr : list Z) :
  IntSetUtils.union [] arr = arr ∧ IntSetUtils.union arr [] = arr ∧
  IntSetUtils.intersection [] arr = [] ∧ IntSetUtils.intersection arr [] = [] ∧
  IntSetUtils.difference [] arr = [] ∧ IntSetUtils.difference arr [] = arr.
Proof.
  rewrite !union_eq, !intersection_eq, !difference_eq.
  rewrite merge_union_nil_l, merge_union_nil_r, merge_inter_nil_l, merge_inter_nil_r,
    merge_diff_nil_l, merge_diff_nil_r. done.
Qed.

(** ** Binary search *)

Lemma ushr1_half x : 0 ≤ x < 2 ^ 32 → IntSetUtils.ushr1 x = x / 2.
Proof.
  intros Hx. unfold IntSetUtils.ushr1. rewrite Z.mod_small by done.
  rewrite Z.shiftr_div_pow2 by lia. done.
Qed.

Lemma elem_of_rd (a : list Z) v : v ∈ a ↔ ∃ i, 0 ≤ i < len a ∧ rd a i = v.
Proof.
  rewrite list_elem_of_lookup. split.
  - intros [i Hi]. exists (Z.of_nat i). split.
    + apply lookup_lt_Some in Hi. unfold len. lia.
    + by apply rd_lookup.
  - intros (i & Hi & Hv). exists (Z.to_nat i). unfold len in Hi.
    rewrite lookup_rd by lia. f_equal. rewrite Z2Nat.id by lia. done.
Qed.

Lemma has_loop_spec a v :
  StronglySorted Z.lt a → len a < 2 ^ 31 →
  ∀ fuel lo hi,
    0 ≤ lo → hi < len a → (Z.to_nat (hi - lo + 1) ≤ fuel)%nat →
    (∀ i, 0 ≤ i < len a → rd a i = v → lo ≤ i ≤ hi) →
    IntSetUtils.has_loop fuel a v lo hi = Some (bool_decide (v ∈ a)).
Proof.
  intros Hs Hlen.
  assert (Hout : ∀ lo hi, ¬ lo ≤ hi →
            (∀ i, 0 ≤ i < len a → rd a i = v → lo ≤ i ≤ hi) →
            Some false = Some (bool_decide (v ∈ a))).
  { intros lo hi Hlh Hin. f_equal. symmetry. apply bool_decide_eq_false.
    intros (i & Hi & Hv)%elem_of_rd. specialize (Hin i Hi Hv). lia. }
  induction fuel as [|fuel IH]; intros lo hi Hl Hr Hfuel Hin.
  - cbn [IntSetUtils.has_loop].
    destruct (decide (lo ≤ hi)) as [Hlh|Hlh]; [lia|]. by eapply Hout.
  - cbn [IntSetUtils.has_loop].
    destruct (decide (lo ≤ hi)) as [Hlh|Hlh]; [|by eapply Hout].
    cbv zeta. rewrite ushr1_half by lia.
    assert (Hmid : lo ≤ (lo + hi) / 2 ≤ hi).
    { split; [apply Z.div_le_lower_bound|apply Z.div_le_upper_bound]; lia. }
    set (mid := (lo + hi) / 2) in *.
    destruct (decide (rd a mid = v)) as [Hv|Hv].
    { f_equal. symmetry. apply bool_decide_eq_true. apply elem_of_rd. exists mid. lia. }
    destruct (decide (rd a mid < v)) as [Hlt|Hlt].
    + apply IH; [lia|lia|lia|].
      intros i Hi Hiv. specialize (Hin i Hi Hiv). split; [|lia].
      destruct (decide (i < mid)) as [Him|Him].
      * pose proof (sorted_rd a i mid Hs). lia.
      * destruct (decide (i = mid)) as [->|]; [done|lia].
    + apply IH; [lia|lia|lia|].
      intros i Hi Hiv. specialize (Hin i Hi Hiv). split; [lia|].
      destruct (decide (mid < i)) as [Him|Him].
      * pose proof (sorted_rd a mid i Hs). lia.
      * destruct (decide (i = mid)) as [->|]; [done|lia].
Qed.

(** The fuel [has] passes is enough: the search always returns. *)
Lemma has_loop_fuel a v :
  StronglySorted Z.lt a → len a < 2 ^ 31 →
  IntSetUtils.has_loop (length a) a v 0 (len a - 1) = Some (bool_decide (v ∈ a)).
Proof.
  intros Hs Hlen. apply has_loop_spec; [done|done|lia|lia|unfold len; lia|].
  intros i Hi _. lia.
Qed.

Lemma has_elem_of (sortedArr : list Z) (value : Z) :
  StronglySorted Z.lt sortedArr → len sortedArr < 2 ^ 31 →
  IntSetUtils.has sortedArr value = true ↔ value ∈ sortedArr.
Proof.
  intros Hs Hlen. unfold IntSetUtils.has.
  rewrite has_loop_fuel by done. simpl. apply bool_decide_eq_true.
Qed.

(** X7.  [IntSetUtils.has] is a correct membership test on a strictly
    ascending array (of fewer than 2^31 elements, so that [left + right]
    stays an unsigned 32-bit integer): the binary search returns within
    [sortedArr.length] iterations, and it returns [true] exactly when the
    value occurs in the array. *)
Theorem has_ascending (sortedArr : list Z) (value : Z) :
  ascending sortedArr = true → len sortedArr < 2 ^ 31 →
  IntSetUtils.has_loop (length sortedArr) sortedArr value 0 (len sortedArr - 1)
    = Some (IntSetUtils.has sortedArr value) ∧
  (IntSetUtils.has sortedArr value = true ↔ value ∈ sortedArr).
Proof.
  intros Hs%ascending_sorted Hlen. split; [|by apply has_elem_of].
  unfold IntSetUtils.has. by rewrite has_loop_fuel.
Qed.

Lemma has_ascending_witness :
  IntSetUtils.has_loop (length [1; 5; 10; 20]) [1; 5; 10; 20] 10 0 (len [1; 5; 10; 20] - 1)
    = Some (IntSetUtils.has [1; 5; 10; 20] 10) ∧
  (IntSetUtils.has [1; 5; 10; 20] 10 = true ↔ 10 ∈ [1; 5; 10; 20]).
Proof. apply has_ascending; [reflexivity|vm_compute; reflexivity]. Defined.

(** ** [sortAndUnique] *)

Lemma sorted_rd_le l i j :
  StronglySorted Z.le l → 0 ≤ i → i ≤ j → j < len l → rd l i ≤ rd l j.
Proof.
  intros Hs. revert i j. induction Hs as [|x l Hs IH Hf]; intros i j Hi Hij Hj.
  - unfold len in Hj. simpl in Hj. lia.
  - destruct (decide (i = j)) as [->|Hne]; [lia|].
    unfold len in Hj. simpl in Hj.
    assert (Hrj : rd (x :: l) j = rd l (j - 1)).
    { unfold rd. rewrite !decide_True by lia.
      replace (Z.to_nat j) with (S (Z.to_nat (j - 1))) by lia. done. }
    rewrite Hrj. destruct (decide (i = 0)) as [->|Hne0].
    + change (rd (x :: l) 0) with x.
      rewrite Forall_forall in Hf. apply Hf.
      unfold rd. rewrite decide_True by lia.
      destruct (lookup_lt_is_Some_2 l (Z.to_nat (j - 1))) as [y Hy]; [lia|].
      rewrite Hy. simpl. by eapply list_elem_of_lookup_2.
    + assert (Hri : rd (x :: l) i = rd l (i - 1)).
      { unfold rd. rewrite !decide_True by lia.
        replace (Z.to_nat i) with (S (Z.to_nat (i - 1))) by lia. done. }
      rewrite Hri. apply IH; unfold len; lia.
Qed.

(** What the compaction loop of [sortAndUnique] has emitted after its
    first [n] iterations over the sorted array [s0]. *)
Fixpoint compact (s0 : list Z) (n : nat) : list Z :=
  match n with
  | O => []
  | S n =>
      compact s0 n ++
      (if decide (Z.of_nat n = 0 ∨ rd s0 (Z.of_nat n) ≠ rd s0 (Z.of_nat n - 1))
       then [rd s0 (Z.of_nat n)] else [])
  end.

Lemma compact_loop s0 :
  ∃ arr k,
    for_range 0 (len s0) (fun i '(rawArr, k) =>
      if decide (i = 0 ∨ rd rawArr i ≠ rd rawArr (i - 1))
      then (wr rawArr k (rd rawArr i), k + 1)
      else (rawArr, k)) (s0, 0) = (arr, k) ∧
    subarray arr 0 k = compact s0 (length s0) ∧ len arr = len s0.
Proof.
  pose proof (len_nonneg s0) as Hn.
  pose proof (for_range_ind (fun i '(arr, k) =>
    len arr = len s0 ∧ 0 ≤ k ≤ i ∧
    subarray arr 0 k = compact s0 (Z.to_nat i) ∧
    (∀ j, k ≤ j < len s0 → rd arr j = rd s0 j) ∧
    (1 ≤ i → rd arr (i - 1) = rd s0 (i - 1)))
    0 (len s0)
    (fun i '(rawArr, k) =>
      if decide (i = 0 ∨ rd rawArr i ≠ rd rawArr (i - 1))
      then (wr rawArr k (rd rawArr i), k + 1)
      else (rawArr, k)) (s0, 0) Hn) as H.
  destruct (for_range 0 (len s0) _ (s0, 0)) as [arr k].
  exists arr, k. split; [done|].
  destruct H as (Hl & Hk & Hs & _).
  - split_and!; try done; try lia.
  - intros i [arr' k'] Hi (Hl & Hk & Hs & Hrest & Hprev).
    assert (Hri : rd arr' i = rd s0 i) by (apply Hrest; lia).
    replace (Z.to_nat (i + 1)) with (S (Z.to_nat i)) by lia.
    cbn [compact]. rewrite Z2Nat.id by lia. rewrite Hri.
    destruct (decide (i = 0)) as [->|Hi0].
    + rewrite !decide_True by (by left).
      split_and!; try lia.
      * by rewrite len_wr.
      * rewrite subarray_snoc by lia. by rewrite Hs.
      * intros j Hj. rewrite rd_wr_ne by lia. apply Hrest. lia.
      * intros _. assert (k' = 0) as -> by lia. replace (0 + 1 - 1) with 0 by lia.
        rewrite rd_wr_eq by lia. done.
    + rewrite Hprev by lia.
      destruct (decide (rd s0 i = rd s0 (i - 1))) as [E|E].
      * rewrite !decide_False by (intros [?|?]; done).
        split_and!; try lia; try done.
        -- by rewrite app_nil_r.
        -- intros _. replace (i + 1 - 1) with i by lia. done.
      * rewrite !decide_True by (by right).
        split_and!; try lia.
        -- by rewrite len_wr.
        -- rewrite subarray_snoc by lia. by rewrite Hs.
        -- intros j Hj. rewrite rd_wr_ne by lia. apply Hrest. lia.
        -- intros _. replace (i + 1 - 1) with i by lia. rewrite rd_wr.
           case_decide; [done|done].
  - split; [|done]. rewrite Hs. f_equal. unfold len. lia.
Qed.

Lemma sorted_snoc (l : list Z) x :
  StronglySorted Z.lt l → Forall (fun y => y < x) l → StronglySorted Z.lt (l ++ [x]).
Proof.
  induction 1 as [|y l Hs IH Hf]; intros Hx; simpl.
  - repeat constructor.
  - apply Forall_cons in Hx as [Hy Hx]. constructor; [by apply IH|].
    apply Forall_app. split; [done|]. by constructor.
Qed.

Lemma compact_spec s0 :
  StronglySorted Z.le s0 → ∀ n, (n ≤ length s0)%nat →
  StronglySorted Z.lt (compact s0 n) ∧
  ∀ x, x ∈ compact s0 n ↔ ∃ j, 0 ≤ j < Z.of_nat n ∧ rd s0 j = x.
Proof.
  intros Hs. induction n as [|n IH]; intros Hn.
  - split; [constructor|]. intros x. simpl. rewrite elem_of_nil. split; [done|].
    intros (j & Hj & _). lia.
  - destruct IH as [IHs IHe]; [lia|]. cbn [compact].
    case_decide as Hd.
    + split.
      * apply sorted_snoc; [done|]. apply Forall_forall. intros y (j & Hj & <-)%IHe.
        destruct Hd as [Hd|Hd]; [lia|].
        assert (rd s0 j ≤ rd s0 (Z.of_nat n - 1)).
        { apply sorted_rd_le; [done|lia|lia|unfold len; lia]. }
        assert (rd s0 (Z.of_nat n - 1) ≤ rd s0 (Z.of_nat n)).
        { apply sorted_rd_le; [done|lia|lia|unfold len; lia]. }
        lia.
      * intros x. rewrite elem_of_app, IHe, list_elem_of_singleton. split.
        -- intros [(j & Hj & Hx)| ->]; [exists j; split; [lia|done]|].
           exists (Z.of_nat n). split; [lia|done].
        -- intros (j & Hj & Hx). destruct (decide (j = Z.of_nat n)) as [->|Hne].
           ++ by right.
           ++ left. exists j. split; [lia|done].
    + rewrite app_nil_r. split; [done|].
      assert (Hn0 : Z.of_nat n ≠ 0) by (intros E; apply Hd; by left).
      assert (Heq : rd s0 (Z.of_nat n) = rd s0 (Z.of_nat n - 1)).
      { destruct (decide (rd s0 (Z.of_nat n) = rd s0 (Z.of_nat n - 1))); [done|].
        exfalso. apply Hd. by right. }
      intros x. rewrite IHe. split.
      * intros (j & Hj & Hx). exists j. split; [lia|done].
      * intros (j & Hj & Hx). destruct (decide (j = Z.of_nat n)) as [->|Hne].
        -- exists (Z.of_nat n - 1). split; [lia|congruence].
        -- exists j. split; [lia|done].
Qed.

Lemma sortAndUnique_sorted rawArr :
  StronglySorted Z.lt (IntSetUtils.sortAndUnique rawArr) ∧
  ∀ x, x ∈ IntSetUtils.sortAndUnique rawArr ↔ x ∈ rawArr.
Proof.
  unfold IntSetUtils.sortAndUnique, IntSetUtils.sortAndUnique_inplace.
  destruct (decide (len rawArr ≤ 1)) as [Hl|Hl].
  - assert (subarray rawArr 0 (len rawArr) = rawArr) as ->.
    { unfold subarray, len. rewrite drop_0, Z.sub_0_r, Nat2Z.id. apply take_ge. lia. }
    split; [|done]. unfold len in Hl.
    destruct rawArr as [|x [|y l]]; [constructor|repeat constructor|simpl in Hl; lia].
  - set (s0 := IntSetUtils.array_sort rawArr).
    destruct (compact_loop s0) as (arr & k & -> & -> & _).
    assert (Hs : StronglySorted Z.le s0).
    { unfold s0, IntSetUtils.array_sort. apply StronglySorted_merge_sort; apply _. }
    assert (Hp : s0 ≡ₚ rawArr) by apply merge_sort_Permutation.
    destruct (compact_spec s0 Hs (length s0)) as [H1 H2]; [lia|].
    split; [done|]. intros x. rewrite H2, <- Hp, elem_of_rd. unfold len. done.
Qed.



(** X9.  An array that is already strictly ascending comes back unchanged
    from [IntSetUtils.sortAndUnique]; so normalising twice is normalising
    once. *)
Theorem sortAndUnique_fixed (rawArr : list Z) :
  (ascending rawArr = true → IntSetUtils.sortAndUnique rawArr = rawArr) ∧
  IntSetUtils.sortAndUnique (IntSetUtils.sortAndUnique rawArr)
    = IntSetUtils.sortAndUnique rawArr.
Proof.
  assert (Hfix : ∀ a, StronglySorted Z.lt a → IntSetUtils.sortAndUnique a = a).
  { intros a Ha. destruct (sortAndUnique_sorted a) as [H1 H2]. by apply sorted_ext. }
  split.
  - intros Ha%ascending_sorted. by apply Hfix.
  - apply Hfix. apply sortAndUnique_sorted.
Qed.

Lemma sortAndUnique_fixed_witness :
  IntSetUtils.sortAndUnique [1; 2; 5] = [1; 2; 5].
Proof. apply (proj1 (sortAndUnique_fixed [1; 2; 5])). reflexivity. Defined.

(** ** [PermutationSet]: comparisons *)

Lemma sorted_NoDup (l : list Z) : StronglySorted Z.lt l → NoDup l.
Proof.
  induction 1 as [|x l Hs IH Hf]; constructor; [|done].
  intros Hin. rewrite Forall_forall in Hf. specialize (Hf _ Hin). lia.
Qed.

Lemma forallb_seqZ (f : Z → bool) n :
  forallb f (seqZ 0 n) = true ↔ ∀ i, 0 ≤ i < n → f i = true.
Proof.
  rewrite forallb_forall. split.
  - intros H i Hi. apply H. apply list_elem_of_In, elem_of_seqZ. lia.
  - intros H i Hi%list_elem_of_In%elem_of_seqZ. apply H. lia.
Qed.

(** X10.  [isSuperSetOf] decides inclusion for normalised sets: for
    strictly ascending ID arrays (the receiver shorter than 2^31) it
    answers [true] exactly when every ID of [other] is an ID of [this]. *)
Theorem isSuperSetOf_inclusion (this other : PermutationSet) :
  ascending (_ids this) = true → ascending (_ids other) = true →
  len (_ids this) < 2 ^ 31 →
  PermSet.isSuperSetOf this other = true ↔ ∀ x, x ∈ _ids other → x ∈ _ids this.
Proof.
  intros HA HB Hlen. unfold PermSet.isSuperSetOf, PermSet.size. cbv zeta.
  assert (Hall : forallb (fun i => IntSetUtils.has (_ids this) (rd (_ids other) i))
                   (seqZ 0 (len (_ids other))) = true
                 ↔ ∀ x, x ∈ _ids other → x ∈ _ids this).
  { rewrite forallb_seqZ. split.
    - intros H x (i & Hi & <-)%elem_of_rd.
      apply has_elem_of; [by apply ascending_sorted|done|auto].
    - intros H i Hi. apply has_elem_of; [by apply ascending_sorted|done|].
      apply H, elem_of_rd. eauto. }
  case_decide as Hsz; [|done].
  split; [done|]. intros Hincl. exfalso.
  apply ascending_sorted, sorted_NoDup in HB.
  assert (length (_ids other) ≤ length (_ids this))%nat.
  { apply NoDup_incl_length; [by apply NoDup_ListNoDup|].
    intros x Hx%list_elem_of_In. by apply list_elem_of_In, Hincl. }
  unfold len in Hsz. lia.
Qed.

Lemma isSuperSetOf_inclusion_witness :
  PermSet.isSuperSetOf (new_PermutationSet [0; 1; 2; 5] true false)
                       (new_PermutationSet [1; 5] true false) = true
  ↔ ∀ x, x ∈ [1; 5] → x ∈ [0; 1; 2; 5].
Proof.
  apply (isSuperSetOf_inclusion (new_PermutationSet [0; 1; 2; 5] true false)
           (new_PermutationSet [1; 5] true false));
    [reflexivity|reflexivity|vm_compute; reflexivity].
Defined.

(** X11.  [equals] holds exactly when the two sets hold the same ID
    sequence; the [isGroup] flags play no part. *)
Theorem equals_same_ids (this other : PermutationSet) :
  PermSet.equals this other = true ↔ _ids this = _ids other.
Proof.
  unfold PermSet.equals, PermSet.size. cbv zeta. case_decide as Hsz.
  - split; [done|]. intros E. rewrite E in Hsz. done.
  - rewrite forallb_seqZ. split.
    + intros H. apply array_ext.
      * unfold len in Hsz. lia.
      * intros i Hi. specialize (H i Hi). by apply bool_decide_eq_true in H.
    + intros E i Hi. apply bool_decide_eq_true. by rewrite E.
Qed.

(** ** Number helpers *)

Lemma _gcd_loop a b :
  ∃ a', while_fuel (Z.abs_nat b)
          (fun '(a, b) => negb (b =? 0))
          (fun '(a, b) => let t := b in (t, Z.rem a b)) (a, b) = Some (a', 0) ∧
    Z.gcd a' 0 = Z.gcd a b ∧ (0 ≤ a → 0 ≤ b → 0 ≤ a').
Proof.
  destruct (while_fuel_inv
    (fun '(a', b') => Z.gcd a' b' = Z.gcd a b ∧ (0 ≤ a → 0 ≤ b → 0 ≤ a' ∧ 0 ≤ b'))
    (fun '(_, b') => Z.abs_nat b')
    (fun '(a, b) => negb (b =? 0))
    (fun '(a, b) => let t := b in (t, Z.rem a b))) with (Z.abs_nat b) (a, b)
    as ([a' b'] & Hw & [Hg Hpos] & Hc).
  - intros [a' b'] [Hg Hpos] Hc. apply negb_true_iff, Z.eqb_neq in Hc. cbv zeta.
    split; [split|].
    + rewrite <- Hg. rewrite (Z.gcd_comm a' b'). rewrite Z.gcd_comm. by apply Z.gcd_rem.
    + intros Ha Hb. destruct (Hpos Ha Hb). split; [done|]. apply Z.rem_nonneg; lia.
    + pose proof (Z.rem_bound_abs a' b' Hc). lia.
  - split; [done|]. intros; lia.
  - lia.
  - apply negb_false_iff, Z.eqb_eq in Hc. subst b'.
    exists a'. split; [done|]. split; [done|]. intros Ha Hb. by destruct (Hpos Ha Hb).
Qed.

Lemma _lcm_lcm a b : _lcm a b = Z.lcm a b.
Proof.
  unfold _lcm. case_decide as H0.
  - destruct H0 as [-> | ->]; [by rewrite Z.lcm_0_l|by rewrite Z.lcm_0_r].
  - unfold _gcd. destruct (_gcd_loop a b) as (a' & Hw & Hg & _).
    cbv zeta in Hw. rewrite Hw. rewrite Z.gcd_0_r in Hg.
    unfold Z.lcm. set (g := Z.gcd a b) in *.
    assert (Hgpos : 0 < g).
    { pose proof (Z.gcd_nonneg a b). unfold g.
      destruct (decide (Z.gcd a b = 0)) as [E|]; [|lia].
      apply Z.gcd_eq_0_l in E. lia. }
    destruct (Z.gcd_divide_r a b) as [q Hq]. fold g in Hq.
    assert (Hdiv : b / g = q) by (rewrite Hq; apply Z.div_mul; lia).
    rewrite Hdiv.
    assert (Hcases : a' = g ∨ a' = - g) by lia.
    destruct Hcases as [-> | ->].
    + replace (a * b) with (a * q * g)
        by (transitivity (a * (q * g)); [ring|by rewrite <- Hq]).
      rewrite Z.quot_mul by lia. done.
    + replace (a * b) with (- (a * q) * - g)
        by (transitivity (a * (q * g)); [ring|by rewrite <- Hq]).
      rewrite Z.quot_mul by lia. by rewrite Z.abs_opp.
Qed.

Lemma _lcm_pos a b : 1 ≤ a → 1 ≤ b → 1 ≤ _lcm a b.
Proof.
  intros Ha Hb. rewrite _lcm_lcm. pose proof (Z.lcm_nonneg a b).
  destruct (decide (Z.lcm a b = 0)) as [E|]; [|lia].
  apply Z.lcm_eq_0 in E. lia.
Qed.

(** X12.  [_gcd] is the greatest common divisor up to sign, for all
    integers, and exactly the gcd for non-negative arguments; in
    particular [_gcd a 0 = a] and [_gcd 0 0 = 0]. *)
Theorem _gcd_correct (a b : Z) :
  Z.abs (_gcd a b) = Z.gcd a b ∧ (0 ≤ a → 0 ≤ b → _gcd a b = Z.gcd a b) ∧ _gcd a 0 = a.
Proof.
  unfold _gcd. destruct (_gcd_loop a b) as (a' & Hw & Hg & Hpos).
  cbv zeta in Hw. rewrite Hw. rewrite Z.gcd_0_r in Hg. split_and!.
  - done.
  - intros Ha Hb. specialize (Hpos Ha Hb). lia.
  - reflexivity.
Qed.

(** X13.  [_lcm] is the least common multiple (non-negative, [0] when an
    argument is [0]), as long as the product [a * b] is a safe integer. *)
Theorem _lcm_correct (a b : Z) :
  Z.abs (a * b) < 2 ^ 53 → _lcm a b = Z.lcm a b.
Proof. intros _. apply _lcm_lcm. Qed.

Lemma _lcm_correct_witness : _lcm 4 6 = Z.lcm 4 6.
Proof. apply _lcm_correct. vm_compute. reflexivity. Defined.

Lemma pow_gt_1 p k : 2 ≤ p → 1 < p ^ k → 1 ≤ k.
Proof.
  intros Hp H. destruct (decide (k ≤ 0)) as [Hk|]; [|lia].
  destruct (decide (k = 0)) as [->|]; [simpl in H; lia|].
  rewrite Z.pow_neg_r in H by lia. lia.
Qed.

(** X14.  For a base [p >= 2], [_isPowerOfP] returns, and returns [true]
    exactly when [n <= 1] or [n] is a power of [p]: besides the powers it
    accepts [0] and every negative [n]. *)
Theorem _isPowerOfP_correct (fuel : nat) (n p : Z) :
  2 ≤ p → (Z.to_nat n ≤ fuel)%nat →
  ∃ b, _isPowerOfP fuel n p = Returns b ∧
       (b = true ↔ n ≤ 1 ∨ ∃ k, 0 ≤ k ∧ n = p ^ k).
Proof.
  intros Hp. revert n. induction fuel as [|fuel IH]; intros n Hfuel.
  - exists true. cbn [_isPowerOfP]. rewrite decide_False by lia.
    split; [done|]. split; [intros _; left; lia|done].
  - cbn [_isPowerOfP]. destruct (decide (n > 1)) as [Hn|Hn].
    2:{ exists true. split; [done|]. split; [intros _; left; lia|done]. }
    rewrite (decide_False (P := p = 0)) by lia.
    assert (Hrem : Z.rem n p = n mod p) by (apply Z.rem_mod_nonneg; lia).
    assert (Hquot : Z.quot n p = n / p) by (apply Z.quot_div_nonneg; lia).
    destruct (decide (Z.rem n p ≠ 0)) as [Hr|Hr].
    + exists false. split; [done|]. split; [done|].
      intros [?|(k & Hk & ->)]; [lia|]. exfalso. apply Hr. rewrite Hrem.
      assert (1 ≤ k) by (apply (pow_gt_1 p); lia).
      replace k with (1 + (k - 1)) by lia. rewrite Z.pow_add_r, Z.pow_1_r by lia.
      rewrite Z.mul_comm. apply Z.mod_mul. lia.
    + assert (Hr0 : n mod p = 0) by (rewrite <- Hrem; lia).
      assert (Hn' : n = p * (n / p)) by (apply Z.div_exact; lia).
      rewrite Hquot. set (q := n / p) in *.
      assert (Hq : 1 ≤ q < n) by nia.
      destruct (IH q) as (b & Hb & Hiff); [lia|].
      exists b. split; [done|]. rewrite Hiff. split.
      * intros [Hq1|(k & Hk & Hqk)]; right.
        -- exists 1. split; [lia|]. rewrite Z.pow_1_r. nia.
        -- exists (k + 1). split; [lia|]. rewrite Z.pow_add_r, Z.pow_1_r by lia. nia.
      * intros [?|(k & Hk & Hnk)]; [lia|]. right.
        assert (1 ≤ k) by (apply (pow_gt_1 p); lia).
        exists (k - 1). split; [lia|].
        replace k with (1 + (k - 1)) in Hnk by lia.
        rewrite Z.pow_add_r, Z.pow_1_r in Hnk by lia. nia.
Qed.

Lemma _isPowerOfP_correct_witness :
  ∃ b, _isPowerOfP 8 8 2 = Returns b ∧ (b = true ↔ 8 ≤ 1 ∨ ∃ k, 0 ≤ k ∧ 8 = 2 ^ k).
Proof. apply _isPowerOfP_correct; [lia|vm_compute; lia]. Defined.

(** X15.  The bases the documentation excludes: for [n > 1], base [1]
    never returns (the loop divides by one for ever) and base [0] throws
    a [RangeError]. *)
Theorem _isPowerOfP_bad_base (fuel : nat) (n : Z) :
  n > 1 →
  _isPowerOfP fuel n 1 = OutOfFuel ∧
  _isPowerOfP (S fuel) n 0 = Throws "RangeError: Division by zero".
Proof.
  intros Hn. split.
  - induction fuel as [|fuel IH]; cbn [_isPowerOfP]; rewrite decide_True by done; [done|].
    rewrite (decide_False (P := 1 = 0)) by lia.
    rewrite Z.rem_1_r. rewrite decide_False by (intros H; by apply H).
    rewrite Z.quot_1_r. exact IH.
  - cbn [_isPowerOfP]. rewrite decide_True by done. by rewrite decide_True.
Qed.

Lemma _isPowerOfP_bad_base_witness :
  _isPowerOfP 100 4 1 = OutOfFuel ∧
  _isPowerOfP 101 4 0 = Throws "RangeError: Division by zero".
Proof. apply _isPowerOfP_bad_base. lia. Defined.

(** ** Trial division *)

Lemma _isSmallPrime_loop_spec n :
  3 < n → ∀ fuel i,
  5 ≤ i → i mod 6 = 5 → (Z.to_nat (n + 1 - i) ≤ fuel)%nat →
  (∀ j, 5 ≤ j < i → j mod 6 = 5 → ¬ (j | n) ∧ ¬ (j + 2 | n)) →
  ∃ b, _isSmallPrime_loop fuel n i = Some b ∧
    (b = true ↔ ∀ j, 5 ≤ j → j mod 6 = 5 → j * j ≤ n → ¬ (j | n) ∧ ¬ (j + 2 | n)).
Proof.
  intros Hn.
  assert (Hdone : ∀ i, ¬ i * i ≤ n → 5 ≤ i →
            (∀ j, 5 ≤ j < i → j mod 6 = 5 → ¬ (j | n) ∧ ¬ (j + 2 | n)) →
            ∀ j, 5 ≤ j → j mod 6 = 5 → j * j ≤ n → ¬ (j | n) ∧ ¬ (j + 2 | n)).
  { intros i Hsq Hi Hinv j Hj Hj6 Hjn. apply Hinv; [|done]. nia. }
  induction fuel as [|fuel IH]; intros i Hi Hi6 Hfuel Hinv.
  - cbn [_isSmallPrime_loop]. destruct (decide (i * i ≤ n)) as [Hsq|Hsq]; [nia|].
    exists true. split; [done|]. split; [intros _; by eapply Hdone|done].
  - cbn [_isSmallPrime_loop]. destruct (decide (i * i ≤ n)) as [Hsq|Hsq].
    2:{ exists true. split; [done|]. split; [intros _; by eapply Hdone|done]. }
    destruct (decide (Z.rem n i = 0 ∨ Z.rem n (i + 2) = 0)) as [Hd|Hd];
      rewrite !Z.rem_divide in Hd by lia.
    + exists false. split; [done|]. split; [done|]. intros Hall.
      destruct (Hall i Hi Hi6 Hsq) as [H1 H2]. tauto.
    + destruct (IH (i + 6)) as (b & Hb & Hiff); [lia| |lia| |].
      * rewrite <- Hi6. replace (i + 6) with (i + 1 * 6) by lia. apply Z.mod_add. lia.
      * intros j Hj Hj6. destruct (decide (j < i)) as [Hlt|Hge]; [apply Hinv; [lia|done]|].
        assert (j = i) as ->.
        { pose proof (Z.div_mod j 6 ltac:(lia)) as Ej.
          pose proof (Z.div_mod i 6 ltac:(lia)) as Ei.
          rewrite Hj6 in Ej. rewrite Hi6 in Ei. lia. }
        tauto.
      * exists b. done.
Qed.

(** X16.  [_isSmallPrime] is a primality test: for every integer [n] it
    answers [true] exactly when [n] is prime. *)
Theorem _isSmallPrime_correct (n : Z) : _isSmallPrime n = true ↔ prime n.
Proof.
  unfold _isSmallPrime.
  destruct (decide (n ≤ 1)) as [H1|H1].
  { split; [done|]. intros Hp%prime_ge_2. lia. }
  destruct (decide (n ≤ 3)) as [H3|H3].
  { split; [intros _|done].
    assert (n = 2 ∨ n = 3) as [-> | ->] by lia; [apply prime_2|apply prime_3]. }
  destruct (decide (Z.rem n 2 = 0 ∨ Z.rem n 3 = 0)) as [Hd|Hd];
    rewrite !Z.rem_divide in Hd by lia.
  { split; [done|]. intros Hp%prime_alt. destruct Hp as [_ Hp]. exfalso.
    destruct Hd as [Hd|Hd]; [apply (Hp 2)|apply (Hp 3)]; (lia || done). }
  destruct (_isSmallPrime_loop_spec n) with (fuel := Z.to_nat n) (i := 5)
    as (b & -> & Hiff); [lia|lia|done|lia|intros; lia|].
  simpl. rewrite Hiff. split.
  - intros Hall. apply prime_alt. split; [lia|]. intros d Hd1 Hdn.
    destruct Hdn as [e He].
    (* the smaller of the two cofactors *)
    assert (∃ c, 1 < c ∧ c * c ≤ n ∧ (c | n)) as (c & Hc1 & Hcc & Hcn).
    { assert (1 < e) by nia.
      destruct (decide (d ≤ e)).
      - exists d. split; [lia|]. split; [nia|]. by exists e.
      - exists e. split; [lia|]. split; [nia|]. exists d. lia. }
    assert (Hc2 : ¬ (2 | c)).
    { intros H. apply Hd. left. by eapply Z.divide_trans. }
    assert (Hc3 : ¬ (3 | c)).
    { intros H. apply Hd. right. by eapply Z.divide_trans. }
    pose proof (Z.div_mod c 6 ltac:(lia)) as Hc6.
    pose proof (Z.mod_pos_bound c 6 ltac:(lia)) as Hr.
    set (q := c / 6) in *. set (r := c mod 6) in *.
    assert (r = 1 ∨ r = 5) as [Hr1|Hr5].
    { destruct (decide (r = 0)); [exfalso; apply Hc2; exists (3 * q); lia|].
      destruct (decide (r = 2)); [exfalso; apply Hc2; exists (3 * q + 1); lia|].
      destruct (decide (r = 3)); [exfalso; apply Hc3; exists (2 * q + 1); lia|].
      destruct (decide (r = 4)); [exfalso; apply Hc2; exists (3 * q + 2); lia|].
      lia. }
    + destruct (Hall (c - 2)) as [_ H2].
      * lia.
      * replace (c - 2) with (5 + (q - 1) * 6) by lia.
        rewrite Z.mod_add by lia. done.
      * nia.
      * apply H2. by replace (c - 2 + 2) with c by lia.
    + destruct (Hall c) as [H2 _]; [lia|done|done|]. by apply H2.
  - intros Hp%prime_alt j Hj Hj6 Hjj. destruct Hp as [_ Hp].
    split; apply Hp; nia.
Qed.

(** ** The store: construction, interning, arenas *)

Lemma new_repo_fields d cap :
  0 ≤ d → d + 1 ≤ 2 * INITIAL_TRIE_SLOTS → 1 ≤ cap →
  globalDegree (new_repo d cap) = d ∧ count (new_repo d cap) = 1.
Proof.
  intros Hd Hfit Hcap. unfold new_repo.
  assert (Hslots : 0 ≤ INITIAL_TRIE_SLOTS) by (vm_compute; discriminate).
  generalize dependent INITIAL_TRIE_SLOTS. intros slots Hfit Hslots.
  set (s0 := mkRepo d 0 cap (new_array (cap * d)) (d + 1) (new_array slots) 0 0).
  assert (Hlen0 : len (new_array slots) = slots) by (by apply len_new_array).
  destruct (t_alloc_spec d (new_array slots) 0) as (buf1 & Ha & Hl1 & _ & Hnew1).
  { lia. }
  { rewrite Hlen0. lia. }
  { rewrite Hlen0. lia. }
  rewrite _allocateNode_eq by reflexivity.
  change (t_alloc (globalDegree s0) (trieBuffer s0) (trieFreePtr s0))
    with (t_alloc d (new_array slots) 0).
  rewrite Ha. cbn [fst snd].
  destruct (trie_ok_root d buf1) as [Htk Hio]; [lia|lia|intros; apply Hnew1; lia|].
  set (s1 := set_trie s0 buf1 (0 + (d + 1))).
  assert (Hok1 : store_ok s1).
  { split.
    - reflexivity.
    - exact Htk.
    - apply Hio.
    - change (0 ≤ 0 ≤ cap). lia.
    - exact Hcap.
    - change (len (new_array (cap * d)) = cap * d). apply len_new_array. nia. }
  destruct (register_noup s1 []) as
    (s' & id & Hr & Hok' & Hd' & Hi & Hid & Hg & Hc & Hgo & Hold & Hnew).
  { exact Hok1. }
  { change (0 ≤ d). lia. }
  { apply Forall_nil. exact I. }
  rewrite Hr. change (count s1) with 0 in *.
  destruct Hnew as [-> Hc']; [lia|].
  split.
  - change (globalDegree s' = d). by rewrite Hd'.
  - change (count s' = 1). lia.
Qed.

(** X17.  A store built by the constructor is well formed and holds one
    permutation: the identity of the initial degree, under ID 0. *)
Theorem new_repo_identity (d cap : Z) :
  0 ≤ d → d + 1 ≤ 2 * INITIAL_TRIE_SLOTS → 1 ≤ cap →
  wf (new_repo d cap) ∧ globalDegree (new_repo d cap) = d ∧
  count (new_repo d cap) = 1 ∧ identity (new_repo d cap) = 0 ∧
  get (new_repo d cap) 0 = seqZ 0 d.
Proof.
  intros Hd Hfit Hcap.
  pose proof (wf_new_repo d cap Hd Hfit Hcap) as Hwf.
  destruct (new_repo_fields d cap Hd Hfit Hcap) as [Hdeg Hc].
  split_and!; try done.
  - apply Hwf.
  - rewrite (wf_id_image _ Hwf). by rewrite Hdeg.
Qed.

Lemma new_repo_identity_witness :
  wf (new_repo 4 1024) ∧ globalDegree (new_repo 4 1024) = 4 ∧
  count (new_repo 4 1024) = 1 ∧ identity (new_repo 4 1024) = 0 ∧
  get (new_repo 4 1024) 0 = seqZ 0 4.
Proof.
  apply new_repo_identity; [lia|vm_compute; discriminate|lia].
Defined.

(** X18.  Interning and reading back, on a well-formed store and for an
    array whose entries are points of the degree after the call
    ([valid_image]): after [register], [get] of the returned ID is the
    image padded with fixed points to the degree of the store, and every
    ID assigned before still reads as its old image, padded to that
    degree. *)
Theorem register_get_roundtrip (s : PermutationRepository) (a : list Z) :
  wf s → valid_image s a = true →
  ∃ s' id, register s a = (s', id) ∧ wf s' ∧
    globalDegree s' = degree_after s a ∧ 0 ≤ id < count s' ∧
    get s' id = pad (degree_after s a) a ∧
    ∀ i, 0 ≤ i < count s → get s' i = pad (degree_after s a) (get s i).
Proof.
  intros Hwf Hv.
  destruct (register_wf s a Hwf Hv)
    as (s' & id & Hr & Hwf' & Hd & Hid & Hg & Hc & Hgo & _).
  exists s', id. done.
Qed.

Lemma register_get_roundtrip_witness :
  ∃ s' id, register globalRepo0 [1; 0] = (s', id) ∧ wf s' ∧
    globalDegree s' = degree_after globalRepo0 [1; 0] ∧ 0 ≤ id < count s' ∧
    get s' id = pad (degree_after globalRepo0 [1; 0]) [1; 0] ∧
    ∀ i, 0 ≤ i < count globalRepo0 →
      get s' i = pad (degree_after globalRepo0 [1; 0]) (get globalRepo0 i).
Proof.
  apply register_get_roundtrip.
  - apply wf_new_repo; [lia|vm_compute; discriminate|lia].
  - vm_compute. reflexivity.
Defined.

(** X19.  IDs are handed out densely and only for new images, on a
    well-formed store and for an array whose entries are points of the
    degree after the call ([valid_image]): [register] returns an ID below
    the old count exactly when the padded image was stored already, and
    then the count stays; otherwise the ID is the old count and the count
    grows by one. *)
Theorem register_fresh_or_known (s : PermutationRepository) (a : list Z) :
  wf s → valid_image s a = true →
  ∃ s' id, register s a = (s', id) ∧
    (id < count s ↔
       ∃ i, 0 ≤ i < count s ∧ pad (degree_after s a) (get s i) = pad (degree_after s a) a) ∧
    (id < count s → count s' = count s) ∧
    (¬ id < count s → id = count s ∧ count s' = count s + 1).
Proof.
  intros Hwf Hv.
  destruct (register_wf s a Hwf Hv)
    as (s' & id & Hr & Hwf' & Hd & Hid & Hg & Hc & Hgo & Hold & Hnew).
  exists s', id. split; [done|]. split_and!.
  - split.
    + intros Hlt. exists id. split; [lia|]. rewrite <- Hgo by lia. done.
    + intros (i & Hi & E). rewrite <- Hgo, <- Hg in E by done.
      assert (i = id) as <-; [|lia].
      apply (store_img_inj s'); [apply Hwf'|lia|lia|done].
  - done.
  - intros Hge. apply Hnew. lia.
Qed.

Lemma register_fresh_or_known_witness :
  ∃ s' id, register globalRepo0 [1; 0] = (s', id) ∧
    (id < count globalRepo0 ↔
       ∃ i, 0 ≤ i < count globalRepo0 ∧
         pad (degree_after globalRepo0 [1; 0]) (get globalRepo0 i)
         = pad (degree_after globalRepo0 [1; 0]) [1; 0]) ∧
    (id < count globalRepo0 → count s' = count globalRepo0) ∧
    (¬ id < count globalRepo0 →
       id = count globalRepo0 ∧ count s' = count globalRepo0 + 1).
Proof.
  apply register_fresh_or_known.
  - apply wf_new_repo; [lia|vm_compute; discriminate|lia].
  - vm_compute. reflexivity.
Defined.

(** X20.  Two images get the same ID exactly when their padded images are
    equal: on a well-formed store, with [a] (entries points of the degree
    after the call, [valid_image]) interned first and [b] (no longer than
    the degree then, entries points of it) after it, the two IDs agree iff
    [b] padded equals [a] padded. *)
Theorem register_same_id_iff (s : PermutationRepository) (a b : list Z) :
  wf s → valid_image s a = true →
  len b ≤ degree_after s a → points (degree_after s a) b →
  ∀ s1 ida s2 idb,
    register s a = (s1, ida) → register s1 b = (s2, idb) →
    (idb = ida ↔ pad (degree_after s a) b = pad (degree_after s a) a).
Proof.
  intros Hwf Hv Hlb Hpb s1 ida s2 idb Ha Hb.
  destruct (register_wf s a Hwf Hv)
    as (s1' & ida' & Hr & Hwf1 & Hd & Hid & Hg & Hc & Hgo & _).
  rewrite Ha in Hr. injection Hr as <- <-.
  rewrite <- Hd in *.
  destruct (register_noup s1 b (wf_ok _ Hwf1) Hlb Hpb)
    as (s2' & idb' & Hr2 & Hok2 & Hd2 & _ & Hid2 & Hg2 & Hc2 & Hgo2 & _).
  rewrite Hb in Hr2. injection Hr2 as <- <-.
  rewrite <- Hg2, <- Hg, <- (Hgo2 ida) by lia. split.
  - by intros ->.
  - intros E. apply (store_img_inj s2); [done|lia|lia|done].
Qed.

Lemma register_same_id_iff_witness :
  snd (register (fst (register globalRepo0 [1; 0; 2; 3])) [1; 0])
    = snd (register globalRepo0 [1; 0; 2; 3])
  ↔ pad (degree_after globalRepo0 [1; 0; 2; 3]) [1; 0]
    = pad (degree_after globalRepo0 [1; 0; 2; 3]) [1; 0; 2; 3].
Proof.
  destruct (register globalRepo0 [1; 0; 2; 3]) as [s1 ida] eqn:E1. cbn [fst snd].
  destruct (register s1 [1; 0]) as [s2 idb] eqn:E2. cbn [snd].
  apply (register_same_id_iff globalRepo0 [1; 0; 2; 3] [1; 0]) with (s1 := s1) (s2 := s2).
  - apply wf_new_repo; [lia|vm_compute; discriminate|lia].
  - vm_compute. reflexivity.
  - vm_compute. discriminate.
  - repeat constructor; vm_compute; discriminate || reflexivity.
  - exact E1.
  - exact E2.
Defined.

Lemma wf_frame s s' :
  store_ok s' → wf s → identity s' = identity s → count s' = count s →
  globalDegree s' = globalDegree s → get s' 0 = get s 0 → wf s'.
Proof.
  intros Hok [_ Hi Hc H0] Ei Ec Ed Eg. split; [done|congruence|lia|].
  rewrite Eg, Ed. done.
Qed.

(** X21.  Growing the permutation pool doubles the capacity and changes
    nothing a caller can read: the store stays well formed, and degree,
    count and every stored image are as before. *)
Theorem _expandPermCapacity_preserves (s : PermutationRepository) :
  wf s →
  wf (_expandPermCapacity s) ∧
  permCapacity (_expandPermCapacity s) = permCapacity s * 2 ∧
  len (permBuffer (_expandPermCapacity s)) = permCapacity s * 2 * globalDegree s ∧
  globalDegree (_expandPermCapacity s) = globalDegree s ∧
  count (_expandPermCapacity s) = count s ∧
  ∀ i, 0 ≤ i < count s → get (_expandPermCapacity s) i = get s i.
Proof.
  intros Hwf.
  destruct (_expandPermCapacity_spec s (wf_ok _ Hwf))
    as (Hok & Hd & Hc & Hi & Hb & HF & Hcap & Hg).
  split_and!; try done.
  - apply (wf_frame s); try done. apply Hg. pose proof (wf_count _ Hwf). lia.
  - rewrite (so_pb _ Hok). rewrite Hd. done.
Qed.

Lemma _expandPermCapacity_preserves_witness :
  wf (_expandPermCapacity globalRepo0) ∧
  permCapacity (_expandPermCapacity globalRepo0) = permCapacity globalRepo0 * 2 ∧
  len (permBuffer (_expandPermCapacity globalRepo0))
    = permCapacity globalRepo0 * 2 * globalDegree globalRepo0 ∧
  globalDegree (_expandPermCapacity globalRepo0) = globalDegree globalRepo0 ∧
  count (_expandPermCapacity globalRepo0) = count globalRepo0 ∧
  ∀ i, 0 ≤ i < count globalRepo0 →
    get (_expandPermCapacity globalRepo0) i = get globalRepo0 i.
Proof.
  apply _expandPermCapacity_preserves.
  apply wf_new_repo; [lia|vm_compute; discriminate|lia].
Defined.

(** X22.  [_allocateNode] on a well-formed store returns the old free
    pointer, advances the free pointer by one node, leaves every cell of
    the new node at [-1] and every cell below it as it was, and keeps the
    arena at least as long as the free pointer. *)
Theorem _allocateNode_fresh (s : PermutationRepository) :
  wf s →
  ∃ s' ptr, _allocateNode s = (s', ptr) ∧
    ptr = trieFreePtr s ∧ trieFreePtr s' = ptr + trieNodeSize s ∧
    trieFreePtr s' ≤ len (trieBuffer s') ∧
    (∀ j, ptr ≤ j < ptr + trieNodeSize s → rd (trieBuffer s') j = -1) ∧
    (∀ j, 0 ≤ j < ptr → rd (trieBuffer s') j = rd (trieBuffer s) j) ∧
    permBuffer s' = permBuffer s ∧ count s' = count s.
Proof.
  intros Hwf. pose proof (wf_ok _ Hwf) as Hok.
  pose proof (so_trie _ Hok) as Htk. pose proof (so_size _ Hok) as Hsz.
  pose proof (tk_deg _ _ _ Htk). pose proof (tk_root _ _ _ Htk). pose proof (tk_len _ _ _ Htk).
  destruct (t_alloc_spec (globalDegree s) (trieBuffer s) (trieFreePtr s))
    as (buf' & Ha & Hl & Hold & Hnew); [lia..|].
  rewrite _allocateNode_eq, Ha by done. cbn [fst snd].
  eexists _, _. split; [reflexivity|]. rewrite Hsz.
  split_and!; try done.
Qed.

Lemma _allocateNode_fresh_witness :
  ∃ s' ptr, _allocateNode globalRepo0 = (s', ptr) ∧
    ptr = trieFreePtr globalRepo0 ∧ trieFreePtr s' = ptr + trieNodeSize globalRepo0 ∧
    trieFreePtr s' ≤ len (trieBuffer s') ∧
    (∀ j, ptr ≤ j < ptr + trieNodeSize globalRepo0 → rd (trieBuffer s') j = -1) ∧
    (∀ j, 0 ≤ j < ptr → rd (trieBuffer s') j = rd (trieBuffer globalRepo0) j) ∧
    permBuffer s' = permBuffer globalRepo0 ∧ count s' = count globalRepo0.
Proof.
  apply _allocateNode_fresh.
  apply wf_new_repo; [lia|vm_compute; discriminate|lia].
Defined.
(** ** Composition and inversion in the store *)

(** The image of [f∘g]: position [k] holds [f[g[k]]]. *)
Definition compose (f g : list Z) : list Z := (fun v => rd f v) <$> g.

(** [s'] is [s] after interning more permutations of the same degree. *)
Definition extends (s s' : PermutationRepository) : Prop :=
  wf s' ∧ globalDegree s' = globalDegree s ∧ count s ≤ count s' ∧
  ∀ i, 0 ≤ i < count s → get s' i = get s i.

Lemma extends_refl s : wf s → extends s s.
Proof. intros H. split_and!; [done|done|lia|done]. Qed.

Lemma extends_trans s1 s2 s3 : extends s1 s2 → extends s2 s3 → extends s1 s3.
Proof.
  intros (H1 & Hd1 & Hc1 & Hg1) (H2 & Hd2 & Hc2 & Hg2).
  split_and!; [done|congruence|lia|].
  intros i Hi. rewrite Hg2 by lia. by apply Hg1.
Qed.

Lemma rd_compose f g k : 0 ≤ k < len g → rd (compose f g) k = rd f (rd g k).
Proof.
  intros Hk. unfold len in Hk. unfold compose. unfold rd at 1.
  rewrite decide_True by lia.
  rewrite list_lookup_fmap, lookup_rd by lia. simpl. do 2 f_equal. lia.
Qed.

Lemma length_compose f g : length (compose f g) = length g.
Proof. unfold compose. by rewrite length_fmap. Qed.

Lemma wf_image s i :
  wf s → 0 ≤ i < count s →
  len (get s i) = globalDegree s ∧ 0 ≤ globalDegree s ∧
  ∀ k, 0 ≤ k < globalDegree s → 0 ≤ rd (get s i) k < globalDegree s.
Proof.
  intros Hwf Hi. pose proof (wf_ok _ Hwf) as Hok.
  pose proof (tk_deg _ _ _ (so_trie _ Hok)) as HN.
  destruct (io_img _ _ _ _ _ (so_ids _ Hok) i Hi) as [Hl Hp].
  split; [unfold len; lia|]. split; [done|].
  intros k Hk. unfold points in Hp. rewrite Forall_forall in Hp. apply Hp.
  apply elem_of_rd. exists k. split; [unfold len; lia|done].
Qed.

Lemma valid_image_points s a :
  wf s → len a ≤ globalDegree s →
  (∀ k, 0 ≤ k < len a → 0 ≤ rd a k < globalDegree s) →
  valid_image s a = true.
Proof.
  intros Hwf Hl Hp. apply valid_image_spec. pose proof (wf_ok _ Hwf) as Hok.
  pose proof (so_trie _ Hok) as Htk.
  pose proof (tk_root _ _ _ Htk). pose proof (tk_len _ _ _ Htk).
  unfold degree_after, fits. rewrite Z.max_l by lia.
  pose proof (len_nonneg (trieBuffer s)). split; [|lia].
  apply Forall_forall. intros x (k & Hk & <-)%elem_of_rd. by apply Hp.
Qed.

(** Interning an array of full length on a well-formed store. *)
Lemma register_full s a :
  wf s → len a = globalDegree s →
  (∀ k, 0 ≤ k < globalDegree s → 0 ≤ rd a k < globalDegree s) →
  ∃ s' c, register s a = (s', c) ∧ extends s s' ∧ 0 ≤ c < count s' ∧ get s' c = a.
Proof.
  intros Hwf Hl Hp.
  assert (Hv : valid_image s a = true).
  { apply valid_image_points; [done|lia|]. intros k Hk. apply Hp. lia. }
  destruct (register_wf s a Hwf Hv)
    as (s' & c & Hr & Hwf' & Hd & Hc & Hg & Hcnt & Hgo & _).
  assert (Hda : degree_after s a = globalDegree s) by (unfold degree_after; lia).
  rewrite Hda in *. exists s', c. split; [done|]. split_and!; try done; try lia.
  - split_and!; try done. intros i Hi. rewrite Hgo by done.
    apply pad_full. by apply wf_image.
  - rewrite Hg. by apply pad_full.
Qed.

Lemma compose_id_l N g :
  (∀ k, 0 ≤ k < len g → 0 ≤ rd g k < N) → compose (seqZ 0 N) g = g.
Proof.
  intros Hp. apply array_ext; [apply length_compose|].
  intros k Hk. unfold len in Hk. rewrite length_compose in Hk.
  rewrite rd_compose by (unfold len; lia). rewrite rd_seqZ; [lia|].
  apply Hp. unfold len. lia.
Qed.

Lemma compose_id_r N f : len f = N → compose f (seqZ 0 N) = f.
Proof.
  intros Hl. pose proof (len_nonneg f).
  assert (Hls : len (seqZ 0 N) = N) by (unfold len; rewrite length_seqZ; lia).
  apply array_ext.
  - rewrite length_compose, length_seqZ. unfold len in Hl. lia.
  - intros k Hk. unfold len in Hk. rewrite length_compose in Hk. fold (len (seqZ 0 N)) in Hk.
    rewrite rd_compose by lia. rewrite rd_seqZ by lia. done.
Qed.

Lemma multiply_spec s a b :
  wf s → 0 ≤ a < count s → 0 ≤ b < count s →
  ∃ s' c, multiply s a b = (s', c) ∧ extends s s' ∧ 0 ≤ c < count s' ∧
    get s' c = compose (get s a) (get s b).
Proof.
  intros Hwf Ha Hb.
  destruct (wf_image s a Hwf Ha) as (Hla & HN & Hpa).
  destruct (wf_image s b Hwf Hb) as (Hlb & _ & Hpb).
  unfold multiply. rewrite (wf_identity _ Hwf).
  destruct (decide (a = 0)) as [->|Ha0].
  { exists s, b. split; [done|]. split; [by apply extends_refl|]. split; [done|].
    rewrite (wf_id_image _ Hwf). symmetry. apply compose_id_l.
    intros k Hk. apply Hpb. lia. }
  destruct (decide (b = 0)) as [->|Hb0].
  { exists s, a. split; [done|]. split; [by apply extends_refl|]. split; [done|].
    rewrite (wf_id_image _ Hwf). symmetry. by apply compose_id_r. }
  set (N := globalDegree s) in *.
  set (res := for_range 0 N _ (new_array N)).
  assert (Hres : res = compose (get s a) (get s b)).
  { assert (Hlen : len res = N ∧ ∀ k, 0 ≤ k < N →
              rd res k = rd (permBuffer s) (a * N + rd (permBuffer s) (b * N + k))).
    { unfold res. apply (for_range_ind (fun i r =>
        len r = N ∧ ∀ k, 0 ≤ k < i → rd r k = rd (permBuffer s) (a * N + rd (permBuffer s) (b * N + k))));
        [done| |].
      - split; [by apply len_new_array|]. intros; lia.
      - intros i r Hi [Hl IH]. split; [by rewrite len_wr|].
        intros k Hk. rewrite rd_wr. case_decide as E; [by destruct E as [-> _]|].
        apply IH. destruct (decide (k = i)) as [->|]; [|lia]. exfalso. apply E. lia. }
    destruct Hlen as [Hlen Hrd]. apply array_ext.
    - rewrite length_compose. unfold len in *. lia.
    - intros k Hk. rewrite Hrd by lia. rewrite rd_compose by lia.
      rewrite <- (rd_get s b) by (fold N; lia).
      rewrite <- (rd_get s a); [done|lia|]. apply Hpb. lia. }
  rewrite Hres.
  destruct (register_full s (compose (get s a) (get s b))) as (s' & c & Hr & He & Hc & Hg).
  - done.
  - unfold len. rewrite length_compose. apply Hlb.
  - intros k Hk. rewrite rd_compose by lia. apply Hpa, Hpb. done.
  - exists s', c. done.
Qed.

(** An image without repeated entries is injective and onto. *)
Lemma NoDup_rd_inj (l : list Z) j k :
  NoDup l → 0 ≤ j < len l → 0 ≤ k < len l → rd l j = rd l k → j = k.
Proof.
  intros Hnd Hj Hk E. unfold len in *.
  assert (Z.to_nat j = Z.to_nat k); [|lia].
  eapply NoDup_lookup; [done|..].
  - rewrite lookup_rd by lia. rewrite Z2Nat.id by lia. reflexivity.
  - rewrite lookup_rd by lia. rewrite Z2Nat.id by lia. by rewrite E.
Qed.

Lemma perm_onto (l : list Z) N v :
  NoDup l → len l = N → (∀ k, 0 ≤ k < N → 0 ≤ rd l k < N) →
  0 ≤ v < N → ∃ k, 0 ≤ k < N ∧ rd l k = v.
Proof.
  intros Hnd Hl Hp Hv.
  assert (Hin : v ∈ l).
  { apply list_elem_of_In.
    apply (NoDup_length_incl (l := l) (l' := seqZ 0 N)).
    - by apply NoDup_ListNoDup.
    - rewrite length_seqZ. unfold len in Hl. lia.
    - intros x (k & Hk & <-)%list_elem_of_In%elem_of_rd.
      apply list_elem_of_In, elem_of_seqZ. rewrite Hl in Hk. specialize (Hp k Hk). lia.
    - apply list_elem_of_In, elem_of_seqZ. lia. }
  apply elem_of_rd in Hin as (k & Hk & E). exists k. split; [lia|done].
Qed.

Lemma inverse_spec s a :
  wf s → 0 ≤ a < count s → NoDup (get s a) →
  ∃ s' c, inverse s a = (s', c) ∧ extends s s' ∧ 0 ≤ c < count s' ∧
    (∀ k, 0 ≤ k < globalDegree s → rd (get s' c) (rd (get s a) k) = k) ∧
    (∀ v, 0 ≤ v < globalDegree s → rd (get s a) (rd (get s' c) v) = v).
Proof.
  intros Hwf Ha Hnd.
  destruct (wf_image s a Hwf Ha) as (Hla & HN & Hpa).
  unfold inverse. rewrite (wf_identity _ Hwf).
  destruct (decide (a = 0)) as [->|Ha0].
  { exists s, 0. split; [done|]. split; [by apply extends_refl|]. split; [done|].
    rewrite (wf_id_image _ Hwf).
    split; intros k Hk; rewrite (rd_seqZ 0 _ k) by lia; rewrite rd_seqZ by lia; lia. }
  set (N := globalDegree s) in *.
  set (res := for_range 0 N _ (new_array N)).
  assert (Hres : len res = N ∧ (∀ k, 0 ≤ k < N → rd res (rd (get s a) k) = k) ∧
                 ∀ v, 0 ≤ v < N → 0 ≤ rd res v < N).
  { unfold res. apply (for_range_ind (fun i r =>
      len r = N ∧ (∀ k, 0 ≤ k < i → rd r (rd (get s a) k) = k) ∧
      ∀ v, 0 ≤ v < N → 0 ≤ rd r v < N)); [done| |].
    - split; [by apply len_new_array|]. split; [intros; lia|].
      intros v Hv. rewrite rd_new_array. lia.
    - intros i r Hi (Hl & IH & Hr).
      rewrite <- (rd_get s a) by (fold N; lia).
      split; [by rewrite len_wr|]. split.
      + intros k Hk. rewrite rd_wr, Hl.
        destruct (decide (k = i)) as [->|Hne].
        * rewrite decide_True; [done|]. split; [done|]. apply Hpa. lia.
        * rewrite decide_False; [apply IH; lia|].
          intros [E _]. apply Hne. symmetry. apply (NoDup_rd_inj (get s a)); [done|lia|lia|done].
      + intros v Hv. rewrite rd_wr. case_decide; [lia|by apply Hr]. }
  destruct Hres as (Hlen & Hleft & Hrange).
  destruct (register_full s res Hwf Hlen Hrange) as (s' & c & Hr & He & Hc & Hg).
  exists s', c. split; [done|]. split; [done|]. split; [done|]. rewrite Hg.
  split; [done|].
  intros v Hv. destruct (perm_onto (get s a) N v Hnd Hla Hpa Hv) as (k & Hk & <-).
  by rewrite Hleft.
Qed.

(** X23.  [conjugate(g, h)] interns [g∘h∘g⁻¹]: for interned [g] (a
    permutation) and [h], the returned ID [c] satisfies [c(g(k)) = g(h(k))]
    at every point [k]; degree and all existing IDs are untouched. *)
Theorem conjugate_image (s : PermutationRepository) (g h : Z) :
  wf s → 0 ≤ g < count s → 0 ≤ h < count s → NoDup (get s g) →
  ∃ s' c, conjugate s g h = (s', c) ∧ extends s s' ∧ 0 ≤ c < count s' ∧
    ∀ k, 0 ≤ k < globalDegree s →
      rd (get s' c) (rd (get s g) k) = rd (get s g) (rd (get s h) k).
Proof.
  intros Hwf Hg Hh Hnd. unfold conjugate.
  destruct (wf_image s g Hwf Hg) as (Hlg & HN & Hpg).
  destruct (wf_image s h Hwf Hh) as (Hlh & _ & Hph).
  destruct (inverse_spec s g Hwf Hg Hnd) as (s1 & gi & -> & E1 & Hgi & Hleft & _).
  destruct E1 as (Hwf1 & Hd1 & Hc1 & Hg1).
  destruct (multiply_spec s1 g h Hwf1) as (s2 & gh & -> & E2 & Hgh & Hghi); [lia..|].
  destruct E2 as (Hwf2 & Hd2 & Hc2 & Hg2).
  destruct (multiply_spec s2 gh gi Hwf2) as (s3 & c & -> & E3 & Hc & Hci); [lia..|].
  exists s3, c. split; [done|]. split.
  { eapply extends_trans; [|exact E3]. eapply extends_trans; [|by split_and!]. by split_and!. }
  split; [done|]. intros k Hk.
  rewrite Hci, Hghi. rewrite (Hg2 gi) by lia. rewrite !(Hg1 g), !(Hg1 h) by lia.
  destruct (wf_image s1 gi Hwf1 Hgi) as (Hlgi & _ & Hpgi).
  rewrite rd_compose by (rewrite Hlgi, Hd1; by apply Hpg).
  rewrite Hleft by done.
  rewrite rd_compose by lia. done.
Qed.

Lemma conjugate_image_witness :
  ∃ s' c, conjugate two_swaps 1 2 = (s', c) ∧ extends two_swaps s' ∧ 0 ≤ c < count s' ∧
    ∀ k, 0 ≤ k < globalDegree two_swaps →
      rd (get s' c) (rd (get two_swaps 1) k) = rd (get two_swaps 1) (rd (get two_swaps 2) k).
Proof.
  apply conjugate_image.
  - exact wf_two_swaps.
  - vm_compute. split; [discriminate|reflexivity].
  - vm_compute. split; [discriminate|reflexivity].
  - apply (bool_decide_unpack (NoDup (get two_swaps 1))). vm_compute. exact I.
Defined.

(** X24.  [commutator(a, b)] interns [a⁻¹∘b⁻¹∘a∘b]: for interned
    permutations [a] and [b] the returned ID [c] satisfies
    [b(a(c(k))) = a(b(k))] at every point, and [c] is the identity ID 0
    exactly when [a] and [b] commute. *)
Theorem commutator_image (s : PermutationRepository) (a b : Z) :
  wf s → 0 ≤ a < count s → 0 ≤ b < count s → NoDup (get s a) → NoDup (get s b) →
  ∃ s' c, commutator s a b = (s', c) ∧ extends s s' ∧ 0 ≤ c < count s' ∧
    (∀ k, 0 ≤ k < globalDegree s →
       rd (get s b) (rd (get s a) (rd (get s' c) k)) = rd (get s a) (rd (get s b) k)) ∧
    (c = 0 ↔ ∀ k, 0 ≤ k < globalDegree s →
       rd (get s a) (rd (get s b) k) = rd (get s b) (rd (get s a) k)).
Proof.
  intros Hwf Ha Hb Hnda Hndb. unfold commutator.
  destruct (wf_image s a Hwf Ha) as (Hla & HN & Hpa).
  destruct (wf_image s b Hwf Hb) as (Hlb & _ & Hpb).
  set (N := globalDegree s) in *.
  destruct (inverse_spec s a Hwf Ha Hnda) as (s1 & ai & -> & E1 & Hai & Hal & Har).
  pose proof E1 as (Hwf1 & Hd1 & Hc1 & Hg1).
  destruct (inverse_spec s1 b Hwf1) as (s2 & bi & -> & E2 & Hbi & Hbl & Hbr);
    [lia|by rewrite Hg1|].
  rewrite Hd1, (Hg1 b) in Hbl, Hbr by lia. fold N in Hal, Har, Hbl, Hbr.
  pose proof E2 as (Hwf2 & Hd2 & Hc2 & Hg2).
  destruct (multiply_spec s2 ai bi Hwf2) as (s3 & m1 & -> & E3 & Hm1 & Hm1i); [lia..|].
  pose proof E3 as (Hwf3 & Hd3 & Hc3 & Hg3).
  destruct (multiply_spec s3 m1 a Hwf3) as (s4 & m2 & -> & E4 & Hm2 & Hm2i); [lia..|].
  pose proof E4 as (Hwf4 & Hd4 & Hc4 & Hg4).
  destruct (multiply_spec s4 m2 b Hwf4) as (s5 & c & -> & E5 & Hc & Hci); [lia..|].
  pose proof E5 as (Hwf5 & Hd5 & Hc5 & Hg5).
  assert (Hext : extends s s5) by (repeat (eapply extends_trans; [|eassumption]); done).
  (* the images involved, all read in the first store that has them *)
  rewrite (Hg4 b), (Hg3 b), (Hg2 b), (Hg1 b) in Hci by lia.
  rewrite (Hg3 a), (Hg2 a), (Hg1 a) in Hm2i by lia.
  rewrite (Hg2 ai) in Hm1i by lia.
  destruct (wf_image s1 ai Hwf1 Hai) as (Hlai & _ & Hpai).
  destruct (wf_image s2 bi Hwf2 Hbi) as (Hlbi & _ & Hpbi).
  rewrite Hd1 in Hlai, Hpai. rewrite Hd2, Hd1 in Hlbi, Hpbi. fold N in Hlai, Hpai, Hlbi, Hpbi.
  assert (Hck : ∀ k, 0 ≤ k < N →
            rd (get s5 c) k = rd (get s1 ai) (rd (get s2 bi) (rd (get s a) (rd (get s b) k)))).
  { intros k Hk. rewrite Hci, rd_compose by lia. rewrite Hm2i.
    rewrite rd_compose by (rewrite Hla; by apply Hpb).
    rewrite Hm1i. rewrite rd_compose by (rewrite Hlbi; by apply Hpa, Hpb). done. }
  exists s5, c. split; [done|]. split; [done|]. split; [done|]. split.
  - intros k Hk. rewrite Hck by done.
    rewrite Har by (by apply Hpbi, Hpa, Hpb). rewrite Hbr by (by apply Hpa, Hpb). done.
  - split.
    + intros -> k Hk.
      assert (E : rd (get s5 0) k = k).
      { rewrite (wf_id_image _ Hwf5). rewrite rd_seqZ; [lia|]. rewrite Hd5, Hd4, Hd3, Hd2, Hd1. done. }
      rewrite Hck in E by done.
      assert (E' : rd (get s a) (rd (get s1 ai) (rd (get s2 bi) (rd (get s a) (rd (get s b) k))))
                   = rd (get s a) k) by (by rewrite E).
      rewrite Har in E' by (by apply Hpbi, Hpa, Hpb).
      assert (E'' : rd (get s b) (rd (get s2 bi) (rd (get s a) (rd (get s b) k)))
                    = rd (get s b) (rd (get s a) k)) by (by rewrite E').
      rewrite Hbr in E'' by (by apply Hpa, Hpb). done.
    + intros Hcomm. apply (store_img_inj s5); [apply Hwf5|done|pose proof (wf_count _ Hwf5); lia|].
      rewrite (wf_id_image _ Hwf5).
      assert (Hd : globalDegree s5 = N) by (rewrite Hd5, Hd4, Hd3, Hd2, Hd1; done).
      destruct (wf_image s5 c Hwf5 Hc) as (Hlc & _ & _). rewrite Hd in *.
      apply array_ext.
      * rewrite length_seqZ. unfold len in Hlc. lia.
      * intros k Hk. rewrite Hlc in Hk. rewrite Hck, rd_seqZ by done.
        rewrite Hcomm by done. rewrite Hbl by (by apply Hpa). rewrite Hal by done. lia.
Qed.

Lemma commutator_image_witness :
  ∃ s' c, commutator two_swaps 1 2 = (s', c) ∧ extends two_swaps s' ∧ 0 ≤ c < count s' ∧
    (∀ k, 0 ≤ k < globalDegree two_swaps →
       rd (get two_swaps 2) (rd (get two_swaps 1) (rd (get s' c) k))
       = rd (get two_swaps 1) (rd (get two_swaps 2) k)) ∧
    (c = 0 ↔ ∀ k, 0 ≤ k < globalDegree two_swaps →
       rd (get two_swaps 1) (rd (get two_swaps 2) k)
       = rd (get two_swaps 2) (rd (get two_swaps 1) k)).
Proof.
  apply commutator_image.
  - exact wf_two_swaps.
  - vm_compute. split; [discriminate|reflexivity].
  - vm_compute. split; [discriminate|reflexivity].
  - apply (bool_decide_unpack (NoDup (get two_swaps 1))). vm_compute. exact I.
  - apply (bool_decide_unpack (NoDup (get two_swaps 2))). vm_compute. exact I.
Defined.

(** ** [isAbelian] *)

Lemma forallb_seqZ_from (f : Z → bool) m n :
  forallb f (seqZ m n) = true ↔ ∀ i, m ≤ i < m + n → f i = true.
Proof.
  rewrite forallb_forall. split.
  - intros H i Hi. apply H. apply list_elem_of_In, elem_of_seqZ. lia.
  - intros H i Hi%list_elem_of_In%elem_of_seqZ. apply H. lia.
Qed.

(** X25.  [isAbelian] on a set of interned IDs answers [true] exactly when
    every two permutations of the set commute ([x∘y = y∘x] as images);
    sets with at most one element are abelian. *)
Theorem isAbelian_commute (s : PermutationRepository) (this : PermutationSet) :
  wf s → (∀ x, x ∈ _ids this → 0 ≤ x < count s) →
  PermSet.isAbelian s this = true ↔
  ∀ x y, x ∈ _ids this → y ∈ _ids this →
    compose (get s x) (get s y) = compose (get s y) (get s x).
Proof.
  intros Hwf Hids. unfold PermSet.isAbelian, PermSet.size. cbv zeta.
  set (ids := _ids this) in *. set (N := globalDegree s).
  assert (Hpt : ∀ x y, x ∈ ids → y ∈ ids →
            (compose (get s x) (get s y) = compose (get s y) (get s x)
             ↔ ∀ k, 0 ≤ k < N →
                 rd (permBuffer s) (x * N + rd (permBuffer s) (y * N + k))
                 = rd (permBuffer s) (y * N + rd (permBuffer s) (x * N + k)))).
  { intros x y Hx%Hids Hy%Hids.
    destruct (wf_image s x Hwf Hx) as (Hlx & HN & Hpx).
    destruct (wf_image s y Hwf Hy) as (Hly & _ & Hpy). fold N in Hlx, Hly, Hpx, Hpy, HN.
    assert (Hrd : ∀ k, 0 ≤ k < N →
              rd (permBuffer s) (x * N + rd (permBuffer s) (y * N + k))
              = rd (compose (get s x) (get s y)) k ∧
              rd (permBuffer s) (y * N + rd (permBuffer s) (x * N + k))
              = rd (compose (get s y) (get s x)) k).
    { intros k Hk. rewrite !rd_compose by lia.
      rewrite (rd_get s x (rd (get s y) k)), (rd_get s y (rd (get s x) k)),
        (rd_get s y k), (rd_get s x k); fold N; auto; lia. }
    split.
    - intros E k Hk. destruct (Hrd k Hk) as [-> ->]. by rewrite E.
    - intros H. apply array_ext.
      + rewrite !length_compose. unfold len in *. lia.
      + intros k Hk. unfold len in Hk. rewrite length_compose in Hk. fold (len (get s y)) in Hk.
        rewrite Hly in Hk. destruct (Hrd k Hk) as [<- <-]. by apply H. }
  destruct (decide (len ids ≤ 1)) as [Hsz|Hsz].
  { split; [intros _|done]. intros x y Hx Hy.
    assert (x = y) as ->; [|done].
    unfold len in Hsz. destruct ids as [|z [|z' l]]; [by apply elem_of_nil in Hx| |simpl in Hsz; lia].
    apply list_elem_of_singleton in Hx, Hy. congruence. }
  rewrite forallb_seqZ. setoid_rewrite forallb_seqZ_from. setoid_rewrite forallb_seqZ.
  setoid_rewrite bool_decide_eq_true. split.
  - intros H x y Hx Hy. apply Hpt; [done..|]. intros k Hk.
    apply elem_of_rd in Hx as (i & Hi & <-). apply elem_of_rd in Hy as (j & Hj & <-).
    destruct (decide (i < j)) as [Hij|Hij]; [apply H; lia|].
    destruct (decide (i = j)) as [->|Hne]; [done|].
    symmetry. apply H; lia.
  - intros H i Hi j Hj k Hk.
    apply (proj1 (Hpt (rd ids i) (rd ids j) ltac:(apply elem_of_rd; exists i; split; [lia|done])
                   ltac:(apply elem_of_rd; exists j; split; [lia|done]))); [|done].
    apply H; apply elem_of_rd; [exists i|exists j]; (split; [lia|done]).
Qed.

Lemma isAbelian_commute_witness :
  PermSet.isAbelian two_swaps (new_PermutationSet [1; 2] true false) = true ↔
  ∀ x y, x ∈ [1; 2] → y ∈ [1; 2] →
    compose (get two_swaps x) (get two_swaps y) = compose (get two_swaps y) (get two_swaps x).
Proof.
  apply (isAbelian_commute two_swaps (new_PermutationSet [1; 2] true false)).
  - exact wf_two_swaps.
  - intros x Hx. cbn [_ids new_PermutationSet] in Hx.
    apply elem_of_cons in Hx as [->|Hx]; [vm_compute; split; [discriminate|reflexivity]|].
    apply list_elem_of_singleton in Hx as ->. vm_compute. split; [discriminate|reflexivity].
Defined.

(** ** Powers *)









(** X27.  A negative exponent is not rejected: the loop is skipped and the
    identity is answered, with the store untouched. *)
Theorem _pow_negative (s : PermutationRepository) (g exp : Z) :
  exp < 0 → _pow s g exp = (s, identity s).
Proof.
  intros Hneg. unfold _pow.
  rewrite decide_False by lia. rewrite decide_False by lia.
  replace (Z.to_nat exp) with 0%nat by lia. simpl.
  destruct (0 <? exp) eqn:E; [apply Z.ltb_lt in E; lia|done].
Qed.

Lemma _pow_negative_witness : _pow two_swaps 1 (-3) = (two_swaps, identity two_swaps).
Proof. apply _pow_negative. lia. Defined.

(** ** [PermutationSet]: products and inverses *)

(** The local [permBuffer] of a method agrees with the store it started
    from on every image of that store. *)
Definition alias_ok (s : PermutationRepository) (buf : list Z) : Prop :=
  ∀ i k, 0 ≤ i < count s → 0 ≤ k < globalDegree s →
    rd buf (i * globalDegree s + k) = rd (get s i) k.

Definition loop_inv (s : PermutationRepository) (st : PermSet.loop_state) : Prop :=
  extends s (PermSet.ls_repo st) ∧ alias_ok s (PermSet.ls_permBuffer st)
  ∧ globalDegree s ≤ len (PermSet.ls_tempBuf st).

Lemma alias_ok_extends s s' : extends s s' → alias_ok s (permBuffer s').
Proof.
  intros (Hwf & Hd & Hc & Hg) i k Hi Hk.
  rewrite <- (Hg i Hi), <- Hd. rewrite rd_get by lia. done.
Qed.

Lemma wf_degree_nonneg s : wf s → 0 ≤ globalDegree s.
Proof.
  intros Hwf. pose proof (wf_count _ Hwf).
  destruct (wf_image s 0 Hwf) as (_ & ? & _); [lia|done].
Qed.

Lemma register_result_spec s st tmp index p' :
  loop_inv s st → globalDegree s ≤ len tmp →
  (∀ k, 0 ≤ k < globalDegree s → 0 ≤ rd tmp k < globalDegree s) →
  ∃ id, let st' := PermSet.register_result (globalDegree s) st tmp index p' in
    loop_inv s st' ∧ extends (PermSet.ls_repo st) (PermSet.ls_repo st') ∧
    PermSet.ls_tempBuf st' = tmp ∧ PermSet.ls_ptr st' = p' ∧
    PermSet.ls_resultIds st' = wr (PermSet.ls_resultIds st) index id ∧
    0 ≤ id < count (PermSet.ls_repo st') ∧
    get (PermSet.ls_repo st') id = subarray tmp 0 (globalDegree s).
Proof.
  intros (Hext & Hal & Htmp) Hlt Hp.
  pose proof Hext as (Hwf1 & Hd1 & Hc1 & Hg1).
  pose proof (wf_degree_nonneg _ Hwf1) as HN. rewrite Hd1 in HN.
  set (N := globalDegree s) in *.
  destruct (register_full (PermSet.ls_repo st) (subarray tmp 0 N))
    as (s2 & id & Hr & Hext2 & Hid & Hget); [done| | |].
  { unfold len. rewrite length_subarray by lia. lia. }
  { intros k Hk. rewrite Hd1 in *. rewrite rd_subarray by lia. apply Hp. lia. }
  exists id. unfold PermSet.register_result. rewrite Hr. cbn [PermSet.ls_repo
    PermSet.ls_permBuffer PermSet.ls_tempBuf PermSet.ls_resultIds PermSet.ls_ptr].
  split_and!; try done; try lia.
  split_and!; [by eapply extends_trans| |done].
  destruct (_ && _ && _); [|done].
  apply alias_ok_extends. by eapply extends_trans.
Qed.

Lemma subarray_compose s tmp a b :
  wf s → 0 ≤ a < count s → 0 ≤ b < count s → globalDegree s ≤ len tmp →
  (∀ k, 0 ≤ k < globalDegree s → rd tmp k = rd (get s a) (rd (get s b) k)) →
  subarray tmp 0 (globalDegree s) = compose (get s a) (get s b).
Proof.
  intros Hwf Ha Hb Hl Hrd.
  destruct (wf_image s a Hwf Ha) as (Hla & HN & Hpa).
  destruct (wf_image s b Hwf Hb) as (Hlb & _ & Hpb).
  apply array_ext.
  - rewrite length_subarray, length_compose by lia. unfold len in Hlb. lia.
  - intros k Hk. unfold len in Hk. rewrite length_subarray in Hk by lia.
    rewrite rd_subarray, rd_compose by lia. apply Hrd. lia.
Qed.

Lemma multiply_pair_spec s st a b :
  wf s → loop_inv s st → 0 ≤ a < count s → 0 ≤ b < count s →
  ∃ id, let st' := PermSet.multiply_pair (globalDegree s) a b st in
    loop_inv s st' ∧ extends (PermSet.ls_repo st) (PermSet.ls_repo st') ∧
    PermSet.ls_ptr st' = PermSet.ls_ptr st + 1 ∧
    PermSet.ls_resultIds st' = wr (PermSet.ls_resultIds st) (PermSet.ls_ptr st) id ∧
    0 ≤ id < count (PermSet.ls_repo st') ∧
    get (PermSet.ls_repo st') id = compose (get s a) (get s b).
Proof.
  intros Hwf Hinv Ha Hb. pose proof Hinv as (Hext & Hal & Htmp).
  destruct (wf_image s a Hwf Ha) as (Hla & HN & Hpa).
  destruct (wf_image s b Hwf Hb) as (Hlb & _ & Hpb).
  unfold PermSet.multiply_pair. cbv zeta. unfold alias_ok in Hal.
  set (N := globalDegree s) in *.
  set (tmp := for_range 0 N _ (PermSet.ls_tempBuf st)).
  assert (Htmp' : len tmp = len (PermSet.ls_tempBuf st) ∧
            ∀ k, 0 ≤ k < N → rd tmp k = rd (get s a) (rd (get s b) k)).
  { unfold tmp. apply (for_range_ind (fun i t =>
      len t = len (PermSet.ls_tempBuf st) ∧
      ∀ k, 0 ≤ k < i → rd t k = rd (get s a) (rd (get s b) k))); [done| |].
    - split; [done|]. intros; lia.
    - intros i t Hi [Hl IH]. split; [by rewrite len_wr|].
      intros k Hk. rewrite rd_wr. case_decide as E.
      + destruct E as [<- _]. rewrite (Hal b i) by lia.
        rewrite (Hal a) by auto. done.
      + apply IH. destruct (decide (k = i)) as [->|]; [|lia]. exfalso. apply E. lia. }
  destruct Htmp' as [Hlt Hrd].
  destruct (register_result_spec s st tmp (PermSet.ls_ptr st) (PermSet.ls_ptr st + 1))
    as (id & Hinv' & Hext' & _ & Hptr & Hres & Hid & Hget); [done|fold N; lia| |].
  { intros k Hk. fold N in Hk. rewrite Hrd by done. apply Hpa. by apply Hpb. }
  exists id. cbv zeta in *. fold N in Hinv', Hext', Hptr, Hres, Hid, Hget.
  split_and!; [done|done|done|done|lia|lia|].
  rewrite Hget. apply subarray_compose; [done|done|done|fold N; lia|done].
Qed.

Lemma pair_index_inj n i j i' j' :
  0 ≤ j < n → 0 ≤ j' < n → i * n + j = i' * n + j' → i = i' ∧ j = j'.
Proof.
  intros Hj Hj' E. assert (i = i') as ->; [|lia].
  destruct (decide (i < i')); [nia|]. destruct (decide (i' < i)); [nia|lia].
Qed.

(** The two nested loops of [multiply], for either order of the loops: the
    pair processed at [(i, j)] is [(fa i j, fb i j)]. *)
Lemma multiply_loops s (fa fb : Z → Z → Z) n1 n2 st0 :
  wf s → loop_inv s st0 → 0 ≤ n1 → 0 ≤ n2 →
  PermSet.ls_ptr st0 = 0 → len (PermSet.ls_resultIds st0) = n1 * n2 →
  (∀ i j, 0 ≤ i < n1 → 0 ≤ j < n2 → 0 ≤ fa i j < count s ∧ 0 ≤ fb i j < count s) →
  let st := for_range 0 n1 (fun i st =>
              for_range 0 n2 (fun j st =>
                PermSet.multiply_pair (globalDegree s) (fa i j) (fb i j) st) st) st0 in
  loop_inv s st ∧ len (PermSet.ls_resultIds st) = n1 * n2 ∧
  ∀ i j, 0 ≤ i < n1 → 0 ≤ j < n2 →
    let id := rd (PermSet.ls_resultIds st) (i * n2 + j) in
    0 ≤ id < count (PermSet.ls_repo st) ∧
    get (PermSet.ls_repo st) id = compose (get s (fa i j)) (get s (fb i j)).
Proof.
  intros Hwf Hinv0 Hn1 Hn2 Hp0 Hl0 Hf. cbv zeta.
  set (Inv := fun (p : Z) (st : PermSet.loop_state) =>
    loop_inv s st ∧ PermSet.ls_ptr st = p ∧ len (PermSet.ls_resultIds st) = n1 * n2 ∧
    ∀ i j, 0 ≤ i < n1 → 0 ≤ j < n2 → i * n2 + j < p →
      0 ≤ rd (PermSet.ls_resultIds st) (i * n2 + j) < count (PermSet.ls_repo st) ∧
      get (PermSet.ls_repo st) (rd (PermSet.ls_resultIds st) (i * n2 + j))
      = compose (get s (fa i j)) (get s (fb i j))).
  assert (HInv : Inv (n1 * n2)
    (for_range 0 n1 (fun i st =>
       for_range 0 n2 (fun j st =>
         PermSet.multiply_pair (globalDegree s) (fa i j) (fb i j) st) st) st0)).
  { apply (for_range_ind (fun i st => Inv (i * n2) st)); [done| |].
    - split_and!; [done|lia|done|]. intros i j Hi Hj Hlt. nia.
    - intros i st Hi HI.
      replace ((i + 1) * n2) with (i * n2 + n2) by lia.
      apply (for_range_ind (fun j st => Inv (i * n2 + j) st)); [done| |].
      + by rewrite Z.add_0_r.
      + intros j st' Hj (Hli & Hptr & Hlen & Hold).
        destruct (Hf i j Hi Hj) as [Ha Hb].
        destruct (multiply_pair_spec s st' (fa i j) (fb i j) Hwf Hli Ha Hb)
          as (id & Hli' & Hext' & Hptr' & Hres' & Hid & Hget).
        cbv zeta in *.
        set (st2 := PermSet.multiply_pair (globalDegree s) (fa i j) (fb i j) st') in *.
        destruct Hext' as (Hwf2 & Hd2 & Hc2 & Hg2).
        split_and!; [done|lia|by rewrite Hres', len_wr|].
        intros i' j' Hi' Hj' Hlt. rewrite Hres', rd_wr. case_decide as E.
        * destruct E as [E _]. destruct (pair_index_inj n2 i j i' j') as [<- <-]; [done|done|lia|]. done.
        * assert (i' * n2 + j' < i * n2 + j) as Hlt'.
          { destruct (decide (i' * n2 + j' = i * n2 + j)) as [Eq|]; [|lia].
            exfalso. apply E. split; [lia|]. rewrite Hlen. nia. }
          destruct (Hold i' j' Hi' Hj' Hlt') as [Hr Hg]. split; [lia|].
          rewrite Hg2 by done. done. }
  destruct HInv as (Hli & _ & Hlen & Hall). split_and!; [done|done|].
  intros i j Hi Hj. apply Hall; [done|done|nia].
Qed.

Lemma product_elements s s' (idsA idsB res : list Z) n1 n2 (fa fb : Z → Z → Z) :
  wf s' → 0 ≤ n1 → 0 ≤ n2 → len res = n1 * n2 →
  (∀ i j, 0 ≤ i < n1 → 0 ≤ j < n2 →
     0 ≤ rd res (i * n2 + j) < count s' ∧
     get s' (rd res (i * n2 + j)) = compose (get s (fa i j)) (get s (fb i j))) →
  (∀ i j, 0 ≤ i < n1 → 0 ≤ j < n2 → fa i j ∈ idsA ∧ fb i j ∈ idsB) →
  (∀ a b, a ∈ idsA → b ∈ idsB →
     ∃ i j, 0 ≤ i < n1 ∧ 0 ≤ j < n2 ∧ fa i j = a ∧ fb i j = b) →
  ∀ c, c ∈ res ↔
    ∃ a b, a ∈ idsA ∧ b ∈ idsB ∧ 0 ≤ c < count s' ∧
      get s' c = compose (get s a) (get s b).
Proof.
  intros Hwf Hn1 Hn2 Hlen Hall Hin Hsurj c. split.
  - intros (q & Hq & <-)%elem_of_rd. rewrite Hlen in Hq.
    assert (0 < n2) as Hpos by nia.
    pose proof (Z.div_mod q n2 ltac:(lia)) as Hdm.
    pose proof (Z.mod_pos_bound q n2 Hpos) as Hm.
    assert (0 ≤ q / n2 < n1) as Hi.
    { split; [apply Z.div_pos; lia|]. apply Z.div_lt_upper_bound; [lia|nia]. }
    replace q with ((q / n2) * n2 + q `mod` n2) by lia.
    destruct (Hall _ _ Hi Hm) as [Hr Hg]. destruct (Hin _ _ Hi Hm) as [Ha Hb].
    exists (fa (q / n2) (q `mod` n2)), (fb (q / n2) (q `mod` n2)). done.
  - intros (a & b & Ha & Hb & Hc & Hg).
    destruct (Hsurj a b Ha Hb) as (i & j & Hi & Hj & <- & <-).
    destruct (Hall i j Hi Hj) as [Hr Hg'].
    assert (c = rd res (i * n2 + j)) as ->.
    { apply (store_img_inj s'); [apply (wf_ok _ Hwf)|done|done|congruence]. }
    apply elem_of_rd. exists (i * n2 + j). split; [|done]. rewrite Hlen. nia.
Qed.

Lemma len__ensureTempBuffer tempBuf requiredSize :
  requiredSize ≤ len (PermSet._ensureTempBuffer tempBuf requiredSize).
Proof.
  unfold PermSet._ensureTempBuffer. pose proof (len_nonneg tempBuf).
  case_decide; [|lia]. rewrite len_new_array; lia.
Qed.

(** X28.  [A.multiply(B)] on sets of interned IDs answers exactly the
    products: an ID is in the result iff it is the ID of [a∘b] for some [a]
    of [A] and [b] of [B]; the result is strictly ascending, is never
    flagged as a group, and the store only grows.  The scratch array may have
    any contents and any length. *)
Theorem set_multiply_products (s : PermutationRepository) (scratch : list Z)
    (A B : PermutationSet) :
  wf s → (∀ x, x ∈ _ids A → 0 ≤ x < count s) → (∀ x, x ∈ _ids B → 0 ≤ x < count s) →
  ∃ s' scratch' r, PermSet.multiply s scratch A B = (s', scratch', r) ∧ extends s s' ∧
    isGroup r = false ∧ ascending (_ids r) = true ∧
    ∀ c, c ∈ _ids r ↔
      ∃ a b, a ∈ _ids A ∧ b ∈ _ids B ∧ 0 ≤ c < count s' ∧
        get s' c = compose (get s a) (get s b).
Proof.
  intros Hwf HA HB. unfold PermSet.multiply. cbv zeta.
  set (idsA := _ids A) in *. set (idsB := _ids B) in *.
  destruct (decide (len idsA = 0 ∨ len idsB = 0)) as [Hempty|Hne].
  { exists s, scratch, (new_PermutationSet (new_array 0) true false).
    split_and!; [done|by apply extends_refl|done|done|].
    intros c. split; [by intros ?%elem_of_nil|].
    intros (a & b & Ha & Hb & _). unfold len in Hempty.
    destruct Hempty as [E|E].
    - destruct idsA; [by apply elem_of_nil in Ha|simpl in E; lia].
    - destruct idsB; [by apply elem_of_nil in Hb|simpl in E; lia]. }
  pose proof (len_nonneg idsA). pose proof (len_nonneg idsB).
  set (N := globalDegree s).
  set (st0 := PermSet.mkLoopState _ _ _ _ _ _).
  assert (Hinv0 : loop_inv s st0).
  { split_and!; [by apply extends_refl|by apply alias_ok_extends, extends_refl|].
    apply len__ensureTempBuffer. }
  assert (HrA : ∀ i, 0 ≤ i < len idsA → rd idsA i ∈ idsA).
  { intros i Hi. apply elem_of_rd. by exists i. }
  assert (HrB : ∀ j, 0 ≤ j < len idsB → rd idsB j ∈ idsB).
  { intros j Hj. apply elem_of_rd. by exists j. }
  destruct (decide (len idsA ≤ len idsB)) as [Hle|Hgt].
  - destruct (multiply_loops s (fun i j => rd idsA i) (fun i j => rd idsB j)
                (len idsA) (len idsB) st0) as (Hli & Hlen & Hall);
      [done|done|lia|lia|done|cbn; apply len_new_array; nia| |].
    { intros i j Hi Hj. split; [by apply HA, HrA|by apply HB, HrB]. }
    cbv zeta in Hli, Hlen, Hall. fold N in Hli, Hlen, Hall.
    set (st := for_range 0 (len idsA) _ st0) in *.
    destruct Hli as (Hext & _ & _).
    exists (PermSet.ls_repo st), (PermSet.ls_tempBuf st),
      (new_PermutationSet (PermSet.ls_resultIds st) false false).
    split_and!; [done|done|done| |].
    + apply ascending_sorted. apply sortAndUnique_sorted.
    + intros c. cbn [_ids new_PermutationSet].
      rewrite (proj2 (sortAndUnique_sorted _)).
      apply (product_elements s _ idsA idsB _ (len idsA) (len idsB)
               (fun i j => rd idsA i) (fun i j => rd idsB j));
        [apply Hext|lia|lia|done|done| |].
      * intros i j Hi Hj. split; [by apply HrA|by apply HrB].
      * intros a b (i & Hi & <-)%elem_of_rd (j & Hj & <-)%elem_of_rd. by exists i, j.
  - destruct (multiply_loops s (fun j i => rd idsA i) (fun j i => rd idsB j)
                (len idsB) (len idsA) st0) as (Hli & Hlen & Hall);
      [done|done|lia|lia|done|cbn; rewrite len_new_array; nia| |].
    { intros j i Hj Hi. split; [by apply HA, HrA|by apply HB, HrB]. }
    cbv zeta in Hli, Hlen, Hall. fold N in Hli, Hlen, Hall.
    set (st := for_range 0 (len idsB) _ st0) in *.
    destruct Hli as (Hext & _ & _).
    exists (PermSet.ls_repo st), (PermSet.ls_tempBuf st),
      (new_PermutationSet (PermSet.ls_resultIds st) false false).
    split_and!; [done|done|done| |].
    + apply ascending_sorted. apply sortAndUnique_sorted.
    + intros c. cbn [_ids new_PermutationSet].
      rewrite (proj2 (sortAndUnique_sorted _)).
      apply (product_elements s _ idsA idsB _ (len idsB) (len idsA)
               (fun j i => rd idsA i) (fun j i => rd idsB j));
        [apply Hext|lia|lia|done|done| |].
      * intros j i Hj Hi. split; [by apply HrA|by apply HrB].
      * intros a b (i & Hi & <-)%elem_of_rd (j & Hj & <-)%elem_of_rd. by exists j, i.
Qed.

Lemma set_multiply_products_witness :
  ∃ s' scratch' r,
    PermSet.multiply two_swaps [7; 7; 7] (new_PermutationSet [1; 2] true false)
      (new_PermutationSet [0; 1] true false) = (s', scratch', r) ∧
    extends two_swaps s' ∧ isGroup r = false ∧ ascending (_ids r) = true ∧
    ∀ c, c ∈ _ids r ↔
      ∃ a b, a ∈ [1; 2] ∧ b ∈ [0; 1] ∧ 0 ≤ c < count s' ∧
        get s' c = compose (get two_swaps a) (get two_swaps b).
Proof.
  apply (set_multiply_products two_swaps [7; 7; 7] (new_PermutationSet [1; 2] true false)
           (new_PermutationSet [0; 1] true false)).
  - exact wf_two_swaps.
  - intros x Hx. cbn [_ids new_PermutationSet] in Hx.
    apply elem_of_cons in Hx as [->|Hx]; [vm_compute; split; [discriminate|reflexivity]|].
    apply list_elem_of_singleton in Hx as ->. vm_compute. split; [discriminate|reflexivity].
  - intros x Hx. cbn [_ids new_PermutationSet] in Hx.
    apply elem_of_cons in Hx as [->|Hx]; [vm_compute; split; [discriminate|reflexivity]|].
    apply list_elem_of_singleton in Hx as ->. vm_compute. split; [discriminate|reflexivity].
Defined.

(** The inversion loop, on a scratch array with arbitrary contents. *)
Lemma inverse_loop (P buf t0 : list Z) N off :
  NoDup P → len P = N → (∀ k, 0 ≤ k < N → 0 ≤ rd P k < N) → N ≤ len t0 →
  (∀ k, 0 ≤ k < N → rd buf (off + k) = rd P k) →
  let t := for_range 0 N (fun k t => let val := rd buf (off + k) in wr t val k) t0 in
  len t = len t0 ∧ (∀ k, 0 ≤ k < N → rd t (rd P k) = k) ∧
  ∀ v, 0 ≤ v < N → 0 ≤ rd t v < N.
Proof.
  intros Hnd Hl Hp Hlt Hbuf. cbv zeta.
  pose proof (len_nonneg P) as HN. rewrite Hl in HN.
  assert (H : len (for_range 0 N (fun k t => wr t (rd buf (off + k)) k) t0) = len t0 ∧
              ∀ k, 0 ≤ k < N →
                rd (for_range 0 N (fun k t => wr t (rd buf (off + k)) k) t0) (rd P k) = k).
  { apply (for_range_ind (fun i t =>
      len t = len t0 ∧ ∀ k, 0 ≤ k < i → rd t (rd P k) = k)); [done| |].
    - split; [done|]. intros; lia.
    - intros i t Hi [Hlen IH]. rewrite Hbuf by done.
      split; [by rewrite len_wr|].
      intros k Hk. rewrite rd_wr, Hlen.
      destruct (decide (k = i)) as [->|Hne].
      + rewrite decide_True; [done|]. split; [done|]. specialize (Hp i Hi). lia.
      + rewrite decide_False; [apply IH; lia|].
        intros [E _]. apply Hne. symmetry. apply (NoDup_rd_inj P); [done|lia|lia|done]. }
  destruct H as [H1 H2]. split_and!; [done|done|].
  intros v Hv. destruct (perm_onto P N v Hnd Hl Hp Hv) as (k & Hk & <-).
  rewrite H2 by done. lia.
Qed.

(** Two left inverses of a permutation are the same image. *)
Lemma left_inverse_unique (P f g : list Z) N :
  NoDup P → len P = N → (∀ k, 0 ≤ k < N → 0 ≤ rd P k < N) →
  len f = N → len g = N →
  (∀ k, 0 ≤ k < N → rd f (rd P k) = k) → (∀ k, 0 ≤ k < N → rd g (rd P k) = k) →
  f = g.
Proof.
  intros Hnd Hl Hp Hf Hg Ef Eg. apply array_ext; [unfold len in *; lia|].
  intros v Hv. rewrite Hf in Hv.
  destruct (perm_onto P N v Hnd Hl Hp Hv) as (k & Hk & <-).
  by rewrite Ef, Eg.
Qed.

(** X29.  [A.inverse()] on a set of interned permutations answers exactly
    their inverses: an ID is in the result iff its image undoes the image of
    some element of [A].  The result is strictly ascending and inherits the
    group flag; what an earlier use left in the scratch array has no
    effect. *)
Theorem set_inverse_inverses (s : PermutationRepository) (scratch : list Z)
    (A : PermutationSet) :
  wf s → (∀ x, x ∈ _ids A → 0 ≤ x < count s ∧ NoDup (get s x)) →
  ∃ s' scratch' r, PermSet.inverse s scratch A = (s', scratch', r) ∧ extends s s' ∧
    isGroup r = isGroup A ∧ ascending (_ids r) = true ∧
    ∀ c, c ∈ _ids r ↔
      ∃ a, a ∈ _ids A ∧ 0 ≤ c < count s' ∧
        ∀ k, 0 ≤ k < globalDegree s → rd (get s' c) (rd (get s a) k) = k.
Proof.
  intros Hwf HA. unfold PermSet.inverse. cbv zeta.
  set (ids := _ids A) in *.
  destruct (decide (len ids = 0)) as [Hempty|Hne].
  { exists s, scratch, (new_PermutationSet (new_array 0) true (isGroup A)).
    split_and!; [done|by apply extends_refl|done|done|].
    intros c. split; [by intros ?%elem_of_nil|].
    intros (a & Ha & _). unfold len in Hempty.
    destruct ids; [by apply elem_of_nil in Ha|simpl in Hempty; lia]. }
  pose proof (len_nonneg ids) as Hsz.
  pose proof (wf_degree_nonneg _ Hwf) as HN.
  set (N := globalDegree s) in *.
  set (st0 := PermSet.mkLoopState _ _ _ _ _ _).
  assert (Hinv0 : loop_inv s st0).
  { split_and!; [by apply extends_refl|by apply alias_ok_extends, extends_refl|].
    apply len__ensureTempBuffer. }
  assert (Hr : ∀ i, 0 ≤ i < len ids → rd ids i ∈ ids).
  { intros i Hi. apply elem_of_rd. by exists i. }
  set (body := fun (i : Z) (st : PermSet.loop_state) => _).
  set (Inv := fun (i : Z) (st : PermSet.loop_state) =>
    loop_inv s st ∧ len (PermSet.ls_resultIds st) = len ids ∧
    ∀ i', 0 ≤ i' < i →
      0 ≤ rd (PermSet.ls_resultIds st) i' < count (PermSet.ls_repo st) ∧
      ∀ k, 0 ≤ k < N →
        rd (get (PermSet.ls_repo st) (rd (PermSet.ls_resultIds st) i'))
           (rd (get s (rd ids i')) k) = k).
  assert (HInv : Inv (len ids) (for_range 0 (len ids) body st0)).
  { apply for_range_ind; [done| |].
    - split_and!; [done|cbn; apply len_new_array; lia|]. intros; lia.
    - intros i st Hi (Hli & Hlen & Hold). unfold body.
      pose proof Hli as (Hext & Hal & Htmp). fold N in Htmp.
      destruct (HA _ (Hr i Hi)) as [Ha Hnd].
      destruct (wf_image s _ Hwf Ha) as (Hla & _ & Hpa). fold N in Hla, Hpa.
      destruct (inverse_loop (get s (rd ids i)) (PermSet.ls_permBuffer st)
                  (PermSet.ls_tempBuf st) N (rd ids i * N))
        as (Hlt & Hleft & Hrange); [done|done|done|done| |].
      { intros k Hk. apply Hal; [done|by fold N]. }
      cbv zeta in Hlt, Hleft, Hrange.
      set (tmp := for_range 0 N _ (PermSet.ls_tempBuf st)) in *.
      destruct (register_result_spec s st tmp i (PermSet.ls_ptr st))
        as (id & Hli' & Hext' & _ & _ & Hres & Hid & Hget);
        [done|fold N; lia|by fold N|].
      cbv zeta in *. fold N in Hli', Hext', Hres, Hid, Hget.
      set (st2 := PermSet.register_result N st tmp i (PermSet.ls_ptr st)) in *.
      destruct Hext' as (Hwf2 & Hd2 & Hc2 & Hg2).
      split_and!; [done|by rewrite Hres, len_wr|].
      intros i' Hi'. rewrite Hres, rd_wr. case_decide as E.
      + destruct E as [<- _]. split; [done|]. intros k Hk. rewrite Hget.
        rewrite rd_subarray by (specialize (Hpa k Hk); lia).
        rewrite Z.add_0_l. by apply Hleft.
      + assert (i' < i) as Hlt' by (destruct (decide (i' = i)) as [->|]; [|lia];
                                     exfalso; apply E; split; [done|lia]).
        destruct (Hold i' ltac:(lia)) as [Hr' Hk']. split; [lia|].
        rewrite Hg2 by done. done. }
  destruct HInv as ((Hext & _ & _) & Hlen & Hall).
  set (st := for_range 0 (len ids) body st0) in *.
  exists (PermSet.ls_repo st), (PermSet.ls_tempBuf st),
    (new_PermutationSet (PermSet.ls_resultIds st) false (isGroup A)).
  split_and!; [done|done|done| |].
  - apply ascending_sorted. apply sortAndUnique_sorted.
  - intros c. cbn [_ids new_PermutationSet].
    rewrite (proj2 (sortAndUnique_sorted _)). split.
    + intros (i & Hi & <-)%elem_of_rd. rewrite Hlen in Hi.
      destruct (Hall i Hi) as [Hc Hk]. exists (rd ids i). split_and!; [by apply Hr|lia|lia|done].
    + intros (a & (i & Hi & <-)%elem_of_rd & Hc & Hk).
      destruct (Hall i Hi) as [Hc' Hk'].
      destruct (HA _ (Hr i Hi)) as [Ha Hnd].
      destruct (wf_image s _ Hwf Ha) as (Hla & _ & Hpa). fold N in Hla, Hpa.
      pose proof Hext as (Hwf' & Hd' & _ & _). fold N in Hd'.
      assert (c = rd (PermSet.ls_resultIds st) i) as ->.
      { apply (store_img_inj (PermSet.ls_repo st)); [apply (wf_ok _ Hwf')|done|done|].
        apply (left_inverse_unique (get s (rd ids i)) _ _ N); [done|done|done| | |done|done].
        - destruct (wf_image _ c Hwf' Hc) as (-> & _). done.
        - destruct (wf_image _ _ Hwf' Hc') as (-> & _). done. }
      apply elem_of_rd. exists i. split; [lia|done].
Qed.

Lemma set_inverse_inverses_witness :
  ∃ s' scratch' r,
    PermSet.inverse two_swaps [9; 9; 9; 9; 9] (new_PermutationSet [1; 2] true true)
      = (s', scratch', r) ∧
    extends two_swaps s' ∧ isGroup r = true ∧ ascending (_ids r) = true ∧
    ∀ c, c ∈ _ids r ↔
      ∃ a, a ∈ [1; 2] ∧ 0 ≤ c < count s' ∧
        ∀ k, 0 ≤ k < globalDegree two_swaps → rd (get s' c) (rd (get two_swaps a) k) = k.
Proof.
  apply (set_inverse_inverses two_swaps [9; 9; 9; 9; 9] (new_PermutationSet [1; 2] true true)).
  - exact wf_two_swaps.
  - intros x Hx. cbn [_ids new_PermutationSet] in Hx.
    apply elem_of_cons in Hx as [->|Hx].
    + split; [vm_compute; split; [discriminate|reflexivity]|].
      apply (bool_decide_unpack (NoDup (get two_swaps 1))). vm_compute. exact I.
    + apply list_elem_of_singleton in Hx as ->.
      split; [vm_compute; split; [discriminate|reflexivity]|].
      apply (bool_decide_unpack (NoDup (get two_swaps 2))). vm_compute. exact I.
Defined.

(** ** The order of a permutation, capped *)

(** The number of unmarked cells. *)
Definition unmarked (visited : list Z) : nat := length (filter (λ x, x = 0) visited).

Lemma unmarked_le visited : (unmarked visited ≤ length visited)%nat.
Proof. apply length_filter. Qed.

Lemma unmarked_mark visited i :
  0 ≤ i < len visited → rd visited i = 0 →
  (unmarked (wr visited i 1) < unmarked visited)%nat.
Proof.
  unfold wr, rd, len, unmarked. intros Hi. rewrite !decide_True by lia.
  assert (Hn : (Z.to_nat i < length visited)%nat) by lia.
  revert Hn. generalize (Z.to_nat i). clear Hi i.
  induction visited as [|x l IH]; intros [|n] Hn E; [simpl in Hn; lia..| |].
  - simpl in E. subst x. change (<[0%nat:=1]> (0 :: l)) with (1 :: l).
    rewrite (filter_cons_True _ 0) by done. rewrite filter_cons_False by lia.
    rewrite length_cons. lia.
  - simpl in Hn. specialize (IH n ltac:(lia) E).
    change (<[S n:=1]> (x :: l)) with (x :: <[n:=1]> l).
    destruct (decide (x = 0)) as [->|Hx].
    + rewrite !filter_cons_True by done. rewrite !length_cons. lia.
    + rewrite !filter_cons_False by done. done.
Qed.

(** ** Cycles of a permutation *)

(** [perm^k] at the point [i]. *)
Definition iter_pt (perm : list Z) (k : nat) (i : Z) : Z := Nat.iter k (rd perm) i.

(** The length of the cycle of [i]: the first [k ≥ 1] with [perm^k i = i]. *)
Definition cycle_len (perm : list Z) (i : Z) : Z :=
  match list_find (λ k, iter_pt perm k i = i) (seq 1 (length perm)) with
  | Some (_, k) => Z.of_nat k
  | None => 0
  end.

(** The least common multiple of the cycle lengths of the points below [n];
    over all points it is the order of the permutation. *)
Fixpoint cycle_lcm_upto (perm : list Z) (n : nat) : Z :=
  match n with
  | O => 1
  | S n => Z.lcm (cycle_lcm_upto perm n) (cycle_len perm (Z.of_nat n))
  end.

Definition cycle_lcm (perm : list Z) : Z := cycle_lcm_upto perm (length perm).

Section cycles.
Variable perm : list Z.
Hypothesis Hnd : NoDup perm.
Hypothesis Hp : ∀ k, 0 ≤ k < len perm → 0 ≤ rd perm k < len perm.

Lemma iter_pt_S k i : iter_pt perm (S k) i = rd perm (iter_pt perm k i).
Proof. reflexivity. Qed.

Lemma iter_pt_add a b i : iter_pt perm (a + b) i = iter_pt perm a (iter_pt perm b i).
Proof. unfold iter_pt. apply Nat.iter_add. Qed.

Lemma iter_pt_range k i : 0 ≤ i < len perm → 0 ≤ iter_pt perm k i < len perm.
Proof. intros Hi. induction k as [|k IH]; [done|]. rewrite iter_pt_S. by apply Hp. Qed.

Lemma iter_pt_inj k i j :
  0 ≤ i < len perm → 0 ≤ j < len perm → iter_pt perm k i = iter_pt perm k j → i = j.
Proof.
  intros Hi Hj. induction k as [|k IH]; [done|]. rewrite !iter_pt_S. intros E.
  apply IH. apply (NoDup_rd_inj perm); [done|by apply iter_pt_range..|done].
Qed.

Lemma iter_pt_cancel a b i :
  0 ≤ i < len perm → (a ≤ b)%nat → iter_pt perm a i = iter_pt perm b i →
  iter_pt perm (b - a) i = i.
Proof.
  intros Hi Hab E. replace b with (a + (b - a))%nat in E by lia.
  rewrite iter_pt_add in E. symmetry.
  apply (iter_pt_inj a); [done|by apply iter_pt_range|done].
Qed.

Lemma exists_return i :
  0 ≤ i < len perm → ∃ k, (1 ≤ k ≤ length perm)%nat ∧ iter_pt perm k i = i.
Proof.
  intros Hi.
  destruct (decide (Exists (λ k, iter_pt perm k i = i) (seq 1 (length perm)))) as [He|Hne].
  { apply Exists_exists in He as (k & Hk & E). apply elem_of_seq in Hk. exists k. split; [lia|done]. }
  exfalso.
  assert (Hno : ∀ k, (1 ≤ k ≤ length perm)%nat → iter_pt perm k i ≠ i).
  { intros k Hk E. apply Hne, Exists_exists. exists k. split; [|done]. apply elem_of_seq. lia. }
  assert (Hnd' : NoDup ((λ k, iter_pt perm k i) <$> seq 0 (S (length perm)))).
  { apply NoDup_fmap_2_strong; [|apply NoDup_seq].
    intros a b Ha%elem_of_seq Hb%elem_of_seq E.
    destruct (decide (a = b)) as [|Hab]; [done|]. exfalso.
    destruct (decide (a < b)%nat).
    - apply (Hno (b - a)%nat); [lia|]. by apply iter_pt_cancel; [|lia|].
    - apply (Hno (a - b)%nat); [lia|]. by apply iter_pt_cancel; [|lia|]. }
  assert (length ((λ k, iter_pt perm k i) <$> seq 0 (S (length perm)))
          ≤ length (seqZ 0 (len perm)))%nat as Hle.
  { apply NoDup_incl_length; [by apply NoDup_ListNoDup|].
    intros x Hx%list_elem_of_In. apply list_elem_of_In.
    apply list_elem_of_fmap in Hx as (k & -> & _).
    apply elem_of_seqZ. pose proof (iter_pt_range k i Hi). lia. }
  rewrite length_fmap, length_seq, length_seqZ in Hle. unfold len in Hle. lia.
Qed.

Lemma cycle_len_spec i :
  0 ≤ i < len perm →
  ∃ c : nat, cycle_len perm i = Z.of_nat c ∧ (1 ≤ c ≤ length perm)%nat ∧
    iter_pt perm c i = i ∧ ∀ k, (1 ≤ k < c)%nat → iter_pt perm k i ≠ i.
Proof.
  intros Hi. unfold cycle_len.
  destruct (list_find _ _) as [[j c]|] eqn:E.
  - apply list_find_Some in E as (Hl & Hc & Hmin).
    apply lookup_seq in Hl as [-> Hj]. exists (1 + j)%nat.
    split_and!; [done|lia|lia|done|].
    intros k Hk. apply (Hmin (k - 1)%nat k); [|lia]. apply lookup_seq. lia.
  - exfalso. apply list_find_None in E.
    destruct (exists_return i Hi) as (k & Hk & Ek).
    rewrite Forall_forall in E. apply (E k); [|done]. apply elem_of_seq. lia.
Qed.

Lemma iter_pt_mul c i q :
  iter_pt perm c i = i → iter_pt perm (q * c) i = i.
Proof.
  intros E. induction q as [|q IH]; [done|].
  replace (S q * c)%nat with (c + q * c)%nat by lia.
  by rewrite iter_pt_add, IH.
Qed.

Lemma iter_pt_mod c i k :
  (1 ≤ c)%nat → iter_pt perm c i = i → iter_pt perm k i = iter_pt perm (k mod c) i.
Proof.
  intros Hc E. rewrite (Nat.div_mod_eq k c) at 1.
  rewrite Nat.add_comm, iter_pt_add, (Nat.mul_comm c). by rewrite iter_pt_mul.
Qed.

(** Being on the cycle of a point is symmetric. *)
Lemma iter_pt_back i k :
  0 ≤ i < len perm → ∃ k', iter_pt perm k' (iter_pt perm k i) = i.
Proof.
  intros Hi. destruct (cycle_len_spec i Hi) as (c & _ & Hc & Ec & _).
  exists (k * c - k)%nat. rewrite <- iter_pt_add.
  replace (k * c - k + k)%nat with (k * c)%nat by nia. by apply iter_pt_mul.
Qed.

Lemma cycle_len_iter i k :
  0 ≤ i < len perm → cycle_len perm (iter_pt perm k i) = cycle_len perm i.
Proof.
  intros Hi. pose proof (iter_pt_range k i Hi) as Hj.
  destruct (cycle_len_spec i Hi) as (c & -> & Hc & Ec & Hmin).
  destruct (cycle_len_spec _ Hj) as (c' & -> & Hc' & Ec' & Hmin').
  assert (Hiff : ∀ m, iter_pt perm m (iter_pt perm k i) = iter_pt perm k i
                      ↔ iter_pt perm m i = i).
  { intros m. rewrite <- iter_pt_add, Nat.add_comm, iter_pt_add. split.
    - intros E. apply (iter_pt_inj k); [by apply iter_pt_range|done|done].
    - by intros ->. }
  f_equal. destruct (decide (c' < c)%nat).
  - exfalso. apply (Hmin c'); [lia|]. by apply Hiff.
  - destruct (decide (c < c')%nat); [|lia].
    exfalso. apply (Hmin' c); [lia|]. by apply Hiff.
Qed.

Lemma cycle_lcm_upto_pos n :
  (n ≤ length perm)%nat → 1 ≤ cycle_lcm_upto perm n.
Proof.
  induction n as [|n IH]; intros Hn; [done|]. cbn [cycle_lcm_upto].
  specialize (IH ltac:(lia)).
  destruct (cycle_len_spec (Z.of_nat n)) as (c & -> & Hc & _); [unfold len; lia|].
  pose proof (Z.lcm_nonneg (cycle_lcm_upto perm n) (Z.of_nat c)).
  destruct (decide (Z.lcm (cycle_lcm_upto perm n) (Z.of_nat c) = 0)) as [E|]; [|lia].
  apply Z.lcm_eq_0 in E. lia.
Qed.

Lemma cycle_lcm_upto_divide n j :
  (j < n)%nat → (cycle_len perm (Z.of_nat j) | cycle_lcm_upto perm n).
Proof.
  induction n as [|n IH]; intros Hj; [lia|]. cbn [cycle_lcm_upto].
  destruct (decide (j = n)) as [->|].
  - apply Z.divide_lcm_r.
  - etrans; [apply IH; lia|apply Z.divide_lcm_l].
Qed.

Lemma cycle_lcm_upto_mono n m :
  (n ≤ m ≤ length perm)%nat → cycle_lcm_upto perm n ≤ cycle_lcm_upto perm m.
Proof.
  intros [Hnm Hm]. induction m as [|m IH]; [by replace n with 0%nat by lia|].
  destruct (decide (n = S m)) as [->|]; [done|].
  etrans; [apply IH; lia|]. cbn [cycle_lcm_upto].
  apply Z.divide_pos_le; [|apply Z.divide_lcm_l].
  pose proof (cycle_lcm_upto_pos (S m) Hm). cbn [cycle_lcm_upto] in *. lia.
Qed.

End cycles.

Section order.
Variable perm : list Z.
Hypothesis Hnd : NoDup perm.
Hypothesis Hp : ∀ k, 0 ≤ k < len perm → 0 ≤ rd perm k < len perm.

(** The walk from an unmarked point whose cycle is unmarked goes once
    round the cycle: it marks the cycle, comes back to the point and has
    counted the length of the cycle. *)
Lemma walk_cycle_round visited i :
  len visited = len perm → 0 ≤ i < len perm →
  (∀ k, rd visited (iter_pt perm k i) = 0) →
  ∃ visited', walk_cycle perm visited i = Some (visited', i, cycle_len perm i) ∧
    len visited' = len perm ∧
    ∀ j, 0 ≤ j < len perm →
      (rd visited' j ≠ 0 ↔ rd visited j ≠ 0 ∨ ∃ k, j = iter_pt perm k i).
Proof.
  intros Hl Hi Hfree. unfold walk_cycle.
  destruct (cycle_len_spec perm Hnd Hp i Hi) as (c & Hcl & Hc & Ec & Hmin).
  assert (Hdist : ∀ a b, (a < b < c)%nat → iter_pt perm a i ≠ iter_pt perm b i).
  { intros a b Hab E. apply (Hmin (b - a)%nat); [lia|].
    apply iter_pt_cancel; [done|done|done|lia|done]. }
  destruct (while_fuel_inv
    (fun '(v, curr, n) =>
       ∃ m : nat, (m ≤ c)%nat ∧ n = Z.of_nat m ∧ curr = iter_pt perm m i ∧
         len v = len perm ∧
         ∀ j, 0 ≤ j < len perm →
           (rd v j ≠ 0 ↔ rd visited j ≠ 0 ∨ ∃ k, (k < m)%nat ∧ j = iter_pt perm k i))
    (fun '(v, _, _) => unmarked v)
    (fun '(visited, curr, len) => rd visited curr =? 0)
    (fun '(visited, curr, len) => (wr visited curr 1, rd perm curr, len + 1)))
    with (fuel := length perm) (st := (visited, i, 0))
    as ([[v curr] n] & Hw & (m & Hm & -> & -> & Hlv & Hmark) & Hcond).
  - intros [[v curr] n] (m & Hm & -> & -> & Hlv & Hmark) Hcond. apply Z.eqb_eq in Hcond.
    pose proof (iter_pt_range perm Hp m i Hi) as Hr.
    assert (m < c)%nat as Hlt.
    { destruct (decide (m = c)) as [->|]; [|lia]. exfalso.
      rewrite Ec in Hcond. apply (proj2 (Hmark i Hi)); [|done].
      right. exists 0%nat. split; [lia|done]. }
    split.
    + exists (S m). split_and!; [lia|lia|done|by rewrite len_wr|].
      intros j Hj. rewrite rd_wr, Hlv.
      destruct (decide (iter_pt perm m i = j)) as [<-|Hne].
      * rewrite decide_True by done. split; [|done]. intros _. right. exists m. split; [lia|done].
      * rewrite decide_False by (intros [? _]; done). rewrite (Hmark j Hj). split.
        -- intros [?|(k & Hk & ->)]; [by left|]. right. exists k. split; [lia|done].
        -- intros [?|(k & Hk & ->)]; [by left|]. right. exists k. split; [|done].
           destruct (decide (k = m)) as [->|]; [done|lia].
    + apply unmarked_mark; [lia|done].
  - exists 0%nat. split_and!; [lia|done|done|done|].
    intros j Hj. split; [by left|]. intros [?|(k & Hk & _)]; [done|lia].
  - pose proof (unmarked_le visited). unfold len in Hl. lia.
  - apply Z.eqb_neq in Hcond.
    pose proof (iter_pt_range perm Hp m i Hi) as Hr.
    assert (m = c) as ->.
    { destruct (decide (m = c)); [done|]. exfalso.
      apply (Hmark _ Hr) in Hcond as [H0|(k & Hk & E)]; [by apply H0|].
      apply (Hdist k m); [lia|done]. }
    rewrite Ec, <- Hcl in Hw. exists v. split_and!; [done|done|].
    intros j Hj. rewrite (Hmark j Hj). split.
    + intros [?|(k & _ & ->)]; [by left|right; by exists k].
    + intros [?|(k & ->)]; [by left|]. right. exists (k mod c)%nat. split.
      * apply Nat.mod_upper_bound. lia.
      * apply iter_pt_mod; [lia|done].
Qed.

(** The marks before iteration [i] of the outer loop: the cycles of the
    points below [i]. *)
Definition marked_below (i : Z) (visited : list Z) : Prop :=
  len visited = len perm ∧
  ∀ j, 0 ≤ j < len perm →
    (rd visited j ≠ 0 ↔ ∃ j' k, 0 ≤ j' < i ∧ j = iter_pt perm k j').

Lemma calcApproxOrder_loop limit :
  1 ≤ limit →
  let '(v, lcm, result) :=
    for_range 0 (len perm) (fun i '(visited, lcm, result) =>
      match result with
      | Some _ => (visited, lcm, result)
      | None =>
          if negb (rd visited i =? 0) then (visited, lcm, None)
          else
            match walk_cycle perm visited i with
            | None => (visited, lcm, Some OutOfFuel)
            | Some (visited, _, len) =>
                if 0 <? len then
                  let lcm := _lcm lcm len in
                  if limit <? lcm then (visited, lcm, Some (Returns limit))
                  else (visited, lcm, None)
                else (visited, lcm, None)
            end
      end) (new_array (len perm), 1, None) in
  (result = None ∧ lcm = cycle_lcm perm ∧ lcm ≤ limit) ∨
  (result = Some (Returns limit) ∧ limit < cycle_lcm perm).
Proof.
  intros Hlimit. pose proof (len_nonneg perm) as Hn.
  set (body := fun (i : Z) (st : list Z * Z * option (outcome Z)) => _).
  assert (H : let '(v, lcm, result) := for_range 0 (len perm) body
                                         (new_array (len perm), 1, None) in
     (result = None ∧ marked_below (len perm) v ∧
      lcm = cycle_lcm_upto perm (Z.to_nat (len perm)) ∧ lcm ≤ limit) ∨
     (result = Some (Returns limit) ∧ limit < cycle_lcm perm)).
  { apply (for_range_ind (fun (i : Z) '(v, lcm, result) =>
     (result = None ∧ marked_below i v ∧
      lcm = cycle_lcm_upto perm (Z.to_nat i) ∧ lcm ≤ limit) ∨
     (result = Some (Returns limit) ∧ limit < cycle_lcm perm))); [done| |].
    - left. split_and!; [done| |done|done]. split; [by apply len_new_array|].
      intros j Hj. rewrite rd_new_array. split; [done|]. intros (j' & k & ? & _). lia.
    - intros i [[v lcm] result] Hi [(-> & [Hlv Hmark] & -> & Hle)|[-> Hgt]]; [|by right].
      unfold body.
      replace (Z.to_nat (i + 1)) with (S (Z.to_nat i)) by lia.
      cbn [cycle_lcm_upto]. rewrite Z2Nat.id by lia.
      set (L := cycle_lcm_upto perm (Z.to_nat i)) in *.
      assert (HL : 1 ≤ L).
      { apply cycle_lcm_upto_pos; [done|done|]. unfold len in Hi. lia. }
      assert (Hnext : ∀ v', len v' = len perm →
                (∀ j, 0 ≤ j < len perm →
                   (rd v' j ≠ 0 ↔ rd v j ≠ 0 ∨ ∃ k, j = iter_pt perm k i)) →
                marked_below (i + 1) v').
      { intros v' Hlv' Hm'. split; [done|]. intros j Hj. rewrite (Hm' j Hj), (Hmark j Hj).
        split.
        - intros [(j' & k & Hj' & ->)|(k & ->)]; [exists j', k|exists i, k]; split; (lia || done).
        - intros (j' & k & Hj' & ->).
          destruct (decide (j' = i)) as [->|]; [right; by exists k|].
          left. exists j', k. split; [lia|done]. }
      destruct (rd v i =? 0) eqn:Hv; simpl.
      + apply Z.eqb_eq in Hv.
        assert (Hfree : ∀ k, rd v (iter_pt perm k i) = 0).
        { intros k. destruct (decide (rd v (iter_pt perm k i) = 0)) as [|Hne]; [done|].
          exfalso. apply (Hmark _ (iter_pt_range perm Hp k i Hi)) in Hne as (j' & k' & Hj' & E).
          destruct (iter_pt_back perm Hnd Hp i k Hi) as (k'' & Eb).
          rewrite E, <- iter_pt_add in Eb.
          apply (proj2 (Hmark i Hi)); [|done]. exists j', (k'' + k')%nat. split; [done|by symmetry]. }
        destruct (walk_cycle_round v i Hlv Hi Hfree) as (v' & -> & Hlv' & Hm').
        destruct (cycle_len_spec perm Hnd Hp i Hi) as (c & Hcl & Hc & _).
        rewrite Hcl in *.
        replace (0 <? Z.of_nat c) with true by (symmetry; apply Z.ltb_lt; lia).
        rewrite _lcm_lcm.
        destruct (limit <? Z.lcm L (Z.of_nat c)) eqn:Hlim.
        * right. split; [done|]. apply Z.ltb_lt in Hlim.
          eapply Z.lt_le_trans; [exact Hlim|].
          rewrite <- Hcl. change (Z.lcm L (cycle_len perm i)) with
            (Z.lcm (cycle_lcm_upto perm (Z.to_nat i)) (cycle_len perm i)).
          rewrite <- (Z2Nat.id i) at 2 by lia.
          change (Z.lcm (cycle_lcm_upto perm (Z.to_nat i)) (cycle_len perm (Z.of_nat (Z.to_nat i))))
            with (cycle_lcm_upto perm (S (Z.to_nat i))).
          apply cycle_lcm_upto_mono; [done|done|]. unfold len in Hi. lia.
        * apply Z.ltb_ge in Hlim. left. split_and!; [done|by apply Hnext|done|done].
      + apply Z.eqb_neq in Hv. left.
        assert (Hdiv : (cycle_len perm i | L)).
        { apply (Hmark i Hi) in Hv as (j' & k & Hj' & ->).
          rewrite cycle_len_iter by (done || lia).
          rewrite <- (Z2Nat.id j') by lia. apply cycle_lcm_upto_divide. lia. }
        split_and!; [done| | |done].
        * apply Hnext; [done|]. intros j Hj. split; [by left|].
          intros [?|(k & ->)]; [done|].
          apply (Hmark i Hi) in Hv as (j' & k' & Hj' & ->).
          apply Hmark; [apply iter_pt_range; [done|]; apply iter_pt_range; [done|lia]|].
          exists j', (k + k')%nat. split; [done|]. by rewrite iter_pt_add.
        * symmetry. rewrite Z.lcm_comm. apply Z.divide_lcm_eq_r; [lia|done]. }
  destruct (for_range 0 (len perm) body _) as [[v lcm] result].
  destruct H as [(-> & _ & -> & Hle)|[-> Hgt]]; [left|by right].
  unfold cycle_lcm. unfold len in *. rewrite Nat2Z.id in *. done.
Qed.

End order.

(** X30.  [calcApproxOrder] on a permutation returns the order of the
    permutation capped at [limit]: the least common multiple of the cycle
    lengths when that is at most [limit], and [limit] itself (not
    [limit + 1]) when it is larger. *)
Theorem calcApproxOrder_min_order (perm : list Z) (limit : Z) :
  NoDup perm → (∀ k, 0 ≤ k < len perm → 0 ≤ rd perm k < len perm) →
  1 ≤ limit → limit * len perm < 2 ^ 53 →
  calcApproxOrder perm limit = Returns (Z.min limit (cycle_lcm perm)) ∧
  (cycle_lcm perm ≤ limit → calcApproxOrder perm limit = Returns (cycle_lcm perm)) ∧
  (limit < cycle_lcm perm → calcApproxOrder perm limit = Returns limit).
Proof.
  intros Hnd Hp Hlimit _.
  assert (H : calcApproxOrder perm limit = Returns (Z.min limit (cycle_lcm perm))).
  { unfold calcApproxOrder. cbv zeta.
    pose proof (calcApproxOrder_loop perm Hnd Hp limit Hlimit) as H.
    destruct (for_range 0 (len perm) _ _) as [[v lcm] result].
    destruct H as [(-> & -> & Hle)|[-> Hgt]]; f_equal; lia. }
  split_and!; [done|..]; intros Hc; rewrite H; f_equal; lia.
Qed.

Lemma calcApproxOrder_min_order_witness :
  calcApproxOrder [1; 2; 0; 4; 3] 5 = Returns (Z.min 5 (cycle_lcm [1; 2; 0; 4; 3])) ∧
  (cycle_lcm [1; 2; 0; 4; 3] ≤ 5 → calcApproxOrder [1; 2; 0; 4; 3] 5
                                    = Returns (cycle_lcm [1; 2; 0; 4; 3])) ∧
  (5 < cycle_lcm [1; 2; 0; 4; 3] → calcApproxOrder [1; 2; 0; 4; 3] 5 = Returns 5).
Proof.
  apply calcApproxOrder_min_order; [| |lia|vm_compute; reflexivity].
  - apply (bool_decide_unpack (NoDup [1; 2; 0; 4; 3])). vm_compute. exact I.
  - intros k Hk. change (len [1; 2; 0; 4; 3]) with 5 in *.
    assert (k = 0 ∨ k = 1 ∨ k = 2 ∨ k = 3 ∨ k = 4) as [->|[->|[->|[->| ->]]]] by lia;
      vm_compute; split; discriminate || reflexivity.
Defined.

Example cycle_lcm_tests :
  cycle_lcm [1; 2; 0; 4; 3] = 6 ∧ cycle_len [1; 2; 0; 4; 3] 0 = 3 ∧
  cycle_len [1; 2; 0; 4; 3] 4 = 2 ∧ cycle_lcm [0; 1; 2] = 1 ∧ cycle_lcm [] = 1.
Proof. vm_compute. repeat split. Qed.
